(** * Restoring rooting, node labels and node order of a phylogenetic tree

    A shallow embedding of the notebook [restore_tree.ipynb]: the functions
    [walk_copy], [root_above], [restore_rooting], [restore_node_labels] and
    [restore_node_order], together with the part of scikit-bio's [TreeNode]
    they call.

    A Python [TreeNode] is an object with a [parent] pointer.  Here a tree is
    a pure value and a node of it is addressed by the child indices met on
    the way from the node up to the apex, innermost index first: the apex is
    [[]], its second child is [[1]], the first child of that one is [[0; 1]].
    Two addresses into one tree are equal exactly when the Python objects
    are identical ([is]); [parent] is the tail of the address. *)

From Stdlib Require Import QArith Qcanon Floats.
From stdpp Require Import gmap strings list.

Set Default Proof Using "Type".
Local Set Warnings "-inexact-float".
Local Open Scope string_scope.
Local Open Scope list_scope.

(** ** Branch lengths

    Python adds two lengths ([src.length + node.length]) and halves one
    ([node.length / 2]).  The development is generic in the number type. *)

Class LengthOps (R : Type) := {
  radd : R -> R -> R;
  rhalf : R -> R
}.

(** IEEE binary64, the numbers the notebook computes with. *)
#[export] Instance float_ops : LengthOps float :=
  {| radd := PrimFloat.add; rhalf := fun x => PrimFloat.div x 2%float |}.

(** Exact rationals. *)
#[export] Instance Qc_ops : LengthOps Qc :=
  {| radd := Qcplus; rhalf := fun x => Qcdiv x (Q2Qc 2) |}.

(** ** Errors and results *)

Inductive error :=
| CannotWalkFromRootOfRootedTree (* ValueError('Cannot walk from root of an rooted tree.') *)
| NotNeighbors                   (* ValueError('Source and node are not neighbors.') *)
| SourceNotRooted                (* ValueError('Source tree must be rooted.') *)
| TargetNotUnrooted              (* ValueError('Target tree must be unrooted.') *)
| TaxaMismatch                   (* ValueError('Taxa in source and target trees do not match.') *)
| DuplicateLabel (l : string)    (* ValueError('Duplicated node label %s found.') *)
| MissingLabel                   (* ValueError('There are empty node label(s) ...') *)
| LabelNotFound                  (* skbio MissingNodeError, raised by find *)
| ChildMismatch                  (* KeyError, raised by name2child[child.name] *)
| DuplicateNodeError             (* skbio, raised by create_caches on a repeated tip name *)
| NoTipsFound                    (* skbio ValueError('No tips found.'), raised by lca *)
| TreeError                      (* skbio, raised by root_at on a tip *)
| TypeError                      (* arithmetic on a length that is None, [0] on a set *)
| AttributeError                 (* attribute access on None *)
| IndexError                     (* [...][0] on an empty list *)
| ValueError                     (* min() of an empty sequence *)
| RecursionError.                (* the recursion budget of the model is used up *)

Inductive result (A : Type) :=
| Ok (a : A)
| Err (e : error).
Arguments Ok {A} a.
Arguments Err {A} e.

#[export] Instance result_ret : MRet result := fun _ a => Ok a.
#[export] Instance result_bind : MBind result := fun _ _ f r =>
  match r with Ok a => f a | Err e => Err e end.

#[export] Instance result_fmap : FMap result := fun _ _ f r =>
  match r with Ok a => Ok (f a) | Err e => Err e end.

Definition is_ok {A} (r : result A) : bool :=
  match r with Ok _ => true | Err _ => false end.

(** [o] or else the exception [e]. *)
Definition or_raise {A} (e : error) (o : option A) : result A :=
  match o with Some a => Ok a | None => Err e end.

(** A [for] loop that threads a state and stops at the first exception. *)
Fixpoint for_each {A S} (f : S -> A -> result S) (s : S) (l : list A)
  : result S :=
  match l with
  | [] => Ok s
  | x :: l' => s' ← f s x; for_each f s' l'
  end.

(** Position of a node and direction of a walk, the strings ['root'],
    ['basal'], ['derived'] and ['down'], ['up'], ['top'], ['bottom'],
    ['n/a'] of [walk_copy]. *)
Inductive position := Root | Basal | Derived.
Inductive move := Down | Up | Top | Bottom | NA.

#[export] Instance position_eq_dec : EqDecision position.
Proof. solve_decision. Defined.
#[export] Instance move_eq_dec : EqDecision move.
Proof. solve_decision. Defined.

(** A node is addressed by the child indices on the way up to the apex. *)
Abbreviation addr := (list nat).

(** ** The tree node model *)

Section tree.
Context {R : Type}.

Local Unset Elimination Schemes.

(** [name], [length] and [children] of a [TreeNode]; [branch_length] is the
    Python attribute [length]. *)
Inductive tree := Node {
  name : option string;
  branch_length : option R;
  children : list tree
}.

Section tree_ind.
Variable P : tree -> Prop.
Hypothesis P_node : forall n l cs, Forall P cs -> P (Node n l cs).

Fixpoint tree_ind (t : tree) : P t :=
  match t with
  | Node n l cs =>
      P_node n l cs
        ((fix go (cs : list tree) : Forall P cs :=
            match cs with
            | [] => Forall_nil_2 P
            | c :: cs' => Forall_cons_2 P c cs' (tree_ind c) (go cs')
            end) cs)
  end.
End tree_ind.


Fixpoint node_at (T : tree) (p : addr) : option tree :=
  match p with
  | [] => Some T
  | i :: q => n ← node_at T q; children n !! i
  end.

(** [node.is_tip()] *)
Definition is_tip (n : tree) : bool :=
  match children n with [] => true | _ => false end.

(** [node.parent], [None] at the apex. *)
Definition parent (p : addr) : option addr :=
  match p with [] => None | _ :: q => Some q end.

(** [node.is_root()] *)
Definition is_root (p : addr) : bool :=
  match p with [] => true | _ => false end.

(** The addresses of [node.children], in order. *)
Definition children_of (T : tree) (p : addr) : list addr :=
  match node_at T p with
  | Some n => (fun i => i :: p) <$> seq 0 (length (children n))
  | None => []
  end.

(** [node.siblings()]: the parent's children without the node itself. *)
Definition siblings (T : tree) (p : addr) : list addr :=
  match p with
  | [] => []
  | _ :: q => filter (fun x => x <> p) (children_of T q)
  end.

(** Height of a tree, counted in nodes. *)
Fixpoint height (t : tree) : nat :=
  match t with
  | Node _ _ cs => S (foldr (fun c h => max (height c) h) 0 cs)
  end.

Definition set_length (t : tree) (l : option R) : tree :=
  Node (name t) l (children t).

(** ** Directional copy: [walk_copy] (Solution II of the notebook) *)

(** Python truth value of [rooted], which is [True], [False] or [None]. *)
Definition truthy (b : option bool) : bool := default false b.

Context `{LengthOps R}.

(** [a + b] on lengths that may be [None]. *)
Definition add_lengths (a b : option R) : result (option R) :=
  match a, b with
  | Some x, Some y => Ok (Some (radd x y))
  | _, _ => Err TypeError
  end.

(** The body of [walk_copy(node, src)] on the tree [T]; [node] and [src] may
    be [None].  [fuel] bounds the depth of the recursion. *)
Fixpoint walk_copy_rec (fuel : nat) (T : tree) (node src : option addr)
  : result tree :=
  match fuel with
  | 0 => Err RecursionError
  | S fuel =>
      p ← or_raise AttributeError node;
      n ← or_raise AttributeError (node_at T p);
      let parent := parent p in
      let children := children_of T p in
      (* position of node *)
      let pos := if is_root p then Root
                 else if is_root (default [] parent) then Basal
                 else Derived in
      (* whether tree is rooted *)
      let rooted :=
        match pos with
        | Root => Some (bool_decide (length children = 2))
        | Basal =>
            Some (bool_decide (length (children_of T (default [] parent)) = 2))
        | Derived => None
        end in
      if truthy rooted && bool_decide (pos = Root)
      then Err CannotWalkFromRootOfRootedTree
      else
        sibling ← (if truthy rooted && bool_decide (pos = Basal)
                   then s ← or_raise IndexError (head (siblings T p));
                        mret (Some s)
                   else mret None);
        (* direction of walking *)
        let mv :=
          if truthy rooted && bool_decide (pos = Basal)
          then (if bool_decide (src = sibling) then Bottom
                else if bool_decide (src ∈ Some <$> children) then Top
                else NA)
          else (if bool_decide (src = parent) then Down
                else if bool_decide (src ∈ Some <$> children) then Up
                else NA) in
        if bool_decide (mv = NA) then Err NotNeighbors
        else
          let src_length := s ← src; m ← node_at T s; branch_length m in
          (* determine length of the new node *)
          len ← match mv with
                | Down => Ok (branch_length n)
                | Bottom => add_lengths src_length (branch_length n)
                | _ => Ok src_length
                end;
          (* append children except for src (if applies) *)
          kids ← mapM (fun c => walk_copy_rec fuel T (Some c) node)
                      (filter (fun c => Some c <> src) children);
          (* append parent if walking up (except at root) *)
          up ← (if bool_decide (mv = Up) && negb (bool_decide (pos = Root))
                then k ← walk_copy_rec fuel T parent node; mret [k]
                else mret []);
          (* append sibling if walking from one basal node to another *)
          top ← (if bool_decide (mv = Top)
                 then k ← walk_copy_rec fuel T sibling node; mret [k]
                 else mret []);
          mret (Node (name n) len (kids ++ up ++ top))
  end.

(** Enough recursion depth for every walk through [T]: a walk enters no
    node twice. *)
Definition budget (T : tree) : nat := 2 * height T.

(** [walk_copy(node, src)] *)
Definition walk_copy (T : tree) (node src : option addr) : result tree :=
  walk_copy_rec (budget T) T node src.

(** ** Midpoint rerooting: [root_above(node, name=None)] *)

Definition half_length (l : option R) : result (option R) :=
  match l with
  | Some x => Ok (Some (rhalf x))
  | None => Err TypeError
  end.

Definition root_above (T : tree) (node : addr) (new_name : option string)
  : result tree :=
  n ← or_raise AttributeError (node_at T node);
  (* walk down from self node *)
  left ← walk_copy T (Some node) (parent node);
  (* walk up from parent node *)
  right ← walk_copy T (parent node) (Some node);
  (* set basal branch lengths to be half of the original, i.e., midpoint *)
  l ← half_length (branch_length n);
  (* create new root *)
  mret (Node new_name None [set_length left l; set_length right l]).

(** ** The part of scikit-bio's [TreeNode] that the notebook calls *)

(** The nodes of the children [cs] of the node at [p], the [i]-th child
    first, each child's nodes listed by [post]. *)
Definition post_children (post : tree -> addr -> list (addr * tree)) (p : addr)
  : list tree -> nat -> list (addr * tree) :=
  fix go cs i :=
    match cs with
    | [] => []
    | c :: cs' => post c (i :: p) ++ go cs' (S i)
    end.

(** [self.postorder(include_self=True)]: every node of [n] with its address,
    children before their parent; [p] is the address of [n] itself. *)
Fixpoint postorder (n : tree) (p : addr) : list (addr * tree) :=
  match n with
  | Node _ _ cs => post_children postorder p cs 0 ++ [(p, n)]
  end.

(** [self.traverse()], which is [self.preorder(include_self=True)]. *)
Fixpoint preorder (n : tree) : list tree :=
  match n with
  | Node _ _ cs => n :: mjoin (preorder <$> cs)
  end.

(** [self.tips()]: the tips below [n] in postorder; [n] itself is left out
    ([include_self=False]), so a tip has no tips. *)
Definition tips (n : tree) (p : addr) : list (addr * tree) :=
  filter (fun x => is_tip x.2 = true /\ x.1 <> p) (postorder n p).

(** [self.non_tips(include_self=True)] *)
Definition non_tips (n : tree) (p : addr) : list (addr * tree) :=
  filter (fun x => is_tip x.2 = false) (postorder n p).

(** [self.count(tips=True)], which is [len(list(self.tips()))]. *)
Definition count_tips (n : tree) : nat := length (tips n []).

(** [set(x.name for x in self.tips())] *)
Definition tip_names (n : tree) : gset (option string) :=
  list_to_set ((fun x => name x.2) <$> tips n []).

(** [self.create_caches()] followed by the lookups of [self.find(name)]:
    a tip of that name first, else the first internal node of that name in
    postorder.  Nodes whose name is [None] are not cached; a tip name met
    twice raises [DuplicateNodeError]. *)
Definition named (want_tip : bool) (T : tree) : list (string * addr) :=
  omap (fun x => if bool_decide (is_tip x.2 = want_tip)
                 then s ← name x.2; Some (s, x.1) else None)
       (postorder T []).

Definition lookup_name (s : string) (l : list (string * addr)) : option addr :=
  snd <$> (snd <$> list_find (fun x => x.1 = s) l).

Definition find (T : tree) (nm : option string) : result addr :=
  let tip_cache := named true T in
  let non_tip_cache := named false T in
  if bool_decide (NoDup (fst <$> tip_cache)) then
    match nm with
    | None => Err LabelNotFound
    | Some s =>
        match lookup_name s tip_cache with
        | Some a => Ok a
        | None => or_raise LabelNotFound (lookup_name s non_tip_cache)
        end
    end
  else Err DuplicateNodeError.

(** The marking loop of [lca] for one found node, [prev = t; curr =
    t.parent]: [while curr and not hasattr(curr, 'black')] gives every node
    on the way up that has no attribute [black] the list [[prev]]; the
    first node that has one gets [prev] appended, and the walk ends there.
    The attribute is kept in a map from nodes to lists. *)
Fixpoint mark_up (black : gmap addr (list addr)) (prev : addr)
  : gmap addr (list addr) :=
  match prev with
  | [] => black
  | _ :: curr =>
      match black !! curr with
      | None => mark_up (<[curr := [prev]]> black) curr
      | Some l => <[curr := l ++ [prev]]> black
      end
  end.

(** [while len(curr.black) == 1: curr = curr.black[0]], then [curr]. *)
Fixpoint descend (fuel : nat) (black : gmap addr (list addr)) (curr : addr)
  : result addr :=
  match fuel with
  | 0 => Err RecursionError
  | S fuel =>
      l ← or_raise AttributeError (black !! curr);
      match l with
      | [next] => descend fuel black next
      | _ => Ok curr
      end
  end.

(** [self.lca(tipnames)] ([lowest_common_ancestor]) called on the apex with
    the set the notebook passes.  For one name scikit-bio evaluates
    [tipnames[0]], which a set does not support.  Otherwise every name is
    looked up with [find]; no name at all is an exception; a found node
    that is the apex is returned at once; else the found nodes mark the
    nodes above them, and the marks are followed down from the apex. *)
Definition lca (T : tree) (tipnames : gset (option string)) : result addr :=
  if bool_decide (size tipnames = 1) then Err TypeError
  else
    found ← mapM (find T) (elements tipnames);
    if bool_decide (found = []) then Err NoTipsFound
    else if bool_decide ([] ∈ found) then Ok []
    else descend (height T) (foldl mark_up ∅ found) [].

(** [self.neighbors(ignore=parent)]: the children, then the parent. *)
Definition neighbors (T : tree) (p : addr) (ignore : option addr) : list addr :=
  filter (fun x => Some x <> ignore)
         (children_of T p ++ match parent p with Some q => [q] | None => [] end).

(** [self.unrooted_copy(parent)]: a walk that names and measures a node by
    the edge it is entered through. *)
Fixpoint unrooted_copy_rec (fuel : nat) (T : tree) (self : addr)
    (from : option addr) : result tree :=
  match fuel with
  | 0 => Err RecursionError
  | S fuel =>
      n ← or_raise AttributeError (node_at T self);
      kids ← mapM (fun c => unrooted_copy_rec fuel T c (Some self))
                  (neighbors T self from);
      match from with
      | None => Ok (Node (Some "root") None kids)
      | Some f =>
          if bool_decide (parent f = Some self)
          then m ← or_raise AttributeError (node_at T f);
               Ok (Node (name m) (branch_length m) kids)
          else Ok (Node (name n) (branch_length n) kids)
      end
  end.

Definition unrooted_copy (T : tree) (self : addr) (from : option addr)
  : result tree :=
  unrooted_copy_rec (budget T) T self from.

(** [self.root_at(node)] for a node object. *)
Definition root_at (T : tree) (node : addr) : result tree :=
  n ← or_raise AttributeError (node_at T node);
  if is_tip n then Err TreeError else unrooted_copy T node None.

(** ** Restore rooting *)

(** Python's [min(seq, key=...)]: the first element with the least key. *)
Definition min_by {A} (key : A -> nat) (l : list A) : result A :=
  match l with
  | [] => Err ValueError
  | x :: l' => Ok (foldl (fun best y => if (key y <? key best)%nat then y else best) x l')
  end.

(** [counts = {x: x.count(tips=True) for x in src.children}] and
    [min(counts, key=counts.get)]: the dictionary is keyed by the child
    objects and iterated in insertion order. *)
Definition outgroup_clade (src : tree) : result tree :=
  min_by count_tips (children src).

(** The [for tip in res.tips()] loop of the degenerate case: the tree is
    swapped at the parent of the first tip that is not in the outgroup. *)
Definition swap_tree (res : tree) (outgroup : gset (option string))
  : result tree :=
  match list_find (fun x => name x.2 ∉ outgroup) (tips res []) with
  | Some (_, (tip, _)) => root_at res (default [] (parent tip))
  | None => Ok res
  end.

(** The tree that is finally rerooted and the LCA of the outgroup in it. *)
Definition locate_outgroup (res : tree) (outgroup : gset (option string))
  : result (tree * addr) :=
  a ← lca res outgroup;
  if bool_decide (a = [])
  then res' ← swap_tree res outgroup;
       a' ← lca res' outgroup;
       mret (res', a')
  else mret (res, a).

Definition restore_rooting (src trg : tree) : result tree :=
  if bool_decide (length (children src) <> 2) then Err SourceNotRooted
  else if bool_decide (length (children trg) = 2) then Err TargetNotUnrooted
  else if bool_decide (tip_names src <> tip_names trg) then Err TaxaMismatch
  else
    (* create new tree *)
    let res := trg in
    clade ← outgroup_clade src;
    let outgroup := tip_names clade in
    '(res, a) ← locate_outgroup res outgroup;
    (* re-root the target tree between LCA of outgroup and LCA of ingroup *)
    root_above res a None.

(** ** Restore node labels *)

(** The dictionary [label2taxa], in insertion order. *)
Definition label2taxa (src : tree)
  : result (list (string * gset (option string))) :=
  for_each
    (fun acc x =>
       match name x.2 with
       | Some label =>
           if bool_decide (label <> "") then
             if bool_decide (label ∈ fst <$> acc)
             then Err (DuplicateLabel label)
             else Ok (acc ++ [(label, tip_names x.2)])
           else Ok acc
       | None => Ok acc
       end)
    [] (non_tips src []).

(** Replace the node at [p] by [f] of it. *)
Fixpoint modify_at (p : addr) (f : tree -> tree) (T : tree) : tree :=
  match p with
  | [] => f T
  | i :: q =>
      modify_at q
        (fun n => Node (name n) (branch_length n) (alter f i (children n))) T
  end.

Definition set_name (nm : option string) (n : tree) : tree :=
  Node nm (branch_length n) (children n).

(** The body of the loop over the internal nodes of the copy. *)
Definition label_node (l2t : list (string * gset (option string)))
    (res : tree) (p : addr) : tree :=
  match node_at res p with
  | Some n =>
      match list_find (fun x => x.2 = tip_names n) l2t with
      | Some (_, (label, _)) => modify_at p (set_name (Some label)) res
      | None => res
      end
  | None => res
  end.

Definition restore_node_labels (src trg : tree) : result tree :=
  (* read descendants under each node label in source tree *)
  l2t ← label2taxa src;
  (* identify and mark matching nodes per node label in target tree *)
  let res := trg in
  Ok (foldl (label_node l2t) res (fst <$> non_tips res [])).

(** ** Restore node ordering *)

(** [name2child]: later children overwrite earlier ones of the same name. *)
Definition name2child (kids : list tree) : gmap (option string) tree :=
  foldl (fun m c => <[name c := c]> m) ∅ kids.

(** [ntrg.append(child)] on the fresh list: scikit-bio first removes the
    child from its parent's list, and the parent is still [ntrg].  The
    child fetched for a name is one object, so it is in the list already
    exactly when that name was appended before. *)
Definition append_child (new : list tree) (c : tree) : list tree :=
  filter (fun x => name x <> name c) new ++ [c].

Definition reorder_children (src_kids kids : list tree) : result (list tree) :=
  let m := name2child kids in
  for_each (fun new c => x ← or_raise ChildMismatch (m !! name c);
                         Ok (append_child new x))
           [] src_kids.

Definition set_children (cs : list tree) (n : tree) : tree :=
  Node (name n) (branch_length n) cs.

(** The body of the loop over [src.traverse()]. *)
Definition reorder_node (res : tree) (nsrc : tree) : result tree :=
  if is_tip nsrc then Ok res
  else
    match name nsrc with
    | None => Err MissingLabel
    | Some label =>
        if bool_decide (label = "") then Err MissingLabel
        else
          p ← find res (Some label);
          ntrg ← or_raise AttributeError (node_at res p);
          kids ← reorder_children (children nsrc) (children ntrg);
          Ok (modify_at p (set_children kids) res)
    end.

Definition restore_node_order (src trg : tree) : result tree :=
  let res := trg in
  for_each reorder_node res (preorder src).

(** ** Closed forms of the walks, used to reason about [walk_copy] *)

(** [src.length], [None] when [src] is no node. *)
Definition src_length (T : tree) (src : option addr) : option R :=
  s ← src; m ← node_at T s; branch_length m.

(** The recursive copies of the children other than [src]. *)
Definition walk_kids (fuel : nat) (T : tree) (p : addr) (src : option addr)
  : result (list tree) :=
  mapM (fun c => walk_copy_rec fuel T (Some c) (Some p))
       (filter (fun c => Some c <> src) (children_of T p)).

(** What a walk from one basal node of a rooted tree makes of the other
    one, the child [1 - i] of the apex: the two basal branches merged. *)
Definition bottom_view (T : tree) (i : nat) : result tree :=
  n ← or_raise AttributeError (children T !! i);
  sib ← or_raise IndexError (children T !! (1 - i));
  len ← add_lengths (branch_length n) (branch_length sib);
  Ok (Node (name sib) len (children sib)).

(** What a walk up from the child [c] of the node at [q] makes of that
    node: its other children, then the rest of the tree above it. *)
Fixpoint up_view (T : tree) (q : addr) (c : nat) : result tree :=
  n ← or_raise AttributeError (node_at T q);
  s ← or_raise AttributeError (children n !! c);
  match q with
  | [] =>
      if bool_decide (length (children T) = 2)
      then Err CannotWalkFromRootOfRootedTree
      else Ok (Node (name n) (branch_length s) (delete c (children n)))
  | i :: q' =>
      rest ← (if is_root q' && bool_decide (length (children T) = 2)
              then bottom_view T i
              else up_view T q' i);
      Ok (Node (name n) (branch_length s) (delete c (children n) ++ [rest]))
  end.

(** ** Notions used to state the properties of the restorers *)

(** The label of a node, if it has a non-empty one. *)
Definition label_of (n : tree) : option string :=
  match name n with
  | Some l => if bool_decide (l <> "") then Some l else None
  | None => None
  end.

(** The non-empty labels of the internal nodes, in postorder. *)
Definition internal_labels (T : tree) : list string :=
  omap (fun x => label_of x.2) (non_tips T []).

(** The names of the tips of the clade of [t], [t] itself if it is a tip. *)
Fixpoint clade_tip_list (t : tree) : list (option string) :=
  match t with
  | Node nm _ [] => [nm]
  | Node _ _ cs => mjoin (clade_tip_list <$> cs)
  end.

Definition clade_tip_names (t : tree) : gset (option string) :=
  list_to_set (clade_tip_list t).

(** [[x.name for x in self.tips()]] *)
Definition tip_name_list (T : tree) : list (option string) :=
  (fun x => name x.2) <$> tips T [].

(** The names of all nodes of [t], in postorder. *)
Fixpoint node_names (t : tree) : list (option string) :=
  match t with
  | Node nm _ cs => mjoin (node_names <$> cs) ++ [nm]
  end.

(** Every node of [t] has a branch length. *)
Fixpoint measured (t : tree) : bool :=
  match t with
  | Node _ l cs => bool_decide (is_Some l) && forallb measured cs
  end.

(** The names that are present, those that are not [None], in postorder. *)
Definition present_names (t : tree) : list string := omap id (node_names t).

(** [restore_node_order] seen from the target: the children of [t] picked
    and ordered after those of [s], and each of them treated in the same way
    after its namesake.  The exceptions come in the order of the loop. *)
Definition align_children (align : tree -> tree -> result tree)
  : list tree -> list tree -> result (list tree) :=
  fix go ss ks :=
    match ss, ks with
    | s :: ss', k :: ks' => k' ← align s k; r ← go ss' ks'; Ok (k' :: r)
    | _, _ => Ok []
    end.

Fixpoint align (s t : tree) : result tree :=
  match s with
  | Node _ _ [] => Ok t
  | Node None _ _ => Err MissingLabel
  | Node (Some label) _ ss =>
      if bool_decide (label = "") then Err MissingLabel
      else
        kids ← reorder_children ss (children t);
        kids' ← align_children align ss kids;
        Ok (set_children kids' t)
  end.

(** [t'] is [t] with some nodes renamed: same shape, same lengths, and the
    old and the new name of every node are related by [P]. *)
Inductive renamed (P : option string -> option string -> Prop)
  : tree -> tree -> Prop :=
| renamed_node nm nm' l cs cs' :
    P nm nm' -> Forall2 (renamed P) cs cs' ->
    renamed P (Node nm l cs) (Node nm' l cs').

(** ** Directional copy, Solution I of the notebook

    The first [walk_copy] of the notebook, kept there under
    [%%script false]: one branch per position of the node and per kind of
    tree.  Its locals [other_children] and [other_siblings] are never read
    and are left out. *)
Fixpoint walk_copy1_rec (fuel : nat) (T : tree) (node src : option addr)
  : result tree :=
  match fuel with
  | 0 => Err RecursionError
  | S fuel =>
      (* create a new node *)
      p ← or_raise AttributeError node;
      n ← or_raise AttributeError (node_at T p);
      let parent := parent p in
      let children := children_of T p in
      let siblings := siblings T p in
      let walk x := walk_copy1_rec fuel T (Some x) node in
      let others := filter (fun x => Some x <> src) children in
      (* node is root *)
      if is_root p then
        (* rooted tree *)
        if bool_decide (length children = 2)
        then Err CannotWalkFromRootOfRootedTree
        (* unrooted tree *)
        else if bool_decide (src ∈ Some <$> children)
        then kids ← mapM walk others;
             mret (Node (name n) (src_length T src) kids)
        else Err NotNeighbors
      (* node is basal *)
      else if is_root (default [] parent) then
        (* rooted tree *)
        if bool_decide (length (children_of T (default [] parent)) = 2) then
          if bool_decide (src ∈ Some <$> siblings)
          then len ← add_lengths (branch_length n) (src_length T src);
               kids ← mapM walk children;
               mret (Node (name n) len kids)
          else if bool_decide (src ∈ Some <$> children)
          then kids ← mapM walk others;
               s ← or_raise IndexError (head siblings);
               k ← walk s;
               mret (Node (name n) (src_length T src) (kids ++ [k]))
          else Err NotNeighbors
        (* unrooted tree *)
        else
          if bool_decide (src = parent)
          then kids ← mapM walk children;
               mret (Node (name n) (branch_length n) kids)
          else if bool_decide (src ∈ Some <$> children)
          then kids ← mapM walk others;
               k ← walk_copy1_rec fuel T parent node;
               mret (Node (name n) (src_length T src) (kids ++ [k]))
          else Err NotNeighbors
      (* node is derived *)
      else
        if bool_decide (src = parent)
        then kids ← mapM walk children;
             mret (Node (name n) (branch_length n) kids)
        else if bool_decide (src ∈ Some <$> children)
        then kids ← mapM walk others;
             k ← walk_copy1_rec fuel T parent node;
             mret (Node (name n) (src_length T src) (kids ++ [k]))
        else Err NotNeighbors
  end.

Definition walk_copy1 (T : tree) (node src : option addr) : result tree :=
  walk_copy1_rec (budget T) T node src.

End tree.

Arguments tree R : clear implicits.

(** The length of a branch, a missing one counting for nothing, and the
    sum of the lengths of all branches below a node, in exact arithmetic. *)
Definition length_or_zero (t : tree Qc) : Qc :=
  from_option id 0%Qc (branch_length t).

Fixpoint total_length (t : tree Qc) : Qc :=
  match t with
  | Node _ _ cs =>
      foldr (fun c acc => (length_or_zero c + total_length c + acc)%Qc) 0%Qc cs
  end.

(** The sum over the children of a node. *)
Definition sum_below (cs : list (tree Qc)) : Qc :=
  foldr (fun c acc => (length_or_zero c + total_length c + acc)%Qc) 0%Qc cs.

(** ** The trees of the notebook's tests *)

Module Golden.

Definition tip (s : string) (l : float) : tree float := Node (Some s) (Some l) [].
Definition clade (cs : list (tree float)) (s : string) (l : float) : tree float :=
  Node (Some s) (Some l) cs.

(** [(((a:1.0,b:0.8)c:2.4,(d:0.8,e:0.6)f:1.2)g:0.4,(h:0.5,i:0.7)j:1.8)k;] *)
Definition rooted : tree float :=
  Node (Some "k") None
    [ clade [ clade [tip "a" 1.0; tip "b" 0.8] "c" 2.4;
              clade [tip "d" 0.8; tip "e" 0.6] "f" 1.2 ] "g" 0.4;
      clade [tip "h" 0.5; tip "i" 0.7] "j" 1.8 ].

(** [((a:1.0,b:0.8)c:1.2,((d:0.8,e:0.6)f:1.2,(h:0.5,i:0.7)j:2.2)g:1.2);] *)
Definition rooted_above_c : tree float :=
  Node None None
    [ clade [tip "a" 1.0; tip "b" 0.8] "c" 1.2;
      clade [ clade [tip "d" 0.8; tip "e" 0.6] "f" 1.2;
              clade [tip "h" 0.5; tip "i" 0.7] "j" 2.2 ] "g" 1.2 ].

End Golden.

(** Small trees for the examples below; every branch has length 1. *)
Module Ex.

Definition tip (s : string) : tree float := Node (Some s) (Some 1%float) [].
Definition clade (s : string) (cs : list (tree float)) : tree float :=
  Node (Some s) (Some 1%float) cs.
Definition join (cs : list (tree float)) : tree float :=
  Node None (Some 1%float) cs.
Definition apex (s : option string) (cs : list (tree float)) : tree float :=
  Node s None cs.

(** [((a,b)x,(c,d,e)y)r;] *)
Definition src : tree float :=
  apex (Some "r") [clade "x" [tip "a"; tip "b"];
                   clade "y" [tip "c"; tip "d"; tip "e"]].

(** [((c,d)x,(a,b)y)r;]: two basal clades of the same size. *)
Definition src_tie : tree float :=
  apex (Some "r") [clade "x" [tip "c"; tip "d"]; clade "y" [tip "a"; tip "b"]].

(** [((a,b),c,d);] *)
Definition trg_tie : tree float :=
  apex None [join [tip "a"; tip "b"]; tip "c"; tip "d"].

(** [(a,b,(c,(d,e)));]: the apex separates [a] from [b]. *)
Definition trg_split : tree float :=
  apex None [tip "a"; tip "b"; join [tip "c"; join [tip "d"; tip "e"]]].

(** [((a,b),c,(d,e));]: [a] and [b] form a clade below the apex. *)
Definition trg_good : tree float :=
  apex None [join [tip "a"; tip "b"]; tip "c"; join [tip "d"; tip "e"]].

(** [(a,b,c,(d,e));]: the apex separates [a] from [b], and [c] hangs on it. *)
Definition trg_flat : tree float :=
  apex None [tip "a"; tip "b"; tip "c"; join [tip "d"; tip "e"]].

(** [(((a,c),b),d,e);]: [a] and [b] are together only with [c]. *)
Definition trg_other : tree float :=
  apex None [join [join [tip "a"; tip "c"]; tip "b"]; tip "d"; tip "e"].

(** [((p,q)x,s)r;] and [(s,extra,(q,(u,v)junk,p)x)r;]: the target has more
    children than the source at [r] and at [x]. *)
Definition src_few : tree float :=
  apex (Some "r") [clade "x" [tip "p"; tip "q"]; tip "s"].

Definition trg_more : tree float :=
  apex (Some "r")
    [tip "s"; tip "extra";
     clade "x" [tip "q"; clade "junk" [tip "u"; tip "v"]; tip "p"]].

(** [((p,q)x,(s)w)r;] and [(((s,(q,p)x)w)x,(z)w)r;]: in the target two
    internal nodes are named [x] and two are named [w]. *)
Definition src_dup : tree float :=
  apex (Some "r") [clade "x" [tip "p"; tip "q"]; clade "w" [tip "s"]].

Definition trg_dup : tree float :=
  apex (Some "r")
    [clade "x" [clade "w" [tip "s"; clade "x" [tip "q"; tip "p"]]];
     clade "w" [tip "z"]].

(** [(((s)w)x,(z)w)r;] *)
Definition res_dup : tree float :=
  apex (Some "r") [clade "x" [clade "w" [tip "s"]]; clade "w" [tip "z"]].

(** A tree with exact lengths: [((a:1,b:1):1,c:1,d:1);] *)
Definition exact : tree Qc :=
  Node None None
    [ Node None (Some 1%Qc) [Node (Some "a") (Some 1%Qc) [];
                             Node (Some "b") (Some 1%Qc) []];
      Node (Some "c") (Some 1%Qc) [];
      Node (Some "d") (Some 1%Qc) [] ].

(** [(c,(a,b)x)r;], with a single tip on one side of the root, and
    [(a,b,c);] *)
Definition src_tip : tree float :=
  apex (Some "r") [tip "c"; clade "x" [tip "a"; tip "b"]].

Definition trg_three : tree float :=
  apex None [tip "a"; tip "b"; tip "c"].

(** [((a,b)x,c,(d,e))r;]: [trg_good] under the labels of [src]. *)
Definition trg_labelled : tree float :=
  apex (Some "r") [clade "x" [tip "a"; tip "b"]; tip "c";
                   join [tip "d"; tip "e"]].

(** [((u),(e,d,c,(v))y,(b,a)x)r;]: the nodes of [src] in another order,
    and two more nodes that have no name, each over one tip. *)
Definition trg_many : tree float :=
  apex (Some "r")
    [join [tip "u"];
     clade "y" [tip "e"; tip "d"; tip "c"; join [tip "v"]];
     clade "x" [tip "b"; tip "a"]].

(** [((a,b),(c,d,e)z);]: [src] under other labels. *)
Definition src_relabelled : tree float :=
  apex None [join [tip "a"; tip "b"]; clade "z" [tip "c"; tip "d"; tip "e"]].

(** [((e,c,d)y,(b,a)x)r;]: [src] with its children in another order. *)
Definition src_shuffled : tree float :=
  apex (Some "r") [clade "y" [tip "e"; tip "c"; tip "d"];
                   clade "x" [tip "b"; tip "a"]].

(** [((a,b)x,(c,d,e)y);]: [src] without a label on its apex. *)
Definition src_unnamed : tree float :=
  apex None [clade "x" [tip "a"; tip "b"];
             clade "y" [tip "c"; tip "d"; tip "e"]].

(** [((e,c,d)q,(b,a))p;]: [src] with its children in another order and its
    internal nodes under other names. *)
Definition src_scrambled : tree float :=
  apex (Some "p") [clade "q" [tip "e"; tip "c"; tip "d"];
                   join [tip "b"; tip "a"]].

(** [((b,a)q:2,c,d,e);]: [src] without its root, the outgroup hanging on
    the root of the ingroup on a branch of length 2. *)
Definition trg_unrooted : tree float :=
  apex None [Node (Some "q") (Some 2%float) [tip "b"; tip "a"];
             tip "c"; tip "d"; tip "e"].

End Ex.

(** ** The specification's wording, for comparison with the code *)

Section spec_wording.
Context {R : Type} `{LengthOps R}.

(** The least of the tip names of a clade. *)
Definition smallest_tip_name (c : tree R) : option string :=
  foldr (fun s acc => match acc with
                      | Some m => if String.ltb s m then Some s else Some m
                      | None => Some s
                      end)
        None (omap (fun x => name x.2) (tips c [])).

(** Section 4.3, step 2, as the specification words it: the clade with
    fewer tips, and on equal counts the clade whose lexicographically
    smallest tip name is smaller. *)
Definition spec_outgroup_clade (src : tree R) : result (tree R) :=
  match children src with
  | [c1; c2] =>
      if (count_tips c1 <? count_tips c2)%nat then Ok c1
      else if (count_tips c2 <? count_tips c1)%nat then Ok c2
      else match smallest_tip_name c1, smallest_tip_name c2 with
           | Some m1, Some m2 => if String.ltb m2 m1 then Ok c2 else Ok c1
           | _, _ => Ok c1
           end
  | _ => Err SourceNotRooted
  end.

(** Section 4.3, step 4, as the specification words it: [rootAbove] on the
    parent of a tip that is not in the outgroup. *)
Definition spec_swap_tree (res : tree R) (outgroup : gset (option string))
  : result (tree R) :=
  match list_find (fun x => name x.2 ∉ outgroup) (tips res []) with
  | Some (_, (tip, _)) => root_above res (default [] (parent tip)) None
  | None => Ok res
  end.

End spec_wording.

(** ** Notions used to state further properties of the restorers *)

Section relabel_defs.
Context {R : Type} `{LengthOps R}.

(** The label that the inner loop of [restore_node_labels] finds for a
    node: the first key of [label2taxa] whose taxa are the tips of the
    node. *)
Definition label_for (l2t : list (string * gset (option string)))
    (n : tree R) : option string :=
  (fun x => x.2.1) <$> list_find (fun x => x.2 = tip_names n) l2t.

(** The outer loop seen from the tree: every internal node takes the label
    found for it, if any. *)
Fixpoint relabel (l2t : list (string * gset (option string))) (t : tree R)
  : tree R :=
  match t with
  | Node nm l [] => Node nm l []
  | Node nm l cs =>
      Node (match label_for l2t t with Some label => Some label | None => nm end)
           l (relabel l2t <$> cs)
  end.

(** The internal nodes that carry a non-empty label, in postorder, each
    with its label. *)
Definition labelled_nodes (T : tree R) : list (string * tree R) :=
  omap (fun x => label ← label_of x.2; Some (label, x.2)) (non_tips T []).

Local Unset Elimination Schemes.

(** [t] is [s] but for the names of its internal nodes. *)
Inductive relabelled : tree R -> tree R -> Prop :=
| relabelled_tip nm l : relabelled (Node nm l []) (Node nm l [])
| relabelled_node nm nm' l c cs cs' :
    Forall2 relabelled (c :: cs) cs' ->
    relabelled (Node nm l (c :: cs)) (Node nm' l cs').

End relabel_defs.

Section order_defs.
Context {R : Type}.
Local Unset Elimination Schemes.

(** [t'] is [t] with the children of every node put in some other order. *)
Inductive shuffled : tree R -> tree R -> Prop :=
| shuffled_node nm l cs ks cs' :
    cs ≡ₚ ks -> Forall2 shuffled ks cs' ->
    shuffled (Node nm l cs) (Node nm l cs').

(** [t] has the names of [s], node by node and in the same order; the
    lengths may differ. *)
Inductive same_names : tree R -> tree R -> Prop :=
| same_names_node nm l l' cs cs' :
    Forall2 same_names cs cs' ->
    same_names (Node nm l cs) (Node nm l' cs').

End order_defs.

(** ** The application cells of the notebook *)

(** The exceptions of the cell that verifies the labels of the original
    tree. *)
Inductive label_error :=
| NoLabel                           (* ValueError('Some internal nodes do not have labels.') *)
| DuplicatedLabel (label : string). (* ValueError('Duplicated label found: %s.') *)

Section application.
Context {R : Type} `{LengthOps R}.

(** [self.non_tips()]: the internal nodes below [n] in postorder, [n]
    itself left out ([include_self=False]). *)
Definition non_tips_below (n : tree R) (p : addr) : list (addr * tree R) :=
  filter (fun x => is_tip x.2 = false /\ x.1 <> p) (postorder n p).

(** The loop "Verify that internal node labels are present and unique":
    the set [labels] at the end, or the exception raised. *)
Fixpoint check_labels_from (labels : gset string)
    (nodes : list (addr * tree R)) : label_error + gset string :=
  match nodes with
  | [] => inr labels
  | node :: rest =>
      match name node.2 with
      | None => inl NoLabel
      | Some label =>
          if bool_decide (label = "") then inl NoLabel
          else if bool_decide (label ∈ labels) then inl (DuplicatedLabel label)
          else check_labels_from (labels ∪ {[label]}) rest
      end
  end.

Definition check_labels (tori : tree R) : label_error + gset string :=
  check_labels_from ∅ (non_tips_below tori []).

(** The three steps of the application, in the order of the notebook:
    [tout = restore_rooting(tori, tres)],
    [tout2 = restore_node_labels(tori, tout)],
    [tout3 = restore_node_order(tori, tout2)]. *)
Definition restore_all (tori tres : tree R) : result (tree R) :=
  tout ← restore_rooting tori tres;
  tout2 ← restore_node_labels tori tout;
  restore_node_order tori tout2.

End application.

Section scrambled_defs.
Context {R : Type}.
Local Unset Elimination Schemes.

(** [t] is [u] with the children of every node put in some other order and
    the internal nodes under other names; tips and lengths are kept. *)
Inductive scrambled : tree R -> tree R -> Prop :=
| scrambled_tip nm l : scrambled (Node nm l []) (Node nm l [])
| scrambled_node nm nm' l c cs ks ts :
    ks ≡ₚ ts -> Forall2 scrambled (c :: cs) ks ->
    scrambled (Node nm l (c :: cs)) (Node nm' l ts).

End scrambled_defs.

Section unrooted_defs.
Context {R : Type} `{LengthOps R}.

(** What scikit-bio's [unrooted_copy] makes of the node at [q] when it comes
    up from its child [c]: the node takes the name and the length of that
    child, keeps its other children, and is followed by what lies above
    it. *)
Fixpoint unrooted_up (T : tree R) (q : addr) (c : nat) : option (tree R) :=
  n ← node_at T q;
  s ← children n !! c;
  match q with
  | [] => Some (Node (name s) (branch_length s) (delete c (children n)))
  | i :: q' =>
      rest ← unrooted_up T q' i;
      Some (Node (name s) (branch_length s) (delete c (children n) ++ [rest]))
  end.

End unrooted_defs.

Section located_defs.
Context {R : Type} `{LengthOps R}.

(** For a target [trg] and the tip names [xs] of the outgroup: the tree [T]
    that [restore_rooting] reroots and the place [a] of the node [n] that
    it reroots above, with what the rerooting needs. *)
Definition located (trg : tree R) (xs : list (option string))
    (T : tree R) (a : addr) (n : tree R) : Prop :=
  locate_outgroup trg (list_to_set xs) = Ok (T, a)
  /\ node_at T a = Some n /\ a <> []
  /\ clade_tip_list T ≡ₚ clade_tip_list trg
  /\ (forall x, x ∈ clade_tip_list n <-> x ∈ xs)
  /\ Forall (fun c => measured c = true) (children T)
  /\ (length a = 1 -> length (children T) <> 2)
  /\ length (children T) <> 1.

End located_defs.

(** ** Notions used to reason about the marks of [lca] *)

(** [v] is strictly above [f]. *)
Definition above (v f : addr) : Prop := exists a i, f = a ++ i :: v.

(** How often [x] is in [l]. *)
Definition occurrences (x : addr) (l : list addr) : nat :=
  length (filter (fun y => y = x) l).

(** 1 when [v] has the attribute [black], else 0. *)
Definition marked (B : gmap addr (list addr)) (v : addr) : nat :=
  match B !! v with Some _ => 1 | None => 0 end.

(** The marks after the walks from the nodes of [F]: a node is marked when
    some node of [F] is strictly below it, its list holds children of it
    only, and a child is in the list once for each time it is in [F] and
    once more when it is marked itself. *)
Record marks_of (B : gmap addr (list addr)) (F : list addr) : Prop := {
  marks_dom : forall v, is_Some (B !! v) <-> exists f, f ∈ F /\ above v f;
  marks_children : forall v l x, B !! v = Some l -> x ∈ l -> exists i, x = i :: v;
  marks_count : forall v l i,
    B !! v = Some l ->
    occurrences (i :: v) l = occurrences (i :: v) F + marked B (i :: v)
}.

(** * Properties *)

#[local] Arguments children_of : simpl never.
#[local] Arguments siblings : simpl never.
#[local] Arguments walk_copy_rec : simpl never.
#[local] Arguments unrooted_copy_rec : simpl never.

Section walks.
Context {R : Type} `{LengthOps R}.
Implicit Types (T n : tree R) (p q : addr).

(** ** Addresses *)

Lemma children_of_length T p n :
  node_at T p = Some n -> length (children_of T p) = length (children n).
Proof.
  intros Hn. unfold children_of. rewrite Hn.
  by rewrite length_fmap, length_seq.
Qed.

Lemma children_of_apex T : length (children_of T []) = length (children T).
Proof. by apply children_of_length. Qed.

Lemma elem_of_children_of T p n a :
  node_at T p = Some n ->
  a ∈ children_of T p <-> exists i, a = i :: p /\ i < length (children n).
Proof.
  intros Hn. unfold children_of. rewrite Hn, list_elem_of_fmap.
  split.
  - intros (i & -> & Hi). exists i. split; [done|].
    apply elem_of_seq in Hi. lia.
  - intros (i & -> & Hi). exists i. split; [done|].
    apply elem_of_seq. lia.
Qed.

Lemma node_at_child_lt T p i c :
  node_at T (i :: p) = Some c ->
  exists n, node_at T p = Some n /\ children n !! i = Some c.
Proof.
  simpl. destruct (node_at T p) as [n|]; [|done].
  simpl. intros Hc. by exists n.
Qed.

Lemma addr_cons_ne (i : nat) p : i :: p <> p.
Proof.
  intros Heq. apply (f_equal length) in Heq. simpl in Heq. lia.
Qed.

Lemma height_pos T : exists h, height T = S h.
Proof. destruct T. simpl. eauto. Qed.

Lemma budget_pos T : exists f, budget T = S f.
Proof.
  unfold budget. destruct (height_pos T) as [h ->]. simpl. eauto.
Qed.

Lemma height_child n c i :
  children n !! i = Some c -> S (height c) <= height n.
Proof.
  destruct n as [nm l cs]. simpl. intros Hc.
  apply le_n_S. revert i Hc. induction cs as [|x cs IH]; intros i Hc.
  - done.
  - destruct i as [|i]; simpl in *.
    + injection Hc as ->. lia.
    + specialize (IH _ Hc). lia.
Qed.

Lemma height_node_at T p n :
  node_at T p = Some n -> length p + height n <= height T.
Proof.
  revert n. induction p as [|i p IH]; intros n Hn.
  - simpl in Hn. injection Hn as ->. simpl. lia.
  - apply node_at_child_lt in Hn as (m & Hm & Hc).
    specialize (IH _ Hm). apply height_child in Hc. simpl. lia.
Qed.

(** ** One step of [walk_copy] *)

Lemma walk_copy_rec_S fuel T node src :
  walk_copy_rec (S fuel) T node src =
    (p ← or_raise AttributeError node;
     n ← or_raise AttributeError (node_at T p);
     let parent := parent p in
     let children := children_of T p in
     let pos := if is_root p then Root
                else if is_root (default [] parent) then Basal
                else Derived in
     let rooted :=
       match pos with
       | Root => Some (bool_decide (length children = 2))
       | Basal =>
           Some (bool_decide (length (children_of T (default [] parent)) = 2))
       | Derived => None
       end in
     if truthy rooted && bool_decide (pos = Root)
     then Err CannotWalkFromRootOfRootedTree
     else
       sibling ← (if truthy rooted && bool_decide (pos = Basal)
                  then s ← or_raise IndexError (head (siblings T p));
                       mret (Some s)
                  else mret None);
       let mv :=
         if truthy rooted && bool_decide (pos = Basal)
         then (if bool_decide (src = sibling) then Bottom
               else if bool_decide (src ∈ Some <$> children) then Top
               else NA)
         else (if bool_decide (src = parent) then Down
               else if bool_decide (src ∈ Some <$> children) then Up
               else NA) in
       if bool_decide (mv = NA) then Err NotNeighbors
       else
         let src_length := s ← src; m ← node_at T s; branch_length m in
         len ← match mv with
               | Down => Ok (branch_length n)
               | Bottom => add_lengths src_length (branch_length n)
               | _ => Ok src_length
               end;
         kids ← mapM (fun c => walk_copy_rec fuel T (Some c) node)
                     (filter (fun c => Some c <> src) children);
         up ← (if bool_decide (mv = Up) && negb (bool_decide (pos = Root))
               then k ← walk_copy_rec fuel T parent node; mret [k]
               else mret []);
         top ← (if bool_decide (mv = Top)
                then k ← walk_copy_rec fuel T sibling node; mret [k]
                else mret []);
         mret (Node (name n) len (kids ++ up ++ top))).
Proof. reflexivity. Qed.

Lemma bind_Ok {A B} (a : A) (f : A -> result B) : (Ok a ≫= f) = f a.
Proof. reflexivity. Qed.

Lemma bind_Err {A B} e (f : A -> result B) : (Err e ≫= f) = Err e.
Proof. reflexivity. Qed.

Lemma ret_Ok {A} (a : A) : mret a = Ok a.
Proof. reflexivity. Qed.

Lemma mapM_nil {A B} (f : A -> result B) : mapM f [] = Ok [].
Proof. reflexivity. Qed.

Lemma mapM_cons {A B} (f : A -> result B) x l :
  mapM f (x :: l) = (y ← f x; k ← mapM f l; mret (y :: k)).
Proof. reflexivity. Qed.

Lemma mapM_children_from {B} (f : addr -> result B) p src (cs : list B) k :
  (forall j, Some (j :: p) <> src) ->
  (forall j x, cs !! j = Some x -> f ((k + j) :: p) = Ok x) ->
  mapM f (filter (fun a => Some a <> src)
            ((fun i => i :: p) <$> seq k (length cs))) = Ok cs.
Proof.
  intros Hsrc. revert k. induction cs as [|x cs IH]; intros k Hf.
  - done.
  - cbn [length seq]. rewrite fmap_cons, filter_cons_True by apply Hsrc.
    rewrite mapM_cons.
    specialize (Hf 0 x eq_refl) as Hx. rewrite Nat.add_0_r in Hx.
    rewrite Hx, bind_Ok, (IH (S k)); [done|].
    intros j y Hy. specialize (Hf (S j) y Hy).
    by rewrite Nat.add_succ_r in Hf.
Qed.

Lemma mapM_children_except_from {B} (f : addr -> result B) p c (cs : list B) k :
  (forall j x, cs !! j = Some x -> k + j <> c -> f ((k + j) :: p) = Ok x) ->
  mapM f (filter (fun a => Some a <> Some (c :: p))
            ((fun i => i :: p) <$> seq k (length cs)))
  = Ok (if decide (c < k) then cs else delete (c - k) cs).
Proof.
  revert k. induction cs as [|x cs IH]; intros k Hf.
  - cbn. by destruct (decide (c < k)).
  - cbn [length seq]. rewrite fmap_cons, filter_cons.
    assert (Hrest : forall j y, cs !! j = Some y -> S k + j <> c ->
                      f ((S k + j) :: p) = Ok y).
    { intros j y Hy Hne. specialize (Hf (S j) y Hy).
      rewrite Nat.add_succ_r in Hf. apply Hf. lia. }
    specialize (IH (S k) Hrest).
    destruct (decide (Some (k :: p) <> Some (c :: p))) as [Hne|Heq].
    + assert (k <> c) by congruence.
      rewrite mapM_cons.
      specialize (Hf 0 x eq_refl) as Hx. rewrite Nat.add_0_r in Hx.
      rewrite Hx, bind_Ok, IH, bind_Ok, ret_Ok by done.
      destruct (decide (c < S k)), (decide (c < k)); try lia; try done.
      replace (c - k) with (S (c - S k)) by lia. done.
    + assert (k = c) as ->.
      { destruct (decide (k = c)); [done|]. exfalso; apply Heq; congruence. }
      rewrite IH.
      rewrite decide_True by lia. rewrite decide_False by lia.
      by rewrite Nat.sub_diag.
Qed.

Lemma node_at_cons T i p :
  node_at T (i :: p) = (n ← node_at T p; children n !! i).
Proof. reflexivity. Qed.

Lemma children_of_eq T p n :
  node_at T p = Some n ->
  children_of T p = (fun i => i :: p) <$> seq 0 (length (children n)).
Proof. intros Hn. unfold children_of. by rewrite Hn. Qed.

Lemma src_child T p n (c : nat) :
  node_at T p = Some n ->
  Some (c :: p) ∈ Some <$> children_of T p <-> c < length (children n).
Proof.
  intros Hn. rewrite list_elem_of_fmap. split.
  - intros (a & [= <-] & Ha).
    destruct (proj1 (elem_of_children_of T p n _ Hn) Ha) as (i & [= ->] & Hi).
    done.
  - intros Hc. exists (c :: p). split; [done|].
    apply (elem_of_children_of _ _ _ _ Hn). eauto.
Qed.

Lemma src_not_child T p src :
  (forall j, Some (j :: p) <> src) -> src ∉ Some <$> children_of T p.
Proof.
  intros Hsrc (a & -> & Ha)%list_elem_of_fmap.
  destruct (node_at T p) as [n|] eqn:Hn.
  - destruct (proj1 (elem_of_children_of T p n a Hn) Ha) as (i & Heq & _).
    apply (Hsrc i). by rewrite Heq.
  - unfold children_of in Ha. rewrite Hn in Ha. by apply elem_of_nil in Ha.
Qed.



(** Decide a test of a step and rewrite every [bool_decide] of it. *)
Ltac decide_test P :=
  destruct (decide P);
  [ repeat (rewrite (bool_decide_eq_true_2 P) by done)
  | repeat (rewrite (bool_decide_eq_false_2 P) by done) ].

Ltac fold_walks fuel T p src :=
  repeat match goal with
    | |- context [mapM ?f ?l] =>
        change (mapM f l) with (walk_kids fuel T p src)
    | |- context [@mbind option ?a ?b ?c ?f src] =>
        change (@mbind option a b c f src) with (src_length T src)
    end.

Ltac step_done :=
  cbn [truthy default from_option id andb negb];
  rewrite ?ret_Ok, ?bind_Ok;
  repeat match goal with
    | |- context [bool_decide (?x = ?y)] =>
        first [ rewrite (bool_decide_eq_true_2 (x = y)) by done
              | rewrite (bool_decide_eq_false_2 (x = y)) by done ]
    end;
  cbn [negb andb];
  repeat match goal with
    | |- context [add_lengths ?a ?b] =>
        destruct (add_lengths a b); cbn [mbind result_bind mret result_ret app]
    | |- context [walk_kids ?f ?T ?p ?s] =>
        destruct (walk_kids f T p s); cbn [mbind result_bind mret result_ret app]
    | |- context [walk_copy_rec ?f ?T ?p ?s] =>
        destruct (walk_copy_rec f T p s); cbn [mbind result_bind mret result_ret app]
    end;
  rewrite ?app_nil_r;
  try reflexivity.

Lemma walk_copy_rec_apex fuel T src :
  walk_copy_rec (S fuel) T (Some []) src =
    if bool_decide (length (children T) = 2)
    then Err CannotWalkFromRootOfRootedTree
    else if bool_decide (src = None)
    then ks ← walk_kids fuel T [] src;
         Ok (Node (name T) (branch_length T) ks)
    else if bool_decide (src ∈ Some <$> children_of T [])
    then ks ← walk_kids fuel T [] src;
         Ok (Node (name T) (src_length T src) ks)
    else Err NotNeighbors.
Proof.
  rewrite walk_copy_rec_S.
  cbn [or_raise]. rewrite bind_Ok. cbn [or_raise node_at]. rewrite bind_Ok.
  cbn [is_root parent default from_option id]. cbn zeta.
  rewrite children_of_apex. fold_walks fuel T (@nil nat) src.
  decide_test (length (children T) = 2); [step_done|].
  decide_test (src = None); [step_done|].
  decide_test (src ∈ Some <$> children_of T []); step_done.
Qed.

Lemma walk_copy_rec_basal fuel T i n src :
  node_at T [i] = Some n ->
  walk_copy_rec (S fuel) T (Some [i]) src =
    if bool_decide (length (children T) = 2)
    then
      s ← or_raise IndexError (head (siblings T [i]));
      if bool_decide (src = Some s)
      then len ← add_lengths (src_length T src) (branch_length n);
           ks ← walk_kids fuel T [i] src;
           Ok (Node (name n) len ks)
      else if bool_decide (src ∈ Some <$> children_of T [i])
      then ks ← walk_kids fuel T [i] src;
           k ← walk_copy_rec fuel T (Some s) (Some [i]);
           Ok (Node (name n) (src_length T src) (ks ++ [k]))
      else Err NotNeighbors
    else if bool_decide (src = Some [])
    then ks ← walk_kids fuel T [i] src;
         Ok (Node (name n) (branch_length n) ks)
    else if bool_decide (src ∈ Some <$> children_of T [i])
    then ks ← walk_kids fuel T [i] src;
         k ← walk_copy_rec fuel T (Some []) (Some [i]);
         Ok (Node (name n) (src_length T src) (ks ++ [k]))
    else Err NotNeighbors.
Proof.
  intros Hn.
  rewrite walk_copy_rec_S.
  cbn [or_raise]. rewrite bind_Ok, Hn. cbn [or_raise]. rewrite bind_Ok.
  cbn [is_root parent default from_option id]. cbn zeta.
  rewrite children_of_apex. fold_walks fuel T [i] src.
  decide_test (length (children T) = 2).
  - cbn [truthy default from_option id andb].
    rewrite (bool_decide_eq_true_2 (Basal = Basal)) by done.
    destruct (head (siblings T [i])) as [s|]; cbn [or_raise]; [|done].
    rewrite ?bind_Ok, ?ret_Ok, ?bind_Ok.
    decide_test (src = Some s); [step_done|].
    decide_test (src ∈ Some <$> children_of T [i]); step_done.
  - decide_test (src = Some []); [step_done|].
    decide_test (src ∈ Some <$> children_of T [i]); step_done.
Qed.

Lemma walk_copy_rec_derived fuel T i j q n src :
  node_at T (i :: j :: q) = Some n ->
  walk_copy_rec (S fuel) T (Some (i :: j :: q)) src =
    if bool_decide (src = Some (j :: q))
    then ks ← walk_kids fuel T (i :: j :: q) src;
         Ok (Node (name n) (branch_length n) ks)
    else if bool_decide (src ∈ Some <$> children_of T (i :: j :: q))
    then ks ← walk_kids fuel T (i :: j :: q) src;
         k ← walk_copy_rec fuel T (Some (j :: q)) (Some (i :: j :: q));
         Ok (Node (name n) (src_length T src) (ks ++ [k]))
    else Err NotNeighbors.
Proof.
  intros Hn.
  rewrite walk_copy_rec_S.
  cbn [or_raise]. rewrite bind_Ok, Hn. cbn [or_raise]. rewrite bind_Ok.
  cbn [is_root parent default from_option id]. cbn zeta.
  fold_walks fuel T (i :: j :: q) src.
  decide_test (src = Some (j :: q)); [step_done|].
  decide_test (src ∈ Some <$> children_of T (i :: j :: q)); step_done.
Qed.

Lemma walk_kids_all fuel T p n src :
  node_at T p = Some n ->
  (forall j, Some (j :: p) <> src) ->
  (forall j x, children n !! j = Some x ->
     walk_copy_rec fuel T (Some (j :: p)) (Some p) = Ok x) ->
  walk_kids fuel T p src = Ok (children n).
Proof.
  intros Hn Hsrc Hwalk. unfold walk_kids.
  rewrite (children_of_eq _ _ _ Hn).
  by apply mapM_children_from with (k := 0).
Qed.

Lemma walk_kids_except fuel T p n c :
  node_at T p = Some n ->
  (forall j x, children n !! j = Some x -> j <> c ->
     walk_copy_rec fuel T (Some (j :: p)) (Some p) = Ok x) ->
  walk_kids fuel T p (Some (c :: p)) = Ok (delete c (children n)).
Proof.
  intros Hn Hwalk. unfold walk_kids.
  rewrite (children_of_eq _ _ _ Hn).
  rewrite (mapM_children_except_from _ p c (children n) 0) by done.
  rewrite decide_False by lia. by rewrite Nat.sub_0_r.
Qed.

(** Walking down from the parent copies the clade as it is. *)
Lemma walk_down n : forall fuel T p,
  node_at T p = Some n -> p <> [] ->
  (length p = 1 -> length (children T) <> 2) ->
  height n <= fuel ->
  walk_copy_rec fuel T (Some p) (parent p) = Ok n.
Proof.
  induction n as [nm l cs IH] using tree_ind.
  intros fuel T p Hn Hp Hun Hfuel.
  destruct fuel as [|fuel]; [simpl in Hfuel; lia|].
  assert (Hkids : walk_kids fuel T p (parent p) = Ok cs).
  { apply (walk_kids_all _ _ _ _ _ Hn).
    - intros j. destruct p as [|i q]; [done|]. cbn [parent].
      intros [= Hj]. apply (f_equal length) in Hj. simpl in Hj. lia.
    - intros j x Hx. cbn [children] in Hx.
      rewrite Forall_lookup in IH. specialize (IH j x Hx).
      apply (IH fuel T (j :: p)).
      + rewrite node_at_cons, Hn. done.
      + done.
      + destruct p; [done|]. cbn. lia.
      + pose proof (height_child (Node nm l cs) x j Hx) as Hh. lia. }
  destruct p as [|i [|j q]]; [done| |].
  - rewrite (walk_copy_rec_basal _ _ _ _ _ Hn).
    rewrite bool_decide_eq_false_2 by (apply Hun; done).
    cbn [parent] in *. rewrite bool_decide_eq_true_2 by done.
    rewrite Hkids. done.
  - rewrite (walk_copy_rec_derived _ _ _ _ _ _ _ Hn).
    cbn [parent] in *. rewrite bool_decide_eq_true_2 by done.
    rewrite Hkids. done.
Qed.

Lemma walk_child_down fuel T p n j x :
  node_at T p = Some n -> children n !! j = Some x ->
  (p = [] -> length (children T) <> 2) ->
  height x <= fuel ->
  walk_copy_rec fuel T (Some (j :: p)) (Some p) = Ok x.
Proof.
  intros Hn Hx Hun Hfuel.
  apply (walk_down x fuel T (j :: p)); [|done| |done].
  - by rewrite node_at_cons, Hn.
  - destruct p; [auto|]. cbn. lia.
Qed.

Lemma siblings_rooted T i n :
  length (children T) = 2 -> node_at T [i] = Some n ->
  head (siblings T [i]) = Some [1 - i].
Proof.
  intros Hlen Hn. unfold siblings.
  rewrite (children_of_eq T [] T eq_refl), Hlen.
  cbn in Hn. apply lookup_lt_Some in Hn. rewrite Hlen in Hn.
  destruct i as [|[|i]]; [done|done|lia].
Qed.

(** Walking from one basal node of a rooted tree into the other one. *)
Lemma walk_bottom fuel T i r :
  length (children T) = 2 ->
  bottom_view T i = Ok r ->
  height T <= S fuel ->
  walk_copy_rec fuel T (Some [1 - i]) (Some [i]) = Ok r.
Proof.
  intros Hlen Hview Hfuel. unfold bottom_view in Hview.
  destruct (children T !! i) as [n|] eqn:Hn; [|done].
  destruct (children T !! (1 - i)) as [sib|] eqn:Hsib; [|done].
  cbn [or_raise] in Hview. rewrite !bind_Ok in Hview.
  destruct (add_lengths (branch_length n) (branch_length sib)) as [len|] eqn:Hlens;
    [|done].
  rewrite bind_Ok in Hview. injection Hview as <-.
  pose proof (height_child _ _ _ Hsib) as Hh.
  destruct fuel as [|fuel]; [destruct (height_pos sib); lia|].
  assert (Hi : i < 2) by (rewrite <- Hlen; by eapply lookup_lt_Some).
  assert (Hsib' : node_at T [1 - i] = Some sib) by done.
  rewrite (walk_copy_rec_basal _ _ _ _ _ Hsib').
  rewrite bool_decide_eq_true_2 by done.
  rewrite (siblings_rooted _ _ _ Hlen Hsib'). cbn [or_raise]. rewrite bind_Ok.
  replace (1 - (1 - i)) with i by lia.
  rewrite bool_decide_eq_true_2 by done.
  assert (Hsl : src_length T (Some [i]) = branch_length n).
  { unfold src_length. cbn. by rewrite Hn. }
  rewrite Hsl, Hlens, bind_Ok.
  rewrite (walk_kids_all _ _ _ _ _ Hsib').
  - done.
  - intros j [= Hj].
  - intros j x Hx.
    apply (walk_child_down _ _ _ _ _ _ Hsib' Hx); [done|].
    pose proof (height_child _ _ _ Hx). lia.
Qed.

(** Walking up from a child: the closed form is what the recursion returns. *)
Lemma walk_up q : forall fuel T c r,
  up_view T q c = Ok r ->
  length q + height T <= fuel ->
  walk_copy_rec fuel T (Some q) (Some (c :: q)) = Ok r.
Proof.
  induction q as [|i q IH]; intros fuel T c r Hview Hfuel.
  - destruct fuel as [|fuel]; [destruct (height_pos T); simpl in *; lia|].
    cbn [up_view node_at or_raise] in Hview. rewrite bind_Ok in Hview.
    destruct (children T !! c) as [s|] eqn:Hs; [|done].
    cbn [or_raise] in Hview. rewrite bind_Ok in Hview.
    rewrite walk_copy_rec_apex.
    destruct (bool_decide (length (children T) = 2)) eqn:Hlen; [done|].
    apply bool_decide_eq_false_1 in Hlen.
    injection Hview as <-.
    rewrite bool_decide_eq_false_2 by done.
    rewrite bool_decide_eq_true_2
      by (apply (src_child T [] T c eq_refl); by eapply lookup_lt_Some).
    rewrite (walk_kids_except fuel T [] T c eq_refl).
    + rewrite bind_Ok. unfold src_length. cbn. by rewrite Hs.
    + intros j x Hx _.
      apply (walk_child_down _ T [] T j x eq_refl Hx); [done|].
      pose proof (height_child _ _ _ Hx). simpl in Hfuel. lia.
  - destruct fuel as [|fuel]; [simpl in *; lia|].
    cbn [up_view] in Hview.
    destruct (node_at T (i :: q)) as [n|] eqn:Hn; [|done].
    cbn [or_raise] in Hview. rewrite bind_Ok in Hview.
    destruct (children n !! c) as [s|] eqn:Hs; [|done].
    cbn [or_raise] in Hview. rewrite bind_Ok in Hview.
    assert (Hsrc : Some (c :: i :: q) ∈ Some <$> children_of T (i :: q)).
    { apply (src_child T _ n c Hn). by eapply lookup_lt_Some. }
    assert (Hsl : src_length T (Some (c :: i :: q)) = branch_length s).
    { unfold src_length. cbn [mbind option_bind]. rewrite node_at_cons, Hn.
      cbn. by rewrite Hs. }
    assert (Hkids : walk_kids fuel T (i :: q) (Some (c :: i :: q))
                    = Ok (delete c (children n))).
    { apply (walk_kids_except _ _ _ _ _ Hn). intros j x Hx _.
      apply (walk_child_down _ _ _ _ _ _ Hn Hx); [done|].
      pose proof (height_child _ _ _ Hx).
      pose proof (height_node_at _ _ _ Hn). simpl in *. lia. }
    destruct q as [|j q].
    + rewrite (walk_copy_rec_basal _ _ _ _ _ Hn).
      cbn [is_root andb] in Hview.
      destruct (bool_decide (length (children T) = 2)) eqn:Hlen.
      * apply bool_decide_eq_true_1 in Hlen.
        rewrite (siblings_rooted _ _ _ Hlen Hn). cbn [or_raise].
        rewrite bind_Ok.
        rewrite bool_decide_eq_false_2.
        2:{ intros [= Heq]. }
        rewrite bool_decide_eq_true_2 by done.
        rewrite Hkids, bind_Ok.
        destruct (bottom_view T i) as [rest|] eqn:Hrest; [|done].
        rewrite bind_Ok in Hview. injection Hview as <-.
        rewrite (walk_bottom _ _ _ _ Hlen Hrest) by (simpl in Hfuel; lia).
        by rewrite bind_Ok, Hsl.
      * rewrite bool_decide_eq_false_2 by done.
        rewrite bool_decide_eq_true_2 by done.
        rewrite Hkids, bind_Ok.
        destruct (up_view T [] i) as [rest|] eqn:Hrest; [|done].
        rewrite bind_Ok in Hview. injection Hview as <-.
        assert (Hw : walk_copy_rec fuel T (Some []) (Some [i]) = Ok rest)
          by (apply IH; [done|simpl in *; lia]).
        rewrite Hw.
        by rewrite bind_Ok, Hsl.
    + rewrite (walk_copy_rec_derived _ _ _ _ _ _ _ Hn).
      cbn [is_root andb] in Hview.
      rewrite bool_decide_eq_false_2.
      2:{ intros [= _ Heq]. apply (f_equal length) in Heq. simpl in Heq. lia. }
      rewrite bool_decide_eq_true_2 by done.
      rewrite Hkids, bind_Ok.
      destruct (up_view T (j :: q) i) as [rest|] eqn:Hrest; [|done].
      rewrite bind_Ok in Hview. injection Hview as <-.
      assert (Hw : walk_copy_rec fuel T (Some (j :: q)) (Some (i :: j :: q))
                   = Ok rest) by (apply IH; [done|simpl in *; lia]).
      rewrite Hw.
      by rewrite bind_Ok, Hsl.
Qed.

Lemma walk_copy_rec_None fuel T src :
  walk_copy_rec (S fuel) T None src = Err AttributeError.
Proof. by rewrite walk_copy_rec_S. Qed.

(** The walk up succeeds unless it starts below a rooted apex that it would
    have to cross, or two basal lengths cannot be added. *)
Lemma up_view_ok q : forall T c s,
  node_at T (c :: q) = Some s ->
  (q = [] -> length (children T) <> 2) ->
  (length (children T) = 2 ->
   Forall (fun x => is_Some (branch_length x)) (children T)) ->
  exists r, up_view T q c = Ok r.
Proof.
  induction q as [|i q IH]; intros T c s Hs Hun Hlens.
  - cbn in Hs. cbn [up_view node_at or_raise]. rewrite bind_Ok, Hs.
    cbn [or_raise]. rewrite bind_Ok.
    rewrite bool_decide_eq_false_2 by auto. eauto.
  - apply node_at_child_lt in Hs as (n & Hn & Hs).
    cbn [up_view]. rewrite Hn. cbn [or_raise]. rewrite bind_Ok, Hs.
    cbn [or_raise]. rewrite bind_Ok.
    assert (Hrest : exists rest,
      (if is_root q && bool_decide (length (children T) = 2)
       then bottom_view T i else up_view T q i) = Ok rest).
    { destruct q as [|j q]; cbn [is_root andb].
      - destruct (bool_decide (length (children T) = 2)) eqn:Hlen.
        + apply bool_decide_eq_true_1 in Hlen.
          cbn in Hn. unfold bottom_view. rewrite Hn.
          cbn [or_raise]. rewrite bind_Ok.
          assert (Hi : i < 2) by (rewrite <- Hlen; by eapply lookup_lt_Some).
          destruct (lookup_lt_is_Some_2 (children T) (1 - i)) as [sib Hsib];
            [lia|].
          rewrite Hsib. cbn [or_raise]. rewrite bind_Ok.
          specialize (Hlens Hlen). rewrite Forall_lookup in Hlens.
          destruct (Hlens _ _ Hn) as [a ->].
          destruct (Hlens _ _ Hsib) as [b ->].
          cbn. eauto.
        + apply bool_decide_eq_false_1 in Hlen.
          apply (IH T i n Hn); auto.
      - apply (IH T i n Hn); [done|auto]. }
    destruct Hrest as [rest ->]. rewrite bind_Ok. eauto.
Qed.

(** [root_above] in closed form. *)
Lemma root_above_closed T c q n l r nm :
  node_at T (c :: q) = Some n ->
  branch_length n = Some l ->
  (q = [] -> length (children T) <> 2) ->
  up_view T q c = Ok r ->
  root_above T (c :: q) nm =
    Ok (Node nm None [set_length n (Some (rhalf l));
                      set_length r (Some (rhalf l))]).
Proof.
  intros Hn Hl Hun Hview. unfold root_above, walk_copy.
  rewrite Hn. cbn [or_raise]. rewrite bind_Ok.
  pose proof (height_node_at _ _ _ Hn) as Hh. simpl in Hh.
  rewrite (walk_down n (budget T) T (c :: q) Hn).
  - rewrite bind_Ok. cbn [parent].
    assert (Hw : walk_copy_rec (budget T) T (Some q) (Some (c :: q)) = Ok r).
    { apply walk_up; [done|]. unfold budget. lia. }
    rewrite Hw, bind_Ok, Hl. done.
  - done.
  - intros Hlen. apply Hun. destruct q; [done|simpl in Hlen; lia].
  - unfold budget. lia.
Qed.

Lemma root_above_apex T nm : exists e, root_above T [] nm = Err e.
Proof.
  unfold root_above, walk_copy. cbn [node_at or_raise parent].
  rewrite bind_Ok. destruct (budget_pos T) as [f ->].
  destruct (walk_copy_rec (S f) T (Some []) None) as [left|e]; [|eauto].
  rewrite bind_Ok, walk_copy_rec_None. eauto.
Qed.

Lemma root_above_rooted_basal T c n nm :
  length (children T) = 2 -> node_at T [c] = Some n ->
  root_above T [c] nm = Err NotNeighbors.
Proof.
  intros Hlen Hn. unfold root_above, walk_copy. rewrite Hn.
  cbn [or_raise parent]. rewrite bind_Ok.
  destruct (budget_pos T) as [f ->].
  rewrite (walk_copy_rec_basal _ _ _ _ _ Hn).
  rewrite bool_decide_eq_true_2 by done.
  rewrite (siblings_rooted _ _ _ Hlen Hn). cbn [or_raise]. rewrite bind_Ok.
  rewrite bool_decide_eq_false_2 by done.
  rewrite bool_decide_eq_false_2; [done|].
  apply src_not_child. done.
Qed.

(** A walk that starts at the apex of a rooted tree stops at once. *)
Lemma walk_copy_rec_rooted_apex fuel T src :
  length (children T) = 2 ->
  walk_copy_rec (S fuel) T (Some []) src = Err CannotWalkFromRootOfRootedTree.
Proof.
  intros Hlen. rewrite walk_copy_rec_S. cbn.
  rewrite children_of_apex, bool_decide_eq_true_2 by done. done.
Qed.

End walks.

(** Halving is exact on the rationals. *)
Lemma Qc_half_sum (x : Qc) : radd (rhalf x) (rhalf x) = x.
Proof.
  unfold radd, rhalf, Qc_ops.
  assert (H2 : Q2Qc 2 = (1 + 1)%Qc) by (apply Qc_is_canon; reflexivity).
  rewrite H2. field. intros Hz. discriminate Hz.
Qed.

(** C7: a walk from an apex with exactly two children fails with
    [CannotWalkFromRootOfRootedTree] whatever [src] is: [None], a child of
    the apex, or anything else.  The exception is raised before the move is
    classified, so [NotNeighbors] is never reached. *)
Theorem walk_copy_rooted_apex {R} `{LengthOps R} (T : tree R) (src : option addr) :
  length (children T) = 2 ->
  walk_copy T (Some []) src = Err CannotWalkFromRootOfRootedTree.
Proof.
  intros Hlen. unfold walk_copy.
  destruct (budget_pos T) as [f ->].
  by apply walk_copy_rec_rooted_apex.
Qed.

Lemma walk_copy_rooted_apex_witness :
  walk_copy Golden.rooted (Some []) (Some [0]) = Err CannotWalkFromRootOfRootedTree
  /\ walk_copy Golden.rooted (Some []) None = Err CannotWalkFromRootOfRootedTree.
Proof.
  split; apply walk_copy_rooted_apex; reflexivity.
Defined.

(** C1: the golden scenario.  On the rooted tree of the notebook the node
    named [c] is found, and rerooting above it returns exactly
    [((a:1.0,b:0.8)c:1.2,((d:0.8,e:0.6)f:1.2,(h:0.5,i:0.7)j:2.2)g:1.2);],
    computed in binary64 as Python does; no node of the result is named
    [k]. *)
Theorem root_above_golden :
  (c ← find Golden.rooted (Some "c"); root_above Golden.rooted c None)
    = Ok Golden.rooted_above_c
  /\ find Golden.rooted_above_c (Some "k") = Err LabelNotFound.
Proof. split; vm_compute; reflexivity. Qed.

(** In binary64 the two halves of a length need not sum to it: half of the
    least positive number is rounded to zero. *)
Example float_halves_underflow :
  let x := 0x1p-1074%float in
  rhalf x = 0%float /\ radd (rhalf x) (rhalf x) = 0%float
  /\ radd (rhalf x) (rhalf x) <> x.
Proof. repeat split; vm_compute; discriminate || reflexivity. Qed.

(** C2, as the code has it: rerooting above a node whose parent is not a
    two-child apex succeeds when the lengths it needs are there (the node's
    own, and both basal lengths if the apex has two children), in every
    arithmetic; the new apex has exactly two children, the clade of the
    node and the rest of the tree, each at half the node's length.  In
    exact arithmetic the two lengths sum to the node's length.  Rerooting
    fails at the apex and also at a child of a two-child apex. *)
Theorem root_above_midpoint :
  (forall R (ops : LengthOps R) (T : tree R) nm c q n l,
     node_at T (c :: q) = Some n ->
     branch_length n = Some l ->
     (q = [] -> length (children T) <> 2) ->
     (length (children T) = 2 ->
      Forall (fun x => is_Some (branch_length x)) (children T)) ->
     exists right,
       root_above T (c :: q) nm
       = Ok (Node nm None [set_length n (Some (rhalf l)); right])
       /\ branch_length right = Some (rhalf l))
  /\ (forall (T : tree Qc) nm c q n l,
        node_at T (c :: q) = Some n ->
        branch_length n = Some l ->
        (q = [] -> length (children T) <> 2) ->
        (length (children T) = 2 ->
         Forall (fun x => is_Some (branch_length x)) (children T)) ->
        exists left right a b,
          root_above T (c :: q) nm = Ok (Node nm None [left; right])
          /\ branch_length left = Some a /\ branch_length right = Some b
          /\ (a + b)%Qc = l)
  /\ (forall R (ops : LengthOps R) (T : tree R) nm,
        exists e, root_above T [] nm = Err e)
  /\ (forall R (ops : LengthOps R) (T : tree R) nm c n,
        length (children T) = 2 -> node_at T [c] = Some n ->
        root_above T [c] nm = Err NotNeighbors).
Proof.
  assert (Hgen : forall R (ops : LengthOps R) (T : tree R) nm c q n l,
     node_at T (c :: q) = Some n ->
     branch_length n = Some l ->
     (q = [] -> length (children T) <> 2) ->
     (length (children T) = 2 ->
      Forall (fun x => is_Some (branch_length x)) (children T)) ->
     exists right,
       root_above T (c :: q) nm
       = Ok (Node nm None [set_length n (Some (rhalf l)); right])
       /\ branch_length right = Some (rhalf l)).
  { intros R ops T nm c q n l Hn Hl Hun Hlens.
    destruct (up_view_ok q T c n Hn Hun Hlens) as [r Hr].
    exists (set_length r (Some (rhalf l))). split; [|done].
    by apply root_above_closed. }
  split; [exact Hgen|]. split; [|split].
  - intros T nm c q n l Hn Hl Hun Hlens.
    destruct (Hgen Qc _ T nm c q n l Hn Hl Hun Hlens) as (right & Hok & Hr).
    exists (set_length n (Some (rhalf l))), right, (rhalf l), (rhalf l).
    split; [done|]. split; [done|]. split; [done|]. apply Qc_half_sum.
  - intros R ops T nm. apply root_above_apex.
  - intros R ops T nm c n. apply root_above_rooted_basal.
Qed.

Lemma root_above_midpoint_witness :
  (exists right,
     root_above Golden.rooted [0; 0] None
     = Ok (Node None None
             [set_length (Golden.clade [Golden.tip "a" 1.0; Golden.tip "b" 0.8]
                            "c" 2.4)
                (Some (rhalf 2.4%float)); right])
     /\ branch_length right = Some (rhalf 2.4%float))
  /\ (exists left right a b,
        root_above Ex.exact [0] None = Ok (Node None None [left; right])
        /\ branch_length left = Some a /\ branch_length right = Some b
        /\ (a + b)%Qc = 1%Qc).
Proof.
  destruct root_above_midpoint as (Hgen & Hexact & _). split.
  - apply (Hgen float _ Golden.rooted None 0 [0]);
      [reflexivity|reflexivity|done|].
    intros _. repeat constructor; by eexists.
  - eapply (Hexact Ex.exact None 0 []);
      [reflexivity|reflexivity|intros _; cbn; lia|cbn; lia].
Defined.

(** C2, as stated, fails: [g] has a parent in the golden tree, and
    rerooting above it raises "Source and node are not neighbors". *)
Lemma root_above_fails_below_rooted_apex :
  name <$> node_at Golden.rooted [0] = Some (Some "g")
  /\ parent [0] = Some []
  /\ root_above Golden.rooted [0] None = Err NotNeighbors.
Proof. repeat split; vm_compute; reflexivity. Qed.

(** C3: the three preconditions of [restore_rooting] are checked in this
    order, before the target is copied or anything is rerooted, and each
    failure is an exception: no tree is returned. *)
Theorem restore_rooting_preconditions {R} `{LengthOps R} (src trg : tree R) :
  (length (children src) <> 2 ->
   restore_rooting src trg = Err SourceNotRooted)
  /\ (length (children src) = 2 -> length (children trg) = 2 ->
      restore_rooting src trg = Err TargetNotUnrooted)
  /\ (length (children src) = 2 -> length (children trg) <> 2 ->
      tip_names src <> tip_names trg ->
      restore_rooting src trg = Err TaxaMismatch).
Proof.
  unfold restore_rooting. repeat split.
  - intros Hs. by rewrite bool_decide_eq_true_2.
  - intros Hs Ht.
    rewrite bool_decide_eq_false_2 by (intros Hn; by apply Hn).
    by rewrite bool_decide_eq_true_2.
  - intros Hs Ht Hne.
    rewrite bool_decide_eq_false_2 by (intros Hn; by apply Hn).
    rewrite bool_decide_eq_false_2 by done.
    by rewrite bool_decide_eq_true_2.
Qed.

Lemma restore_rooting_preconditions_witness :
  restore_rooting Ex.trg_split Ex.src = Err SourceNotRooted
  /\ restore_rooting Ex.src Ex.src = Err TargetNotUnrooted
  /\ restore_rooting Ex.src Ex.trg_tie = Err TaxaMismatch.
Proof.
  split; [|split].
  - destruct (restore_rooting_preconditions Ex.trg_split Ex.src) as (Hs & _).
    apply Hs. cbn. lia.
  - destruct (restore_rooting_preconditions Ex.src Ex.src) as (_ & Ht & _).
    apply Ht; reflexivity.
  - destruct (restore_rooting_preconditions Ex.src Ex.trg_tie) as (_ & _ & Hm).
    apply Hm; [reflexivity|cbn; lia|compute_done].
Defined.

(** C4, as the code has it: the outgroup is the basal clade of [src] with
    fewer tips, and on equal counts the first of the two in child order;
    [restore_rooting] goes on with the tip names of that clade. *)
Theorem outgroup_is_first_smallest {R} `{LengthOps R} (src c1 c2 : tree R) :
  children src = [c1; c2] ->
  let clade := if (count_tips c2 <? count_tips c1)%nat then c2 else c1 in
  outgroup_clade src = Ok clade
  /\ (count_tips c1 = count_tips c2 -> outgroup_clade src = Ok c1)
  /\ forall trg,
       length (children trg) <> 2 -> tip_names src = tip_names trg ->
       restore_rooting src trg =
         ('(res, a) ← locate_outgroup trg (tip_names clade);
          root_above res a None).
Proof.
  intros Hcs clade.
  assert (Hout : outgroup_clade src = Ok clade).
  { unfold outgroup_clade, min_by. by rewrite Hcs. }
  split; [done|split].
  - intros Heq. rewrite Hout. unfold clade.
    by rewrite (proj2 (Nat.ltb_ge _ _)) by lia.
  - intros trg Ht Htips. unfold restore_rooting.
    rewrite bool_decide_eq_false_2 by (rewrite Hcs; intros Hn; by apply Hn).
    rewrite bool_decide_eq_false_2 by done.
    rewrite bool_decide_eq_false_2 by (intros Hn; by apply Hn).
    by rewrite Hout.
Qed.

Lemma outgroup_is_first_smallest_witness :
  outgroup_clade Ex.src_tie = Ok (Ex.clade "x" [Ex.tip "c"; Ex.tip "d"]).
Proof.
  apply (outgroup_is_first_smallest Ex.src_tie
           (Ex.clade "x" [Ex.tip "c"; Ex.tip "d"])
           (Ex.clade "y" [Ex.tip "a"; Ex.tip "b"]) eq_refl).
  reflexivity.
Defined.

(** C4, as stated, fails: on [((c,d)x,(a,b)y)r;] both clades have two tips
    and [a] is the least tip name, so the specification's rule picks [y];
    the code picks [x], and goes on to return a tree. *)
Lemma outgroup_tie_not_lexicographic :
  spec_outgroup_clade Ex.src_tie = Ok (Ex.clade "y" [Ex.tip "a"; Ex.tip "b"])
  /\ outgroup_clade Ex.src_tie = Ok (Ex.clade "x" [Ex.tip "c"; Ex.tip "d"])
  /\ outgroup_clade Ex.src_tie <> spec_outgroup_clade Ex.src_tie
  /\ is_ok (restore_rooting Ex.src_tie Ex.trg_tie) = true.
Proof. repeat split; vm_compute; discriminate || reflexivity. Qed.

(** C5, as stated, fails: on [(a,b,(c,(d,e)));] with outgroup [{a, b}] the
    LCA is the apex, and the tree the code goes on with has an apex with
    three children; [root_above] on the parent of [c] would give two. *)
Lemma degenerate_case_not_root_above :
  lca Ex.trg_split {[Some "a"; Some "b"]} = Ok []
  /\ (length ∘ children <$> swap_tree Ex.trg_split {[Some "a"; Some "b"]})
       = Ok 3
  /\ (length ∘ children <$> spec_swap_tree Ex.trg_split {[Some "a"; Some "b"]})
       = Ok 2
  /\ swap_tree Ex.trg_split {[Some "a"; Some "b"]}
       <> spec_swap_tree Ex.trg_split {[Some "a"; Some "b"]}.
Proof. repeat split; vm_compute; discriminate || reflexivity. Qed.

(** ** Order restoration, one node *)

Section order.
Context {R : Type} `{LengthOps R}.
Implicit Types (T n : tree R) (p q : addr) (kids : list (tree R)).

Lemma node_at_modify_at p : forall (f : tree R -> tree R) T n,
  node_at T p = Some n -> node_at (modify_at p f T) p = Some (f n).
Proof.
  induction p as [|i q IH]; intros f T n Hn.
  - cbn in *. by injection Hn as ->.
  - apply node_at_child_lt in Hn as (m & Hm & Hi).
    cbn [modify_at]. rewrite node_at_cons.
    rewrite (IH _ T m Hm). cbn.
    by rewrite list_lookup_alter_eq, Hi.
Qed.

(** [name2child] holds, for every name, the last child of that name. *)
Lemma name2child_lookup kids (nm : option string) :
  name2child kids !! nm = last (filter (fun k => name k = nm) kids).
Proof.
  unfold name2child.
  assert (Hgen : forall (m : gmap (option string) (tree R)),
    foldl (fun m c => <[name c := c]> m) m kids !! nm =
      match last (filter (fun k => name k = nm) kids) with
      | Some k => Some k
      | None => m !! nm
      end).
  { induction kids as [|k kids IH]; intros m; [done|].
    cbn [foldl]. rewrite IH, filter_cons.
    destruct (decide (name k = nm)) as [Hk|Hk].
    - destruct (filter _ kids) as [|y l] eqn:Hf.
      + cbn. by rewrite Hk, lookup_insert_eq.
      + rewrite last_cons_cons.
        destruct (proj2 (last_is_Some (y :: l))) as [z ->]; done.
    - destruct (last (filter _ kids)); [done|].
      by rewrite lookup_insert_ne. }
  rewrite Hgen. by destruct (last _).
Qed.

Lemma name2child_Some kids nm x :
  name2child kids !! nm = Some x -> x ∈ kids /\ name x = nm.
Proof.
  rewrite name2child_lookup. intros Hl.
  apply last_Some_elem_of in Hl. by apply list_elem_of_filter in Hl as [? ?].
Qed.

Lemma name2child_is_Some kids nm :
  is_Some (name2child kids !! nm) <-> exists k, k ∈ kids /\ name k = nm.
Proof.
  split.
  - intros [x Hx]. exists x. by apply name2child_Some.
  - intros (k & Hk & Hnm). rewrite name2child_lookup.
    destruct (filter (fun k => name k = nm) kids) as [|y l] eqn:Hf.
    + exfalso. eapply (filter_nil_not_elem_of _ _ k Hf); done.
    + apply last_is_Some. done.
Qed.


Lemma for_each_cons {A S} (f : S -> A -> result S) s x l :
  for_each f s (x :: l) = (s' ← f s x; for_each f s' l).
Proof. reflexivity. Qed.

Lemma elem_of_append_child (new : list (tree R)) (x y : tree R) :
  y ∈ append_child new x <-> (y ∈ new /\ name y <> name x) \/ y = x.
Proof.
  unfold append_child.
  rewrite elem_of_app, list_elem_of_filter, list_elem_of_singleton. tauto.
Qed.

(** The rebuilt list holds exactly the children fetched for the names of the
    source children, and each of its members is the child that
    [name2child] holds for its own name. *)
Lemma reorder_from kids (src_kids : list (tree R)) : forall new0,
  (forall x, x ∈ new0 -> name2child kids !! name x = Some x) ->
  (forall c, c ∈ src_kids -> is_Some (name2child kids !! name c)) ->
  exists new,
    for_each (fun new c => x ← or_raise ChildMismatch (name2child kids !! name c);
                           Ok (append_child new x)) new0 src_kids = Ok new
    /\ (forall x, x ∈ new <->
          x ∈ new0 \/ exists c, c ∈ src_kids /\ name2child kids !! name c = Some x)
    /\ (forall x, x ∈ new -> name2child kids !! name x = Some x).
Proof.
  induction src_kids as [|c cs IH]; intros new0 Hinv Hall.
  - exists new0. split; [done|]. split; [|done].
    intros x. split; [auto|]. intros [?|(c & Hc & _)]; [done|].
    by apply elem_of_nil in Hc.
  - destruct (Hall c) as [x Hx]; [by left|].
    rewrite for_each_cons, Hx. cbn [or_raise]. rewrite !bind_Ok.
    pose proof (name2child_Some _ _ _ Hx) as [Hxin Hxn].
    assert (Hxx : name2child kids !! name x = Some x) by by rewrite Hxn.
    destruct (IH (append_child new0 x)) as (new & Hnew & Hmem & Hinv').
    + intros y [[Hy _]| ->]%elem_of_append_child; auto.
    + intros c' Hc'. apply Hall. by right.
    + exists new. split; [done|]. split; [|done].
      intros y. rewrite Hmem, elem_of_append_child. split.
      * intros [[[Hy _]| ->]|(c' & Hc' & Hy)].
        -- by left.
        -- right. exists c. split; [by left|done].
        -- right. exists c'. split; [by right|done].
      * intros [Hy|(c' & Hc' & Hy)].
        -- destruct (decide (name y = name x)) as [Heq|Hne].
           ++ left. right. specialize (Hinv y Hy).
              rewrite Heq, Hxx in Hinv. congruence.
           ++ left. left. done.
        -- apply elem_of_cons in Hc' as [->|Hc'].
           ++ left. right. congruence.
           ++ right. eauto.
Qed.

Lemma reorder_children_ok (src_kids kids : list (tree R)) :
  (forall c, c ∈ src_kids -> exists k, k ∈ kids /\ name k = name c) ->
  exists new,
    reorder_children src_kids kids = Ok new
    /\ forall x, x ∈ new <->
         exists c, c ∈ src_kids /\ name2child kids !! name c = Some x.
Proof.
  intros Hall. unfold reorder_children.
  destruct (reorder_from kids src_kids []) as (new & Hnew & Hmem & _).
  - intros x Hx. by apply elem_of_nil in Hx.
  - intros c Hc. apply name2child_is_Some. by apply Hall.
  - exists new. split; [done|]. intros x. rewrite Hmem. split.
    + intros [Hx|?]; [by apply elem_of_nil in Hx|done].
    + auto.
Qed.

Lemma reorder_children_err (src_kids kids : list (tree R)) e :
  reorder_children src_kids kids = Err e ->
  e = ChildMismatch
  /\ exists c, c ∈ src_kids /\ forall k, k ∈ kids -> name k <> name c.
Proof.
  unfold reorder_children. generalize (@nil (tree R)) as new0.
  induction src_kids as [|c cs IH]; intros new0 Herr; [done|].
  rewrite for_each_cons in Herr.
  destruct (name2child kids !! name c) as [x|] eqn:Hx.
  - cbn [or_raise] in Herr. rewrite !bind_Ok in Herr.
    destruct (IH _ Herr) as (-> & c' & Hc' & Hno).
    split; [done|]. exists c'. split; [by right|done].
  - cbn in Herr. injection Herr as <-. split; [done|].
    exists c. split; [by left|]. intros k Hk Hnm.
    assert (Hs : is_Some (name2child kids !! name c))
      by (apply name2child_is_Some; eauto).
    rewrite Hx in Hs. by destruct Hs.
Qed.

End order.

(** ** Label restoration *)

Section labels.
Context {R : Type} `{LengthOps R}.
Implicit Types (T n : tree R) (p q : addr).

Lemma post_children_cons (post : tree R -> addr -> list (addr * tree R)) p c cs i :
  post_children post p (c :: cs) i = post c (i :: p) ++ post_children post p cs (S i).
Proof. reflexivity. Qed.

Lemma postorder_eq nm l (cs : list (tree R)) p :
  postorder (Node nm l cs) p =
    post_children postorder p cs 0 ++ [(p, Node nm l cs)].
Proof. reflexivity. Qed.

(** Every node listed by [postorder] sits at its address. *)
Lemma postorder_node_at n : forall p a s,
  (a, s) ∈ postorder n p -> exists a', a = a' ++ p /\ node_at n a' = Some s.
Proof.
  induction n as [nm l cs IH] using tree_ind. intros p a s.
  rewrite postorder_eq, elem_of_app, list_elem_of_singleton.
  intros [Hin|[= -> ->]]; [|by exists []].
  assert (Hgen : forall i,
    (a, s) ∈ post_children postorder p cs i ->
    exists j c a', cs !! j = Some c /\ a = a' ++ (i + j) :: p
                   /\ node_at c a' = Some s).
  { clear Hin. induction cs as [|c cs IHcs]; intros i Hin.
    - by apply elem_of_nil in Hin.
    - rewrite post_children_cons, elem_of_app in Hin.
      apply Forall_cons in IH as [IHc IH].
      destruct Hin as [Hin|Hin].
      + destruct (IHc _ _ _ Hin) as (a' & -> & Ha').
        exists 0, c, a'. by rewrite Nat.add_0_r.
      + destruct (IHcs IH _ Hin) as (j & c' & a' & Hj & -> & Ha').
        exists (S j), c', a'. split; [done|]. split; [|done].
        by rewrite Nat.add_succ_r. }
  destruct (Hgen 0 Hin) as (j & c & a' & Hj & -> & Ha').
  exists (a' ++ [j]). split; [by rewrite <- app_assoc|].
  clear -Hj Ha'. revert s Ha'. induction a' as [|k a' IHa]; intros s Ha'.
  - cbn in *. injection Ha' as <-. done.
  - cbn [app]. rewrite node_at_cons in *.
    destruct (node_at c a') as [m|] eqn:Hm; [|done].
    by rewrite (IHa m eq_refl).
Qed.

Lemma elem_of_non_tips T a s :
  (a, s) ∈ non_tips T [] -> node_at T a = Some s /\ is_tip s = false.
Proof.
  unfold non_tips. rewrite list_elem_of_filter. intros [Htip Hin].
  apply postorder_node_at in Hin as (a' & -> & Ha').
  by rewrite app_nil_r.
Qed.

Lemma elem_of_internal_labels T l :
  l ∈ internal_labels T ->
  exists q s, node_at T q = Some s /\ is_tip s = false /\ name s = Some l.
Proof.
  unfold internal_labels. rewrite list_elem_of_omap.
  intros ([a s] & Hin & Hl). apply elem_of_non_tips in Hin as [Ha Htip].
  exists a, s. split; [done|]. split; [done|].
  unfold label_of in Hl. cbn in Hl. destruct (name s) as [l'|]; [|done].
  by destruct (bool_decide (l' <> "")); simplify_eq.
Qed.

(** [label2taxa] succeeds when no label occurs twice, and its keys are the
    internal labels. *)
Lemma label2taxa_from (l : list (addr * tree R)) : forall acc,
  NoDup ((fst <$> acc) ++ omap (fun x => label_of x.2) l) ->
  exists l2t,
    for_each
      (fun acc x =>
         match name x.2 with
         | Some label =>
             if bool_decide (label <> "") then
               if bool_decide (label ∈ fst <$> acc)
               then Err (DuplicateLabel label)
               else Ok (acc ++ [(label, tip_names x.2)])
             else Ok acc
         | None => Ok acc
         end) acc l = Ok l2t
    /\ fst <$> l2t = (fst <$> acc) ++ omap (fun x => label_of x.2) l.
Proof.
  induction l as [|x l IH]; intros acc Hnd.
  - exists acc. cbn. by rewrite app_nil_r.
  - rewrite for_each_cons.
    rewrite (omap_app _ [x] l : omap _ (x :: l) = _) in Hnd |- *.
    assert (Hlab : omap (fun x => label_of x.2) [x] =
              match name x.2 with
              | Some label => if bool_decide (label <> "") then [label] else []
              | None => []
              end).
    { cbn. unfold label_of. destruct (name x.2) as [label|]; [|done].
      by destruct (bool_decide (label <> "")). }
    rewrite Hlab in Hnd |- *. clear Hlab.
    destruct (name x.2) as [label|]; [|by apply IH].
    destruct (bool_decide (label <> "")); [|by apply IH].
    apply NoDup_app in Hnd as Hnd'. destruct Hnd' as (_ & Hdisj & _).
    rewrite bool_decide_eq_false_2.
    2:{ intros Hin. apply (Hdisj _ Hin). by left. }
    rewrite bind_Ok.
    destruct (IH (acc ++ [(label, tip_names x.2)])) as (l2t & Hok & Hkeys).
    + rewrite fmap_app. cbn. by rewrite <- app_assoc.
    + exists l2t. split; [done|].
      rewrite Hkeys, fmap_app. cbn. by rewrite <- app_assoc.
Qed.


(** *** Renaming keeps the shape *)

Section renamed.
Variable P : option string -> option string -> Prop.
Hypothesis P_refl : forall x, P x x.
Hypothesis P_trans : forall x y z, P x y -> P y z -> P x z.

Lemma renamed_refl T : renamed P T T.
Proof using P_refl.
  induction T as [nm l cs IH] using tree_ind.
  constructor; [done|]. by apply Forall_Forall2_diag.
Qed.

Lemma renamed_trans T1 : forall T2 T3,
  renamed P T1 T2 -> renamed P T2 T3 -> renamed P T1 T3.
Proof using P_trans.
  induction T1 as [nm l cs IH] using tree_ind.
  intros T2 T3 H12 H23. inversion H12 as [? nm2 ? ? cs2 Hn12 Hc12]; subst.
  inversion H23 as [? nm3 ? ? cs3 Hn23 Hc23]; subst.
  constructor; [by eapply P_trans|].
  clear H12 H23. revert cs3 Hc23.
  induction Hc12 as [|c c2 cs cs2 Hc Hcs IHcs]; intros cs3 Hc23.
  - inversion Hc23. constructor.
  - inversion Hc23 as [|? c3 ? cs3' Hc' Hcs']; subst.
    apply Forall_cons in IH as [IHc IH].
    constructor; [by eapply IHc|by apply IHcs].
Qed.

Lemma renamed_modify_at a : forall (f : tree R -> tree R) T,
  (forall n, renamed P n (f n)) -> renamed P T (modify_at a f T).
Proof using P_refl.
  induction a as [|i q IH]; intros f T Hf; [by apply Hf|].
  cbn [modify_at]. apply IH. intros [nm l cs]. cbn.
  constructor; [done|].
  apply Forall2_alter_r.
  - apply Forall_Forall2_diag, Forall_forall. intros; apply renamed_refl.
  - intros x y Hx Hy _. assert (x = y) as -> by congruence. apply Hf.
Qed.

Lemma renamed_node_at T T' p :
  renamed P T T' ->
  match node_at T p, node_at T' p with
  | Some t, Some r => renamed P t r
  | None, None => True
  | _, _ => False
  end.
Proof.
  intros Hren. induction p as [|i q IH]; [done|].
  rewrite !node_at_cons.
  destruct (node_at T q) as [t|], (node_at T' q) as [r|]; try done.
  cbn. inversion IH as [? ? ? cs cs' _ Hcs]; subst. cbn.
  apply Forall2_lookup with (i := i) in Hcs.
  by destruct Hcs.
Qed.

End renamed.

End labels.

(** ** Tip sets and rooting restoration *)

Section tipsets.
Context {R : Type} `{LengthOps R}.
Implicit Types (T n : tree R) (p q : addr).

Lemma filter_ext_elem {A} (P Q : A -> Prop) `{!forall x, Decision (P x)}
    `{!forall x, Decision (Q x)} (l : list A) :
  (forall x, x ∈ l -> P x <-> Q x) -> filter P l = filter Q l.
Proof.
  induction l as [|x l IH]; intros Hext; [done|].
  rewrite !filter_cons.
  destruct (decide (P x)) as [HP|HP], (decide (Q x)) as [HQ|HQ].
  - f_equal. apply IH. intros y Hy. apply Hext. by right.
  - exfalso. apply HQ, Hext; [by left|done].
  - exfalso. apply HP, Hext; [by left|done].
  - apply IH. intros y Hy. apply Hext. by right.
Qed.

Lemma clade_tip_list_node nm l (cs : list (tree R)) :
  cs <> [] -> clade_tip_list (Node nm l cs) = mjoin (clade_tip_list <$> cs).
Proof. by destruct cs. Qed.

(** The tips that [postorder] lists are those of the clade. *)
Lemma postorder_tips n : forall p,
  (fun x => name x.2) <$> filter (fun x => is_tip x.2 = true) (postorder n p)
  = clade_tip_list n.
Proof.
  induction n as [nm l cs IH] using tree_ind. intros p.
  rewrite postorder_eq, filter_app, fmap_app.
  assert (Hkids : forall i,
    (fun x => name x.2) <$>
      filter (fun x => is_tip x.2 = true) (post_children postorder p cs i)
    = mjoin (clade_tip_list <$> cs)).
  { induction cs as [|c cs IHcs]; intros i; [done|].
    apply Forall_cons in IH as [IHc IH].
    rewrite post_children_cons, filter_app, fmap_app, IHc, IHcs by done.
    done. }
  rewrite Hkids. destruct cs as [|c cs].
  - by rewrite filter_cons_True.
  - rewrite filter_cons_False by done. by rewrite app_nil_r.
Qed.

Lemma tip_name_list_clade T :
  is_tip T = false -> tip_name_list T = clade_tip_list T.
Proof.
  intros Htip. rewrite <- (postorder_tips T []).
  unfold tip_name_list, tips. f_equal. apply filter_ext_elem.
  intros [a s] Hin. cbn. split; [tauto|]. intros Hs. split; [done|].
  intros ->. destruct T as [nm l cs].
  rewrite postorder_eq, elem_of_app, list_elem_of_singleton in Hin.
  destruct Hin as [Hin|[= ->]]; [|congruence].
  clear -Hin. revert Hin. generalize 0.
  induction cs as [|c cs IH]; intros i Hin.
  - by apply elem_of_nil in Hin.
  - rewrite post_children_cons, elem_of_app in Hin. destruct Hin as [Hin|Hin].
    + apply postorder_node_at in Hin as (a' & Heq & _).
      apply (f_equal length) in Heq. rewrite length_app in Heq. simpl in Heq. lia.
    + by eapply IH.
Qed.

Lemma tip_names_clade T :
  is_tip T = false -> tip_names T = clade_tip_names T.
Proof.
  intros Htip. unfold tip_names, clade_tip_names.
  by rewrite <- tip_name_list_clade.
Qed.

Lemma tip_names_tip T : is_tip T = true -> tip_names T = ∅.
Proof.
  intros Htip. unfold tip_names, tips.
  destruct T as [nm l [|c cs]]; [|done]. done.
Qed.

Lemma join_delete_perm {A B} (f : A -> list B) (cs : list A) c s :
  cs !! c = Some s ->
  mjoin (f <$> cs) ≡ₚ mjoin (f <$> delete c cs) ++ f s.
Proof.
  revert c. induction cs as [|x cs IH]; intros c Hs; [done|].
  destruct c as [|c]; cbn in *.
  - injection Hs as ->. apply Permutation_app_comm.
  - rewrite (IH c Hs). by rewrite <- app_assoc.
Qed.

Lemma clade_tip_list_set_length n l :
  clade_tip_list (set_length n l) = clade_tip_list n.
Proof. by destruct n as [nm l' [|c cs]]. Qed.


Lemma clade_tip_list_snoc nm l (cs : list (tree R)) (x : tree R) :
  clade_tip_list (Node nm l (cs ++ [x]))
  = mjoin (clade_tip_list <$> cs) ++ clade_tip_list x.
Proof.
  rewrite clade_tip_list_node by (by destruct cs).
  rewrite fmap_app, join_app. cbn. by rewrite app_nil_r.
Qed.

(** Walking up from a clade collects every tip outside it, once. *)
Lemma up_view_tips q : forall T c s r,
  node_at T (c :: q) = Some s ->
  up_view T q c = Ok r ->
  length (children T) <> 1 ->
  clade_tip_list r ++ clade_tip_list s ≡ₚ clade_tip_list T.
Proof.
  induction q as [|i q IH]; intros T c s r Hs Hview Hone.
  - cbn in Hs. cbn [up_view node_at or_raise] in Hview.
    rewrite bind_Ok, Hs in Hview. cbn [or_raise] in Hview.
    rewrite bind_Ok in Hview.
    destruct (bool_decide (length (children T) = 2)); [done|].
    injection Hview as <-.
    pose proof (lookup_lt_Some _ _ _ Hs) as Hc.
    destruct T as [nm l cs]. cbn [children] in *.
    rewrite !clade_tip_list_node.
    + symmetry. by apply join_delete_perm.
    + intros ->. simpl in Hc. lia.
    + intros Hd. apply (f_equal length) in Hd.
      rewrite length_delete in Hd by (by eapply mk_is_Some). simpl in Hd. lia.
  - apply node_at_child_lt in Hs as (n & Hn & Hs).
    cbn [up_view] in Hview. rewrite Hn in Hview. cbn [or_raise] in Hview.
    rewrite bind_Ok, Hs in Hview. cbn [or_raise] in Hview.
    rewrite bind_Ok in Hview.
    assert (Hnode : clade_tip_list n ≡ₚ
              mjoin (clade_tip_list <$> delete c (children n)) ++ clade_tip_list s).
    { destruct n as [nm l cs]. cbn [children] in *.
      rewrite clade_tip_list_node by (intros ->; done).
      by apply join_delete_perm. }
    destruct (is_root q && bool_decide (length (children T) = 2)) eqn:Hrooted.
    + apply andb_true_iff in Hrooted as [Hq Hlen].
      apply bool_decide_eq_true_1 in Hlen. destruct q; [|done].
      unfold bottom_view in Hview. cbn in Hn. rewrite Hn in Hview.
      cbn [or_raise] in Hview. rewrite bind_Ok in Hview.
      destruct (children T !! (1 - i)) as [sib|] eqn:Hsib; [|done].
      cbn [or_raise] in Hview. rewrite bind_Ok in Hview.
      destruct (add_lengths _ _) as [len|]; [|done].
      rewrite !bind_Ok in Hview. injection Hview as <-.
      rewrite clade_tip_list_snoc.
      assert (Hsibtips : clade_tip_list (Node (name sib) len (children sib))
                         = clade_tip_list sib) by (by destruct sib as [? ? [|? ?]]).
      rewrite Hsibtips.
      assert (HT : clade_tip_list T ≡ₚ clade_tip_list n ++ clade_tip_list sib).
      { destruct T as [nm l cs]. cbn [children] in *.
        destruct cs as [|c0 [|c1 [|? ?]]]; try done.
        destruct i as [|[|i]]; cbn in Hn, Hsib; simplify_eq.
        - cbn. by rewrite app_nil_r.
        - cbn. rewrite app_nil_r. apply Permutation_app_comm. }
      rewrite HT, Hnode.
      rewrite <- !(assoc_L (++)). apply Permutation_app_head, Permutation_app_comm.
    + destruct (up_view T q i) as [rest|] eqn:Hrest; [|done].
      rewrite bind_Ok in Hview. injection Hview as <-.
      rewrite clade_tip_list_snoc.
      rewrite <- (IH T i n rest Hn Hrest Hone), Hnode.
      rewrite <- !(assoc_L (++)). apply Permutation_app_swap_app.
Qed.

Lemma lca_empty T : lca T ∅ = Err NoTipsFound.
Proof.
  unfold lca. rewrite bool_decide_eq_false_2 by by rewrite size_empty.
  by rewrite elements_empty.
Qed.

End tipsets.

Section rooting.
Context {R : Type} `{LengthOps R}.
Implicit Types (T n : tree R) (p q : addr).

Lemma outgroup_clade_pair (src c1 c2 : tree R) :
  children src = [c1; c2] ->
  outgroup_clade src
  = Ok (if (count_tips c2 <? count_tips c1)%nat then c2 else c1).
Proof. intros Hcs. unfold outgroup_clade, min_by. by rewrite Hcs. Qed.

Lemma node_at_not_tip T c q n : node_at T (c :: q) = Some n -> is_tip T = false.
Proof.
  revert c n. induction q as [|i q IH]; intros c n Hn.
  - cbn in Hn. unfold is_tip. by destruct (children T).
  - apply node_at_child_lt in Hn as (m & Hm & _). by eapply IH.
Qed.

(** [restore_rooting] past its checks. *)
Lemma restore_rooting_located (src trg clade res : tree R) a :
  length (children src) = 2 -> length (children trg) <> 2 ->
  tip_names src = tip_names trg ->
  outgroup_clade src = Ok clade ->
  locate_outgroup trg (tip_names clade) = Ok (res, a) ->
  restore_rooting src trg = root_above res a None.
Proof.
  intros Hs Ht Htips Hout Hloc. unfold restore_rooting.
  rewrite bool_decide_eq_false_2 by (intros Hn; by apply Hn).
  rewrite bool_decide_eq_false_2 by done.
  rewrite bool_decide_eq_false_2 by (intros Hn; by apply Hn).
  by rewrite Hout, bind_Ok, Hloc, bind_Ok.
Qed.

(** When the LCA is below the apex, the copy of the target is rerooted. *)
Lemma locate_outgroup_below_apex T (outgroup : gset (option string)) c q :
  lca T outgroup = Ok (c :: q) ->
  locate_outgroup T outgroup = Ok (T, c :: q).
Proof.
  intros Hlca. unfold locate_outgroup.
  rewrite Hlca, bind_Ok. by rewrite bool_decide_eq_false_2.
Qed.

Lemma locate_outgroup_nonempty T (outgroup : gset (option string)) res a :
  locate_outgroup T outgroup = Ok (res, a) -> outgroup <> ∅.
Proof.
  intros Hloc ->. unfold locate_outgroup in Hloc.
  by rewrite lca_empty in Hloc.
Qed.

End rooting.

(** C6, as stated, fails: [((a,b)x,(c,d,e)y)r;] and [(((a,c),b),d,e);]
    satisfy the three preconditions, the outgroup is [{a, b}] and the
    ingroup [{c, d, e}], and the tree returned splits the tips into
    [{a, b, c}] and [{d, e}]. *)
Lemma restore_rooting_wrong_bipartition :
  length (children Ex.src) = 2
  /\ length (children Ex.trg_other) <> 2
  /\ tip_names Ex.src = tip_names Ex.trg_other
  /\ (tip_names <$> outgroup_clade Ex.src) = Ok {[Some "a"; Some "b"]}
  /\ (fmap (M := list) clade_tip_names ∘ children
        <$> restore_rooting Ex.src Ex.trg_other)
     = Ok [ {[Some "a"; Some "b"; Some "c"]}; {[Some "d"; Some "e"]} ]
  /\ ({[Some "a"; Some "b"; Some "c"]} : gset (option string))
     <> {[Some "a"; Some "b"]}
  /\ ({[Some "d"; Some "e"]} : gset (option string)) <> {[Some "a"; Some "b"]}.
Proof. repeat split; compute_done. Qed.

(** On some valid pairs no tree is returned: on [(a,b,c,(d,e));] the LCA of
    [{a, b}] is the apex, the first tip outside the outgroup is [c], whose
    parent is the apex again, and [root_above] is called on an apex. *)
Example restore_rooting_degenerate_fails :
  length (children Ex.src) = 2
  /\ length (children Ex.trg_flat) <> 2
  /\ tip_names Ex.src = tip_names Ex.trg_flat
  /\ restore_rooting Ex.src Ex.trg_flat = Err AttributeError.
Proof. repeat split; compute_done. Qed.

(** ** Order restoration, the whole loop *)

Section idem.
Context {R : Type} `{LengthOps R}.
Implicit Types (T n s t : tree R) (p q : addr).

Lemma alter_ext_at {A} (f g : A -> A) (l : list A) i x :
  l !! i = Some x -> f x = g x -> alter f i l = alter g i l.
Proof.
  revert i. induction l as [|y l IH]; intros i Hi Hfg; [done|].
  destruct i as [|i]; cbn in *.
  - injection Hi as ->. by rewrite Hfg.
  - f_equal. by apply IH.
Qed.

Lemma alter_const_id {A} (l : list A) i x :
  l !! i = Some x -> alter (fun _ => x) i l = l.
Proof.
  revert i. induction l as [|y l IH]; intros i Hi; [done|].
  destruct i as [|i]; cbn in *.
  - by injection Hi as ->.
  - f_equal. by apply IH.
Qed.

Lemma modify_at_ext_at p : forall (f g : tree R -> tree R) T t,
  node_at T p = Some t -> f t = g t -> modify_at p f T = modify_at p g T.
Proof.
  induction p as [|i q IH]; intros f g T t Ht Hfg.
  - cbn in *. by injection Ht as ->.
  - apply node_at_child_lt in Ht as (m & Hm & Hi).
    cbn [modify_at]. apply (IH _ _ T m Hm).
    f_equal. by eapply alter_ext_at.
Qed.

Lemma modify_at_same p : forall T t,
  node_at T p = Some t -> modify_at p (fun _ => t) T = T.
Proof.
  induction p as [|i q IH]; intros T t Ht.
  - cbn in *. by injection Ht as ->.
  - apply node_at_child_lt in Ht as (m & Hm & Hi).
    cbn [modify_at]. rewrite <- (IH T m Hm) at 2.
    apply (modify_at_ext_at q _ _ T m Hm).
    rewrite (alter_const_id _ _ _ Hi). by destruct m.
Qed.

(** Two changes of the node at [p] are one. *)
Lemma modify_at_twice p : forall (f g : tree R -> tree R) T t,
  node_at T p = Some t ->
  modify_at p f (modify_at p g T) = modify_at p (fun _ => f (g t)) T.
Proof.
  induction p as [|i q IH]; intros f g T t Ht.
  - cbn in *. by injection Ht as ->.
  - apply node_at_child_lt in Ht as (m & Hm & Hi).
    cbn [modify_at]. rewrite (IH _ _ T m Hm).
    apply (modify_at_ext_at q _ _ T m Hm). cbn. f_equal.
    rewrite list_alter_alter_eq. by apply (alter_ext_at _ _ _ _ t).
Qed.

Lemma postorder_names t : forall p,
  (fun x => name x.2) <$> postorder t p = node_names t.
Proof.
  induction t as [nm l cs IH] using tree_ind. intros p.
  rewrite postorder_eq, fmap_app. cbn [node_names]. f_equal.
  generalize 0.
  induction cs as [|c cs IHcs]; intros i; [done|].
  apply Forall_cons in IH as [IHc IH].
  rewrite post_children_cons, fmap_app, IHc, IHcs by done. done.
Qed.

Lemma elem_of_post_children (cs : list (tree R)) i c k p x :
  cs !! i = Some c ->
  x ∈ postorder c ((k + i) :: p) ->
  x ∈ post_children postorder p cs k.
Proof.
  revert i k. induction cs as [|y cs IH]; intros i k Hc Hx; [done|].
  rewrite post_children_cons, elem_of_app.
  destruct i as [|i]; cbn in Hc.
  - injection Hc as ->. left. by rewrite Nat.add_0_r in Hx.
  - right. apply (IH i (S k) Hc). by rewrite Nat.add_succ_r in Hx.
Qed.

Lemma node_at_postorder a : forall n s p,
  node_at n a = Some s -> (a ++ p, s) ∈ postorder n p.
Proof.
  induction a as [|i a IH] using rev_ind; intros n s p Hs.
  - cbn in Hs. injection Hs as ->. destruct s as [nm l cs].
    rewrite postorder_eq, elem_of_app, list_elem_of_singleton. by right.
  - assert (Hsplit : exists c, children n !! i = Some c /\ node_at c a = Some s).
    { clear IH. revert s Hs. induction a as [|j a IHa]; intros s Hs.
      - cbn in Hs. eauto.
      - cbn [app] in Hs. rewrite node_at_cons in Hs.
        destruct (node_at n (a ++ [i])) as [m|] eqn:Hm; [|done].
        destruct (IHa m eq_refl) as (c & Hc & Hm').
        exists c. split; [done|]. by rewrite node_at_cons, Hm'. }
    destruct Hsplit as (c & Hc & Hs').
    specialize (IH c s (i :: p) Hs'). rewrite <- (assoc_L (++)). cbn [app].
    destruct n as [nm l cs]. cbn [children] in Hc.
    rewrite postorder_eq, elem_of_app. left.
    by apply (elem_of_post_children cs i c 0).
Qed.


(** *** Names under a change *)

Lemma join_alter_submseteq {A B} (g : A -> list B) (f : A -> A) (cs : list A)
    i (x : A) :
  cs !! i = Some x -> g (f x) ⊆+ g x ->
  mjoin (g <$> alter f i cs) ⊆+ mjoin (g <$> cs).
Proof.
  revert i. induction cs as [|c cs IH]; intros i Hi Hsub; [done|].
  destruct i as [|i]; cbn in *.
  - injection Hi as ->. by apply submseteq_app.
  - apply submseteq_app; [done|]. by apply IH.
Qed.

Lemma node_names_modify_at p : forall (f : tree R -> tree R) T t,
  node_at T p = Some t ->
  node_names (f t) ⊆+ node_names t ->
  node_names (modify_at p f T) ⊆+ node_names T.
Proof.
  induction p as [|i q IH]; intros f T t Ht Hsub.
  - cbn in *. by injection Ht as ->.
  - apply node_at_child_lt in Ht as (m & Hm & Hi).
    cbn [modify_at]. apply (IH _ T m Hm).
    destruct m as [nm l cs]. cbn [children name branch_length node_names] in *.
    apply submseteq_app; [|done].
    by apply (join_alter_submseteq _ _ _ _ t).
Qed.

(** *** [find] when names are unique *)

Lemma NoDup_fmap_elem_inj {A B} (f : A -> B) (l : list A) x y :
  NoDup (f <$> l) -> x ∈ l -> y ∈ l -> f x = f y -> x = y.
Proof.
  induction l as [|z l IH]; intros Hnd Hx Hy Hf; [by apply elem_of_nil in Hx|].
  rewrite fmap_cons in Hnd. apply NoDup_cons in Hnd as [Hz Hnd].
  apply elem_of_cons in Hx as [->|Hx]; apply elem_of_cons in Hy as [->|Hy].
  - done.
  - exfalso. apply Hz. rewrite Hf. by apply list_elem_of_fmap_2.
  - exfalso. apply Hz. rewrite <- Hf. by apply list_elem_of_fmap_2.
  - by apply IH.
Qed.

Lemma elem_of_named (b : bool) T l a :
  (l, a) ∈ named b T <->
  exists n, (a, n) ∈ postorder T [] /\ is_tip n = b /\ name n = Some l.
Proof.
  unfold named. rewrite list_elem_of_omap. split.
  - intros ([a' n] & Hin & Hg). cbn in Hg.
    case_bool_decide as Hb; [|done].
    destruct (name n) as [l'|] eqn:Hn; [|done]. cbn in Hg.
    injection Hg as -> ->. eauto.
  - intros (n & Hin & Hb & Hn). exists (a, n). split; [done|]. cbn.
    rewrite bool_decide_eq_true_2 by done. by rewrite Hn.
Qed.

Lemma omap_submseteq {A B} (f : A -> option B) (l k : list A) :
  l ⊆+ k -> omap f l ⊆+ omap f k.
Proof.
  induction 1 as [|x l k Hlk IH|x y l|x l k Hlk IH|l k m Hlk IH1 Hkm IH2].
  - done.
  - cbn. destruct (f x); [by apply submseteq_skip|done].
  - cbn. destruct (f x), (f y); try done. apply submseteq_swap.
  - cbn. destruct (f x); [by apply submseteq_cons|done].
  - by etrans.
Qed.

Lemma omap_fmap {A B C} (g : A -> B) (f : B -> option C) (l : list A) :
  omap f (g <$> l) = omap (fun x => f (g x)) l.
Proof.
  induction l as [|x l IH]; [done|]. cbn. rewrite IH. done.
Qed.

Lemma NoDup_omap_inj {A B} (f : A -> option B) (l : list A) x y z :
  NoDup (omap f l) -> x ∈ l -> y ∈ l -> f x = Some z -> f y = Some z -> x = y.
Proof.
  induction l as [|a l IH]; intros Hnd Hx Hy Hfx Hfy;
    [by apply elem_of_nil in Hx|].
  assert (Hin : forall w, w ∈ l -> f w = Some z -> z ∈ omap f l).
  { intros w Hw Hfw. apply list_elem_of_omap. eauto. }
  cbn [omap list_omap] in Hnd.
  apply elem_of_cons in Hx as [->|Hx]; apply elem_of_cons in Hy as [->|Hy].
  - done.
  - exfalso. rewrite Hfx in Hnd. apply NoDup_cons in Hnd as [Hz _]. eauto.
  - exfalso. rewrite Hfy in Hnd. apply NoDup_cons in Hnd as [Hz _]. eauto.
  - apply IH; try done. destruct (f a); [by apply NoDup_cons in Hnd as [_ ?]|done].
Qed.

(** Distinct names are distinct where they are present. *)
Lemma NoDup_present T : NoDup (node_names T) -> NoDup (present_names T).
Proof.
  unfold present_names. induction (node_names T) as [|x l IH];
    [intros; constructor|].
  intros [Hx Hl]%NoDup_cons. destruct x as [s|]; cbn; [|by apply IH].
  apply NoDup_cons. split; [|by apply IH].
  intros (y & Hy & Hs)%list_elem_of_omap. cbn in Hs. by subst y.
Qed.

Lemma present_names_postorder T p :
  present_names T = omap (fun x => name x.2) (postorder T p).
Proof.
  unfold present_names. by rewrite <- (postorder_names T p), omap_fmap.
Qed.

Lemma present_names_modify_at p (f : tree R -> tree R) T t :
  node_at T p = Some t ->
  node_names (f t) ⊆+ node_names t ->
  present_names (modify_at p f T) ⊆+ present_names T.
Proof.
  intros Ht Hsub. by apply omap_submseteq, (node_names_modify_at p f T t).
Qed.

Lemma named_NoDup (b : bool) T :
  NoDup (present_names T) -> NoDup (fst <$> named b T).
Proof.
  rewrite (present_names_postorder T []). unfold named.
  induction (postorder T []) as [|x l IH]; intros Hnd; [constructor|].
  cbn [omap list_omap] in Hnd |- *.
  assert (Hl : NoDup (omap (fun x => name x.2) l))
    by (destruct (name x.2); [by apply NoDup_cons in Hnd as [_ ?]|done]).
  case_bool_decide as Hb; [|by apply IH].
  destruct (name x.2) as [sx|] eqn:Hsx; cbn; [|by apply IH].
  apply NoDup_cons in Hnd as [Hx _].
  apply NoDup_cons. split; [|by apply IH].
  intros ([s' a'] & Hs & Hin)%list_elem_of_fmap. cbn in Hs. subst s'.
  apply list_elem_of_omap in Hin as (y & Hy & Hgy).
  apply Hx. apply list_elem_of_omap. exists y. split; [done|].
  destruct (bool_decide (is_tip y.2 = b)); [|done].
  destruct (name y.2) as [sy|]; [|done]. cbn in Hgy. congruence.
Qed.

Lemma lookup_name_Some l cache a :
  lookup_name l cache = Some a -> (l, a) ∈ cache.
Proof.
  unfold lookup_name.
  destruct (list_find _ cache) as [[i [l' a']]|] eqn:Hfind; [|done].
  cbn. intros [= ->]. apply list_find_Some in Hfind as (Hi & Hl & _).
  cbn in Hl. subst l'. by eapply list_elem_of_lookup_2.
Qed.

Lemma lookup_name_None l cache a :
  lookup_name l cache = None -> (l, a) ∉ cache.
Proof.
  unfold lookup_name.
  destruct (list_find _ cache) as [[i [l' a']]|] eqn:Hfind; [done|].
  intros _ Hin. apply list_find_None in Hfind.
  rewrite Forall_forall in Hfind. by apply (Hfind _ Hin).
Qed.

Lemma find_Some T l p :
  find T (Some l) = Ok p -> exists t, node_at T p = Some t /\ name t = Some l.
Proof.
  unfold find. case_bool_decide; [|done].
  destruct (lookup_name l (named true T)) as [a|] eqn:Htip.
  - intros [= ->]. apply lookup_name_Some, elem_of_named in Htip
      as (n & Hin & _ & Hn).
    apply postorder_node_at in Hin as (a' & -> & Hn').
    exists n. by rewrite app_nil_r.
  - destruct (lookup_name l (named false T)) as [a|] eqn:Hnon; [|done].
    cbn. intros [= ->]. apply lookup_name_Some, elem_of_named in Hnon
      as (n & Hin & _ & Hn).
    apply postorder_node_at in Hin as (a' & -> & Hn').
    exists n. by rewrite app_nil_r.
Qed.

Lemma find_unique T l p t :
  NoDup (present_names T) ->
  node_at T p = Some t -> name t = Some l ->
  find T (Some l) = Ok p.
Proof.
  intros Hnd Ht Hl. unfold find.
  rewrite bool_decide_eq_true_2 by by apply named_NoDup.
  assert (Hin : (p, t) ∈ postorder T []).
  { apply (node_at_postorder p T t []) in Ht. by rewrite app_nil_r in Ht. }
  assert (Huniq : forall b a, (l, a) ∈ named b T -> a = p /\ is_tip t = b).
  { intros b a (n & Hn & Hb & Hnl)%elem_of_named.
    rewrite (present_names_postorder T []) in Hnd.
    assert ((a, n) = (p, t)) as [= -> ->]; [|done].
    by apply (NoDup_omap_inj (fun x => name x.2) _ _ _ l Hnd Hn Hin). }
  assert (Hmem : (l, p) ∈ named (is_tip t) T)
    by (apply elem_of_named; eauto).
  destruct (lookup_name l (named true T)) as [a|] eqn:Htip.
  - apply lookup_name_Some in Htip. by destruct (Huniq _ _ Htip) as [-> _].
  - destruct (lookup_name l (named false T)) as [a|] eqn:Hnon.
    + apply lookup_name_Some in Hnon. by destruct (Huniq _ _ Hnon) as [-> _].
    + exfalso. destruct (is_tip t).
      * by apply (lookup_name_None _ _ p Htip).
      * by apply (lookup_name_None _ _ p Hnon).
Qed.

End idem.

Section distinct.
Context {R : Type} `{LengthOps R}.
Implicit Types (T n s t : tree R) (p q : addr) (ss ks : list (tree R)).

(** *** Rebuilding the children when the source names are distinct *)

Lemma append_child_fresh (acc : list (tree R)) x :
  (forall y, y ∈ acc -> name y <> name x) -> append_child acc x = acc ++ [x].
Proof.
  intros Hfresh. unfold append_child. f_equal.
  induction acc as [|y acc IH]; [done|].
  rewrite filter_cons_True by (apply Hfresh; by left).
  f_equal. apply IH. intros z Hz. apply Hfresh. by right.
Qed.

Lemma reorder_acc ks ss : forall acc new,
  NoDup (name <$> ss) ->
  (forall y, y ∈ acc -> name y ∉ name <$> ss) ->
  for_each (fun new c => x ← or_raise ChildMismatch (name2child ks !! name c);
                         Ok (append_child new x)) acc ss = Ok new ->
  exists rest, new = acc ++ rest
    /\ Forall2 (fun s k => name2child ks !! name s = Some k) ss rest.
Proof.
  induction ss as [|c ss IH]; intros acc new Hnd Hacc Hfold.
  - cbn in Hfold. injection Hfold as <-. exists []. by rewrite app_nil_r.
  - rewrite for_each_cons in Hfold. rewrite fmap_cons in Hnd, Hacc.
    apply NoDup_cons in Hnd as [Hc Hnd].
    destruct (name2child ks !! name c) as [x|] eqn:Hx; [|done].
    cbn [or_raise] in Hfold. rewrite !bind_Ok in Hfold.
    pose proof (name2child_Some _ _ _ Hx) as [_ Hxn].
    rewrite append_child_fresh in Hfold.
    2:{ intros y Hy Heq. apply (Hacc y Hy). rewrite Heq, Hxn. by left. }
    destruct (IH (acc ++ [x]) new Hnd) as (rest & -> & Hrest); [|done|].
    + intros y [Hy| ->%list_elem_of_singleton]%elem_of_app.
      * intros Hin. apply (Hacc y Hy). by right.
      * by rewrite Hxn.
    + exists (x :: rest). rewrite <- (assoc_L (++)). split; [done|].
      by constructor.
Qed.

Lemma reorder_acc_conv ks ss : forall acc rest,
  NoDup (name <$> ss) ->
  (forall y, y ∈ acc -> name y ∉ name <$> ss) ->
  Forall2 (fun s k => name2child ks !! name s = Some k) ss rest ->
  for_each (fun new c => x ← or_raise ChildMismatch (name2child ks !! name c);
                         Ok (append_child new x)) acc ss = Ok (acc ++ rest).
Proof.
  induction ss as [|c ss IH]; intros acc rest Hnd Hacc Hall.
  - inversion Hall. by rewrite app_nil_r.
  - inversion Hall as [|? x ? rest' Hx Hrest]; subst.
    rewrite for_each_cons, Hx. cbn [or_raise]. rewrite !bind_Ok.
    rewrite fmap_cons in Hnd, Hacc. apply NoDup_cons in Hnd as [Hc Hnd].
    pose proof (name2child_Some _ _ _ Hx) as [_ Hxn].
    rewrite append_child_fresh.
    2:{ intros y Hy Heq. apply (Hacc y Hy). rewrite Heq, Hxn. by left. }
    rewrite (IH _ rest' Hnd); [by rewrite <- (assoc_L (++))| |done].
    intros y [Hy| ->%list_elem_of_singleton]%elem_of_app.
    + intros Hin. apply (Hacc y Hy). by right.
    + by rewrite Hxn.
Qed.

Lemma reorder_children_distinct ss ks new :
  NoDup (name <$> ss) ->
  reorder_children ss ks = Ok new <->
  Forall2 (fun s k => name2child ks !! name s = Some k) ss new.
Proof.
  intros Hnd. unfold reorder_children. split.
  - intros Hfold. destruct (reorder_acc ks ss [] new Hnd) as (rest & -> & Hrest);
      [|done|done].
    intros y Hy. by apply elem_of_nil in Hy.
  - intros Hall. apply (reorder_acc_conv ks ss [] new Hnd); [|done].
    intros y Hy. by apply elem_of_nil in Hy.
Qed.

Lemma reorder_children_names ss ks new :
  Forall2 (fun s k => name2child ks !! name s = Some k) ss new ->
  name <$> new = name <$> ss /\ Forall (fun k => k ∈ ks) new.
Proof.
  induction 1 as [|s k ss new Hk Hall [IHn IHin]]; [done|].
  apply name2child_Some in Hk as [Hin Hnm].
  rewrite !fmap_cons, Hnm, IHn. split; [done|]. by constructor.
Qed.

Lemma name2child_distinct ks k :
  NoDup (name <$> ks) -> k ∈ ks -> name2child ks !! name k = Some k.
Proof.
  intros Hnd Hk.
  destruct (proj2 (name2child_is_Some ks (name k))) as [x Hx]; [eauto|].
  rewrite Hx. f_equal. apply name2child_Some in Hx as [Hx Hnm].
  by apply (NoDup_fmap_elem_inj name ks).
Qed.

(** Children that carry the source names in the source order stay. *)
Lemma reorder_children_fixed ss ks :
  NoDup (name <$> ss) -> name <$> ks = name <$> ss ->
  reorder_children ss ks = Ok ks.
Proof.
  intros Hnd Hnames. apply reorder_children_distinct; [done|].
  assert (Hks : NoDup (name <$> ks)) by by rewrite Hnames.
  assert (Hall : Forall (fun k => name2child ks !! name k = Some k) ks).
  { apply Forall_forall. intros k Hk. by apply name2child_distinct. }
  clear Hnd Hks. revert Hall. generalize ks at 1 3.
  intros ks0 Hall. revert ss Hnames.
  induction Hall as [|k ks' Hk Hall IH]; intros ss Hnames.
  - destruct ss; [constructor|done].
  - destruct ss as [|s ss]; [done|]. rewrite !fmap_cons in Hnames.
    injection Hnames as Hn Hnames. constructor; [by rewrite <- Hn|by apply IH].
Qed.

End distinct.

Section aligned.
Context {R : Type} `{LengthOps R}.
Implicit Types (T n s t : tree R) (p q : addr) (ss ks : list (tree R)).

Lemma submseteq_NoDup {A} (l k : list A) : l ⊆+ k -> NoDup k -> NoDup l.
Proof.
  intros [k' Hk]%submseteq_Permutation Hnd. rewrite Hk in Hnd.
  by apply NoDup_app in Hnd as (? & _ & _).
Qed.

Lemma join_submseteq {A B} (g : A -> list B) (l k : list A) :
  l ⊆+ k -> mjoin (g <$> l) ⊆+ mjoin (g <$> k).
Proof.
  induction 1 as [|x l k Hlk IH|x y l|x l k Hlk IH|l k m Hlk IH1 Hkm IH2].
  - done.
  - cbn. by apply submseteq_skips_l.
  - cbn. rewrite !(assoc_L (++)). apply submseteq_skips_r.
    by rewrite (Permutation_app_comm (g y)).
  - cbn. by apply submseteq_inserts_l.
  - by etrans.
Qed.

Lemma join_submseteq_Forall2 {A B} (g : A -> list B) (l k : list A) :
  Forall2 (fun a b => g b ⊆+ g a) l k -> mjoin (g <$> k) ⊆+ mjoin (g <$> l).
Proof.
  induction 1 as [|a b l k Hab Hlk IH]; [done|].
  cbn. by apply submseteq_app.
Qed.

Lemma name_in_node_names t : name t ∈ node_names t.
Proof. destruct t as [nm l cs]. cbn. apply elem_of_app. right. by left. Qed.

Lemma NoDup_children_names (cs : list (tree R)) :
  NoDup (mjoin (node_names <$> cs)) ->
  NoDup (name <$> cs) /\ Forall (fun c => NoDup (node_names c)) cs.
Proof.
  induction cs as [|c cs IH]; intros Hnd.
  - split; constructor.
  - cbn in Hnd. apply NoDup_app in Hnd as (Hc & Hdisj & Hcs).
    destruct (IH Hcs) as [IHn IHf]. split; [|by constructor].
    rewrite fmap_cons. apply NoDup_cons. split; [|done].
    intros (c' & Hnm & Hc')%list_elem_of_fmap.
    apply (Hdisj (name c)); [apply name_in_node_names|].
    apply list_elem_of_join. exists (node_names c'). split.
    + rewrite Hnm. apply name_in_node_names.
    + by apply list_elem_of_fmap_2.
Qed.

Lemma node_names_NoDup_inv nm l (cs : list (tree R)) :
  NoDup (node_names (Node nm l cs)) ->
  NoDup (name <$> cs) /\ Forall (fun c => NoDup (node_names c)) cs.
Proof.
  cbn. intros (Hcs & _ & _)%NoDup_app. by apply NoDup_children_names.
Qed.

(** *** [align] *)

Lemma align_tip nm l t : align (Node nm l []) t = Ok t.
Proof. by destruct nm. Qed.

Lemma align_internal label l c cs t :
  label <> "" ->
  align (Node (Some label) l (c :: cs)) t =
    (kids ← reorder_children (c :: cs) (children t);
     kids' ← align_children align (c :: cs) kids;
     Ok (set_children kids' t)).
Proof.
  intros Hl. cbn [align]. by rewrite bool_decide_eq_false_2.
Qed.

Lemma align_children_cons (f : tree R -> tree R -> result (tree R)) s ss k ks :
  align_children f (s :: ss) (k :: ks) =
    (k' ← f s k; r ← align_children f ss ks; Ok (k' :: r)).
Proof. reflexivity. Qed.

Lemma align_children_Forall3 (f : tree R -> tree R -> result (tree R)) ss :
  forall ks ks',
    length ss = length ks ->
    align_children f ss ks = Ok ks' ->
    Forall3 (fun s k k' => f s k = Ok k') ss ks ks'.
Proof.
  induction ss as [|s ss IH]; intros [|k ks] ks' Hlen Hal; try done.
  - cbn in Hal. injection Hal as <-. constructor.
  - rewrite align_children_cons in Hal.
    destruct (f s k) as [k'|] eqn:Hk; [|done]. rewrite bind_Ok in Hal.
    destruct (align_children f ss ks) as [r|] eqn:Hr; [|done].
    rewrite bind_Ok in Hal. injection Hal as <-.
    constructor; [done|]. apply IH; [|done]. simpl in Hlen. lia.
Qed.

Lemma align_children_of_Forall3 (f : tree R -> tree R -> result (tree R)) ss ks ks' :
  Forall3 (fun s k k' => f s k = Ok k') ss ks ks' ->
  align_children f ss ks = Ok ks'.
Proof.
  induction 1 as [|s k k' ss ks ks' Hk Hall IH]; [done|].
  by rewrite align_children_cons, Hk, bind_Ok, IH.
Qed.

(** The result of [align] keeps the name and the length of the target
    node, and holds no node more than it. *)
Lemma align_sub s : forall t t',
  NoDup (node_names s) ->
  align s t = Ok t' ->
  name t' = name t /\ branch_length t' = branch_length t
  /\ node_names t' ⊆+ node_names t.
Proof.
  induction s as [nm l ss IH] using tree_ind. intros t t' Hnd Hal.
  destruct ss as [|c cs]; [rewrite align_tip in Hal; by injection Hal as <-|].
  destruct nm as [label|]; [|done].
  destruct (decide (label = "")) as [->|Hl]; [done|].
  rewrite align_internal in Hal by done.
  destruct (reorder_children (c :: cs) (children t)) as [kids|] eqn:Hkids;
    [|done].
  rewrite bind_Ok in Hal.
  destruct (align_children align (c :: cs) kids) as [kids'|] eqn:Hkids';
    [|done].
  rewrite bind_Ok in Hal. injection Hal as <-.
  apply node_names_NoDup_inv in Hnd as [Hnames Hnds].
  apply reorder_children_distinct in Hkids; [|done].
  pose proof (reorder_children_names _ _ _ Hkids) as [Hkn Hkin].
  apply align_children_Forall3 in Hkids'.
  2:{ apply (f_equal length) in Hkn. by rewrite !length_fmap in Hkn. }
  split; [done|]. split; [done|].
  destruct t as [tn tl tcs]. cbn [set_children name branch_length children
                                  node_names] in *.
  apply submseteq_skips_r. etrans.
  - apply join_submseteq_Forall2 with (l := kids).
    clear -IH Hnds Hkids'.
    induction Hkids' as [|s k k' ss ks ks' Hk Hall IHall]; [constructor|].
    apply Forall_cons in IH as [IHs IH].
    apply Forall_cons in Hnds as [Hs Hnds].
    constructor; [by apply (IHs k k' Hs Hk)|by apply IHall].
  - apply join_submseteq, NoDup_submseteq.
    + apply (NoDup_fmap_1 name). by rewrite Hkn.
    + by apply Forall_forall.
Qed.


(** Aligning what is aligned changes nothing. *)
Lemma align_idem s : forall t t',
  NoDup (node_names s) -> align s t = Ok t' -> align s t' = Ok t'.
Proof.
  induction s as [nm l ss IH] using tree_ind. intros t t' Hnd Hal.
  destruct ss as [|c cs]; [by rewrite align_tip|].
  destruct nm as [label|]; [|done].
  destruct (decide (label = "")) as [->|Hl]; [done|].
  rewrite align_internal in Hal |- * by done.
  destruct (reorder_children (c :: cs) (children t)) as [kids|] eqn:Hkids;
    [|done].
  rewrite bind_Ok in Hal.
  destruct (align_children align (c :: cs) kids) as [kids'|] eqn:Hkids';
    [|done].
  rewrite bind_Ok in Hal. injection Hal as <-.
  apply node_names_NoDup_inv in Hnd as [Hnames Hnds].
  apply reorder_children_distinct in Hkids; [|done].
  pose proof (reorder_children_names _ _ _ Hkids) as [Hkn _].
  apply align_children_Forall3 in Hkids'.
  2:{ apply (f_equal length) in Hkn. by rewrite !length_fmap in Hkn. }
  assert (Hstep : Forall3 (fun s k k' =>
            name k' = name k /\ align s k' = Ok k') (c :: cs) kids kids').
  { clear -IH Hnds Hkids'.
    induction Hkids' as [|s k k' ss ks ks' Hk Hall IHall]; [constructor|].
    apply Forall_cons in IH as [IHs IH].
    apply Forall_cons in Hnds as [Hs Hnds].
    constructor; [|by apply IHall].
    split; [by apply (align_sub s k k' Hs Hk)|by apply (IHs k k' Hs Hk)]. }
  assert (Hnames' : name <$> kids' = name <$> (c :: cs)).
  { rewrite <- Hkn. clear -Hstep.
    induction Hstep as [|s k k' ss ks ks' [Hk _] Hall IHall]; [done|].
    by rewrite !fmap_cons, Hk, IHall. }
  cbn [children set_children].
  rewrite (reorder_children_fixed _ _ Hnames Hnames'), bind_Ok.
  rewrite (align_children_of_Forall3 align (c :: cs) kids' kids'); [done|].
  clear -Hstep.
  induction Hstep as [|s k k' ss ks ks' [_ Hk] Hall IHall]; by constructor.
Qed.

(** *** The loop is [align] at the node found for the apex of [src] *)

Lemma for_each_app {A S} (f : S -> A -> result S) st l1 l2 :
  for_each f st (l1 ++ l2) = (st' ← for_each f st l1; for_each f st' l2).
Proof.
  revert st. induction l1 as [|x l1 IH]; intros st; [done|].
  cbn [app]. rewrite !for_each_cons.
  destruct (f st x) as [st'|]; [|done]. by rewrite !bind_Ok, IH.
Qed.

Lemma preorder_eq nm l (cs : list (tree R)) :
  preorder (Node nm l cs) = Node nm l cs :: mjoin (preorder <$> cs).
Proof. reflexivity. Qed.

Lemma reorder_node_tip (res : tree R) nm l :
  reorder_node res (Node nm l []) = Ok res.
Proof. reflexivity. Qed.

Lemma reorder_node_internal (res : tree R) label l c cs :
  label <> "" ->
  reorder_node res (Node (Some label) l (c :: cs)) =
    (p ← find res (Some label);
     ntrg ← or_raise AttributeError (node_at res p);
     kids ← reorder_children (c :: cs) (children ntrg);
     Ok (modify_at p (set_children kids) res)).
Proof.
  intros Hl. unfold reorder_node. cbn [is_tip children name].
  by rewrite bool_decide_eq_false_2.
Qed.

Lemma node_at_modify_child T p i (f : tree R -> tree R) t0 pre k post :
  node_at T p = Some (set_children (pre ++ k :: post) t0) ->
  i = length pre ->
  node_at T (i :: p) = Some k
  /\ node_at (modify_at (i :: p) f T) p
     = Some (set_children ((pre ++ [f k]) ++ post) t0).
Proof.
  intros Ht ->. split.
  - rewrite node_at_cons, Ht. cbn. by apply list_lookup_middle.
  - cbn [modify_at]. rewrite (node_at_modify_at p _ T _ Ht).
    cbn. unfold set_children. do 2 f_equal.
    rewrite alter_app_r_alt by done. rewrite Nat.sub_diag.
    by rewrite <- (assoc_L (++)).
Qed.

Section fold_children.
Variable ss0 : list (tree R).
Hypothesis IH : Forall (fun s => forall T p t,
  NoDup (node_names s) -> NoDup (present_names T) ->
  node_at T p = Some t -> name t = name s ->
  for_each reorder_node T (preorder s)
  = (t' ← align s t; Ok (modify_at p (fun _ => t') T))) ss0.

(** The loop over the subtrees of the children. *)
Lemma fold_children ss ks :
  Forall2 (fun s k => name k = name s) ss ks ->
  ss ⊆ ss0 ->
  Forall (fun s => NoDup (node_names s)) ss ->
  forall pre T p t0,
    NoDup (present_names T) ->
    node_at T p = Some (set_children (pre ++ ks) t0) ->
    for_each reorder_node T (mjoin (preorder <$> ss))
    = (ks' ← align_children align ss ks;
       Ok (modify_at p (fun _ => set_children (pre ++ ks') t0) T)).
Proof using IH.
  induction 1 as [|s k ss ks Hk Hall IHall]; intros Hsub Hnds pre T p t0 HT Ht.
  - cbn. f_equal. symmetry. by apply modify_at_same.
  - apply Forall_cons in Hnds as [Hs Hnds].
    rewrite fmap_cons. cbn [mjoin list_join]. rewrite for_each_app.
    destruct (node_at_modify_child T p (length pre) (fun _ => k) t0 pre k ks Ht
                eq_refl) as [Hnode _].
    rewrite Forall_forall in IH.
    rewrite (IH s ltac:(apply Hsub; by left) T (length pre :: p) k Hs HT Hnode Hk).
    rewrite align_children_cons.
    destruct (align s k) as [k'|] eqn:Hal; [|done]. rewrite !bind_Ok.
    destruct (node_at_modify_child T p (length pre) (fun _ => k') t0 pre k ks Ht
                eq_refl) as [_ Hnode'].
    rewrite (IHall ltac:(set_solver) Hnds (pre ++ [k']) _ p t0); [| |done].
    + destruct (align_children align ss ks) as [ks'|]; [|done].
      rewrite !bind_Ok. f_equal. cbn [modify_at].
      rewrite (modify_at_twice p _ _ T _ Ht).
      by rewrite <- (assoc_L (++)).
    + eapply submseteq_NoDup; [|exact HT].
      apply (present_names_modify_at _ _ T k Hnode).
      by apply (align_sub s k k' Hs Hal).
Qed.

End fold_children.

Lemma fold_align s : forall T p t,
  NoDup (node_names s) -> NoDup (present_names T) ->
  node_at T p = Some t -> name t = name s ->
  for_each reorder_node T (preorder s)
  = (t' ← align s t; Ok (modify_at p (fun _ => t') T)).
Proof.
  induction s as [nm l ss IH] using tree_ind. intros T p t Hs HT Ht Hname.
  rewrite preorder_eq, for_each_cons.
  destruct ss as [|c cs].
  - rewrite reorder_node_tip, bind_Ok, align_tip, bind_Ok. cbn.
    f_equal. symmetry. by apply modify_at_same.
  - destruct nm as [label|]; [|done].
    destruct (decide (label = "")) as [->|Hl]; [done|].
    rewrite align_internal by done.
    rewrite reorder_node_internal by done.
    rewrite (find_unique T label p t HT Ht Hname), bind_Ok, Ht.
    cbn [or_raise]. rewrite bind_Ok.
    destruct (reorder_children (c :: cs) (children t)) as [kids|] eqn:Hkids;
      [|done].
    rewrite !bind_Ok.
    pose proof (node_names_NoDup_inv _ _ _ Hs) as [Hnames Hnds].
    apply reorder_children_distinct in Hkids as Hkids2; [|done].
    pose proof (reorder_children_names _ _ _ Hkids2) as [Hkn Hkin].
    rewrite (fold_children (c :: cs) IH (c :: cs) kids) with (pre := [])
                                                             (p := p) (t0 := t).
    + destruct (align_children align (c :: cs) kids) as [kids'|]; [|done].
      rewrite !bind_Ok. f_equal.
      by rewrite (modify_at_twice p _ _ T t Ht).
    + clear -Hkids2. induction Hkids2 as [|s k ss ks Hk Hall IHall];
        [constructor|].
      constructor; [|done]. by apply name2child_Some in Hk as [_ ->].
    + done.
    + done.
    + eapply submseteq_NoDup; [|exact HT].
      apply (present_names_modify_at _ _ T t Ht).
      destruct t as [tn tl tcs]. cbn [set_children name branch_length children
                                      node_names] in *.
      apply submseteq_skips_r, join_submseteq, NoDup_submseteq.
      * apply (NoDup_fmap_1 name). by rewrite Hkn.
      * by apply Forall_forall.
    + by apply node_at_modify_at.
Qed.

End aligned.

(** C9, for trees with unique identifiers, as the docstring of
    [restore_node_order] requires ("All tips and internal nodes must have
    unique identifiers"): when no two nodes of [src] share a name, and no
    two nodes of [trg] share a name that is present (nodes without a name
    may be many), a second run on the result of a successful run succeeds
    and returns the same tree. *)
Theorem restore_node_order_idempotent {R} `{LengthOps R} (src trg res : tree R) :
  NoDup (node_names src) -> NoDup (present_names trg) ->
  restore_node_order src trg = Ok res ->
  restore_node_order src res = Ok res.
Proof.
  intros Hs Ht. unfold restore_node_order.
  destruct src as [nm l [|c cs]].
  - rewrite preorder_eq. cbn [fmap list_fmap mjoin list_join].
    rewrite !for_each_cons, !reorder_node_tip, !bind_Ok. cbn.
    by intros [= ->].
  - intros Hrun. pose proof Hrun as Hfirst.
    rewrite preorder_eq, for_each_cons in Hfirst.
    destruct nm as [label|]; [|done].
    destruct (decide (label = "")) as [->|Hl]; [done|].
    rewrite reorder_node_internal in Hfirst by done.
    destruct (find trg (Some label)) as [p|] eqn:Hfind; [|done].
    apply find_Some in Hfind as (t & Hp & Hname).
    rewrite (fold_align _ trg p t Hs Ht Hp Hname) in Hrun.
    destruct (align _ t) as [t'|] eqn:Hal; [|done].
    rewrite bind_Ok in Hrun. injection Hrun as <-.
    pose proof (align_sub _ t t' Hs Hal) as (Hn' & _ & Hsub).
    rewrite (fold_align _ _ p t' Hs).
    + rewrite (align_idem _ t t' Hs Hal), bind_Ok. f_equal.
      by rewrite (modify_at_twice p _ _ trg t Hp).
    + eapply submseteq_NoDup; [|exact Ht].
      by apply (present_names_modify_at _ _ trg t Hp).
    + by rewrite (node_at_modify_at p _ trg t Hp).
    + by rewrite Hn'.
Qed.

Lemma restore_node_order_idempotent_witness :
  ~ NoDup (node_names Ex.trg_many)
  /\ restore_node_order Ex.src Ex.trg_many = Ok Ex.src
  /\ restore_node_order Ex.src Ex.src = Ok Ex.src.
Proof.
  split; [compute_done|]. split; [reflexivity|].
  apply (restore_node_order_idempotent Ex.src Ex.trg_many Ex.src);
    compute_done.
Defined.

(** The identifiers have to be unique for that.  On [((p,q)x,(s)w)r;] and
    [(((s,(q,p)x)w)x,(z)w)r;], where two nodes are named [x] and two [w],
    the first run succeeds; it reorders the inner [x], the first found, and
    then drops it with the extra child of the inner [w].  The second run
    finds the outer [x], which has no child named [p]. *)
Lemma restore_node_order_not_idempotent :
  restore_node_order Ex.src_dup Ex.trg_dup = Ok Ex.res_dup
  /\ restore_node_order Ex.src_dup Ex.res_dup = Err ChildMismatch.
Proof. split; vm_compute; reflexivity. Qed.

(** * Further properties *)

(** ** The two solutions of [walk_copy], and walking down *)

Section solutions.
Context {R : Type} `{LengthOps R}.
Implicit Types (T n : tree R) (p q : addr).

Lemma mapM_ext {A B} (f g : A -> result B) (l : list A) :
  (forall x, x ∈ l -> f x = g x) -> mapM f l = mapM g l.
Proof.
  induction l as [|x l IH]; intros Hfg; [done|].
  rewrite !mapM_cons, (Hfg x) by (by left).
  destruct (g x) as [y|]; [|done]. rewrite !bind_Ok.
  rewrite IH; [done|]. intros z Hz. apply Hfg. by right.
Qed.

Lemma filter_not_src T p src :
  (forall j, Some (j :: p) <> src) ->
  filter (fun c => Some c <> src) (children_of T p) = children_of T p.
Proof.
  intros Hsrc. unfold children_of. destruct (node_at T p) as [n|]; [|done].
  induction (seq 0 (length (children n))) as [|i l IH]; [done|].
  rewrite fmap_cons, filter_cons_True by apply Hsrc. by rewrite IH.
Qed.

Lemma siblings_rooted_all T i n :
  length (children T) = 2 -> node_at T [i] = Some n ->
  siblings T [i] = [[1 - i]].
Proof.
  intros Hlen Hn. unfold siblings.
  rewrite (children_of_eq T [] T eq_refl), Hlen.
  cbn in Hn. apply lookup_lt_Some in Hn. rewrite Hlen in Hn.
  destruct i as [|[|i]]; [done|done|lia].
Qed.

Lemma add_lengths_comm (Hcomm : forall x y : R, radd x y = radd y x)
    (a b : option R) :
  add_lengths a b = add_lengths b a.
Proof. destruct a, b; cbn; try done. by rewrite Hcomm. Qed.

Ltac step1 Hn :=
  cbn [walk_copy1_rec or_raise]; rewrite bind_Ok, Hn;
  cbn [or_raise]; rewrite bind_Ok;
  cbn [is_root parent default from_option id]; cbn zeta.

(** The two solutions take the same steps, except that Solution I adds the
    two basal lengths in the other order. *)
Lemma solutions_agree_rec
    (Hcomm : forall x y : R, radd x y = radd y x) T fuel :
  forall node src,
    (node = Some [] -> src = None -> length (children T) = 2) ->
    walk_copy1_rec fuel T node src = walk_copy_rec fuel T node src.
Proof.
  induction fuel as [|fuel IH]; intros node src Hapex; [done|].
  assert (Hkids : forall p l,
    mapM (fun x => walk_copy1_rec fuel T (Some x) (Some p)) l
    = mapM (fun c => walk_copy_rec fuel T (Some c) (Some p)) l).
  { intros p l. apply mapM_ext. intros x _. by apply IH. }
  assert (Hup : forall p p',
    walk_copy1_rec fuel T (Some p') (Some p)
    = walk_copy_rec fuel T (Some p') (Some p)) by (intros; by apply IH).
  destruct node as [p|]; [|done].
  destruct (node_at T p) as [n|] eqn:Hn.
  2:{ rewrite walk_copy_rec_S. cbn [walk_copy1_rec or_raise].
      rewrite !bind_Ok, Hn. done. }
  destruct p as [|i [|j q]].
  - (* apex *)
    rewrite walk_copy_rec_apex. step1 Hn.
    rewrite (children_of_apex T).
    destruct (bool_decide (length (children T) = 2)) eqn:Hlen; [done|].
    apply bool_decide_eq_false_1 in Hlen.
    rewrite (bool_decide_eq_false_2 (src = None))
      by (intros ->; by apply Hlen, Hapex).
    destruct (bool_decide (src ∈ Some <$> children_of T [])); [|done].
    unfold walk_kids. cbn in Hn. injection Hn as <-. by rewrite Hkids.
  - (* basal *)
    rewrite (walk_copy_rec_basal _ _ _ _ _ Hn). step1 Hn.
    rewrite (children_of_apex T).
    destruct (bool_decide (length (children T) = 2)) eqn:Hlen.
    + apply bool_decide_eq_true_1 in Hlen.
      rewrite (siblings_rooted_all _ _ _ Hlen Hn).
      cbn [or_raise head].
      rewrite !bind_Ok.
      destruct (decide (src = Some [1 - i])) as [->|Hsib].
      * rewrite bool_decide_eq_true_2 by (apply list_elem_of_singleton; done).
        rewrite bool_decide_eq_true_2 by done.
        rewrite (add_lengths_comm Hcomm).
        destruct (add_lengths _ _) as [len|]; [|done].
        rewrite !bind_Ok. unfold walk_kids.
        rewrite filter_not_src by (intros k [= Hk]). by rewrite Hkids.
      * rewrite bool_decide_eq_false_2.
        2:{ intros Hin. apply list_elem_of_singleton in Hin. done. }
        rewrite (bool_decide_eq_false_2 (src = Some [1 - i])) by done.
        destruct (bool_decide (src ∈ Some <$> children_of T [i])); [|done].
        unfold walk_kids. rewrite Hkids.
        destruct (mapM _ _) as [kids|]; [|done]. rewrite !bind_Ok.
        by rewrite Hup.
    + destruct (decide (src = Some [])) as [->|Hpar].
      * rewrite !bool_decide_eq_true_2 by done.
        unfold walk_kids. rewrite filter_not_src by (intros k [= Hk]).
        by rewrite Hkids.
      * rewrite !(bool_decide_eq_false_2 (src = Some [])) by done.
        destruct (bool_decide (src ∈ Some <$> children_of T [i])); [|done].
        unfold walk_kids. rewrite Hkids.
        destruct (mapM _ _) as [kids|]; [|done]. rewrite !bind_Ok.
        by rewrite Hup.
  - (* derived *)
    rewrite (walk_copy_rec_derived _ _ _ _ _ _ _ Hn). step1 Hn.
    destruct (decide (src = Some (j :: q))) as [->|Hpar].
    + rewrite !bool_decide_eq_true_2 by done.
      unfold walk_kids. rewrite filter_not_src.
      * by rewrite Hkids.
      * intros k [= _ Hk]. apply (f_equal length) in Hk. simpl in Hk. lia.
    + rewrite !(bool_decide_eq_false_2 (src = Some (j :: q))) by done.
      destruct (bool_decide (src ∈ Some <$> children_of T (i :: j :: q)));
        [|done].
      unfold walk_kids. rewrite Hkids.
      destruct (mapM _ _) as [kids|]; [|done]. rewrite !bind_Ok.
      by rewrite Hup.
Qed.

(** Walking down from the apex of an unrooted tree, with no source. *)
Lemma walk_down_apex T fuel :
  length (children T) <> 2 -> height T <= fuel ->
  walk_copy_rec fuel T (Some []) None = Ok T.
Proof.
  intros Hlen Hfuel.
  destruct fuel as [|fuel]; [destruct (height_pos T); lia|].
  rewrite walk_copy_rec_apex.
  rewrite bool_decide_eq_false_2 by done.
  rewrite bool_decide_eq_true_2 by done.
  rewrite (walk_kids_all fuel T [] T None eq_refl).
  - rewrite bind_Ok. by destruct T.
  - done.
  - intros j x Hx. apply (walk_child_down _ T [] T j x eq_refl Hx); [done|].
    pose proof (height_child _ _ _ Hx). lia.
Qed.

End solutions.

(** Addition is commutative on the rationals. *)
Lemma Qc_add_comm (x y : Qc) : radd x y = radd y x.
Proof. unfold radd, Qc_ops. apply Qcplus_comm. Qed.

(** Walking down: [walk_copy(node, node.parent)] returns the clade of
    [node] as it is, names, lengths and child order, unless the walk starts
    at or right below an apex with exactly two children.  At the apex the
    parent is [None]. *)
Theorem walk_copy_down_copies {R} `{LengthOps R} (T n : tree R) (p : addr) :
  node_at T p = Some n ->
  (length p <= 1 -> length (children T) <> 2) ->
  walk_copy T (Some p) (parent p) = Ok n.
Proof.
  intros Hn Hun. unfold walk_copy.
  pose proof (height_node_at _ _ _ Hn) as Hh.
  destruct p as [|i q].
  - cbn in Hn. injection Hn as <-. cbn [parent].
    apply walk_down_apex; [apply Hun; simpl; lia|unfold budget; lia].
  - apply walk_down; [done|done| |unfold budget; lia].
    intros Hlen. apply Hun. lia.
Qed.

Lemma walk_copy_down_copies_witness :
  walk_copy Ex.trg_good (Some [0]) (Some [])
    = Ok (Ex.join [Ex.tip "a"; Ex.tip "b"])
  /\ walk_copy Ex.trg_good (Some []) None = Ok Ex.trg_good.
Proof.
  split.
  - apply (walk_copy_down_copies Ex.trg_good _ [0]); [reflexivity|cbn; lia].
  - apply (walk_copy_down_copies Ex.trg_good _ []); [reflexivity|cbn; lia].
Defined.

(** The two solutions of the notebook return the same, tree or exception,
    when the two basal lengths add up alike in both orders.  The one
    exception is a walk from the apex of an unrooted tree with no source:
    Solution I refuses it, Solution II takes it for a walk down. *)
Theorem walk_copy_solutions_agree {R} `{LengthOps R}
    (Hcomm : forall x y : R, radd x y = radd y x) (T : tree R) :
  (forall node src,
     (node = Some [] -> src = None -> length (children T) = 2) ->
     walk_copy1 T node src = walk_copy T node src)
  /\ (length (children T) <> 2 ->
      walk_copy1 T (Some []) None = Err NotNeighbors
      /\ walk_copy T (Some []) None = Ok T).
Proof.
  split.
  - intros node src Hapex. by apply solutions_agree_rec.
  - intros Hlen. split.
    + unfold walk_copy1. destruct (budget_pos T) as [f ->].
      cbn [walk_copy1_rec or_raise node_at]. rewrite !bind_Ok.
      cbn [is_root]. rewrite (children_of_apex T).
      rewrite bool_decide_eq_false_2 by done.
      rewrite bool_decide_eq_false_2; [done|].
      by apply src_not_child.
    + apply walk_down_apex; [done|unfold budget; lia].
Qed.

Lemma walk_copy_solutions_agree_witness :
  walk_copy1 Ex.exact (Some []) (Some [0]) = walk_copy Ex.exact (Some []) (Some [0])
  /\ walk_copy1 Ex.exact (Some []) None = Err NotNeighbors
  /\ walk_copy Ex.exact (Some []) None = Ok Ex.exact.
Proof.
  destruct (walk_copy_solutions_agree Qc_add_comm Ex.exact) as [Hsame Hdiff].
  split.
  - apply Hsame. intros _ Hsrc. discriminate Hsrc.
  - apply Hdiff. cbn. lia.
Defined.

Section neighbours.
Context {R : Type} `{LengthOps R}.
Implicit Types (T n : tree R) (p q : addr).

Lemma walk_copy_rec_not_neighbors fuel T p n src :
  node_at T p = Some n ->
  (p = [] -> length (children T) <> 2) ->
  src <> (if bool_decide (length p = 1 /\ length (children T) = 2)
          then head (siblings T p) else parent p) ->
  src ∉ Some <$> children_of T p ->
  walk_copy_rec (S fuel) T (Some p) src = Err NotNeighbors.
Proof.
  intros Hn Hun Hup Hch.
  destruct p as [|i [|j q]].
  - rewrite walk_copy_rec_apex.
    rewrite bool_decide_eq_false_2 by auto.
    rewrite bool_decide_eq_false_2 in Hup by (simpl; lia).
    by rewrite !bool_decide_eq_false_2.
  - rewrite (walk_copy_rec_basal _ _ _ _ _ Hn).
    destruct (decide (length (children T) = 2)) as [Hlen|Hlen].
    + rewrite bool_decide_eq_true_2 by done.
      rewrite bool_decide_eq_true_2 in Hup by done.
      rewrite (siblings_rooted _ _ _ Hlen Hn) in Hup |- *.
      cbn [or_raise]. rewrite bind_Ok.
      by rewrite !bool_decide_eq_false_2.
    + rewrite bool_decide_eq_false_2 by done.
      rewrite bool_decide_eq_false_2 in Hup by tauto.
      by rewrite !bool_decide_eq_false_2.
  - rewrite (walk_copy_rec_derived _ _ _ _ _ _ _ Hn).
    rewrite bool_decide_eq_false_2 in Hup by (simpl; lia).
    by rewrite !bool_decide_eq_false_2.
Qed.

End neighbours.

(** [walk_copy(node, src)] raises "Source and node are not neighbors"
    whenever [src] is neither a child of [node] nor the node it is reached
    from above: its parent, or, right below an apex with exactly two
    children, its sibling.  So the apex of a rooted tree is no neighbour of
    its children. *)
Theorem walk_copy_not_neighbors {R} `{LengthOps R} (T n : tree R) (p : addr)
    (src : option addr) :
  node_at T p = Some n ->
  (p = [] -> length (children T) <> 2) ->
  src <> (if bool_decide (length p = 1 /\ length (children T) = 2)
          then head (siblings T p) else parent p) ->
  src ∉ Some <$> children_of T p ->
  walk_copy T (Some p) src = Err NotNeighbors.
Proof.
  intros Hn Hun Hup Hch. unfold walk_copy. destruct (budget_pos T) as [f ->].
  by eapply walk_copy_rec_not_neighbors.
Qed.

Lemma walk_copy_not_neighbors_witness :
  walk_copy Golden.rooted (Some [0]) (Some []) = Err NotNeighbors
  /\ walk_copy Ex.trg_good (Some [0]) (Some [2]) = Err NotNeighbors.
Proof.
  split.
  - eapply (walk_copy_not_neighbors Golden.rooted);
      [reflexivity|done|compute_done|compute_done].
  - eapply (walk_copy_not_neighbors Ex.trg_good);
      [reflexivity|done|compute_done|compute_done].
Defined.

Section up.
Context {R : Type} `{LengthOps R}.
Implicit Types (T n : tree R) (p q : addr).

Lemma up_view_apex T c s :
  children T !! c = Some s -> length (children T) <> 2 ->
  up_view T [] c = Ok (Node (name T) (branch_length s) (delete c (children T))).
Proof.
  intros Hs Hlen. cbn [up_view node_at or_raise]. rewrite bind_Ok, Hs.
  cbn [or_raise]. rewrite bind_Ok. by rewrite bool_decide_eq_false_2.
Qed.

Lemma up_view_cons T i q c n s :
  node_at T (i :: q) = Some n -> children n !! c = Some s ->
  up_view T (i :: q) c =
    (rest ← (if is_root q && bool_decide (length (children T) = 2)
             then bottom_view T i else up_view T q i);
     Ok (Node (name n) (branch_length s) (delete c (children n) ++ [rest]))).
Proof.
  intros Hn Hs. cbn [up_view]. rewrite Hn. cbn [or_raise].
  rewrite bind_Ok, Hs. cbn [or_raise]. by rewrite bind_Ok.
Qed.

End up.

(** Walking up: [walk_copy(node, src)] for a child [src] of [node] returns
    a node with the name of [node] and the length of [src], whose children
    are the other children of [node], in order, followed by what lies above
    [node].  At the apex of an unrooted tree nothing lies above, and the
    apex is kept as a regular node.  Right below an apex with exactly two
    children the apex is dropped: the sibling follows, with its own
    children and the sum of the two basal lengths, [src.length +
    node.length] as seen from the sibling.  Anywhere else the copy of the
    parent, walked up in turn, follows. *)
Theorem walk_copy_up_shape {R} `{LengthOps R} (T : tree R) :
  (forall c s,
     children T !! c = Some s -> length (children T) <> 2 ->
     walk_copy T (Some []) (Some [c])
     = Ok (Node (name T) (branch_length s) (delete c (children T))))
  /\ (forall i c n sib s ln ls,
        length (children T) = 2 ->
        children T !! i = Some n -> children T !! (1 - i) = Some sib ->
        children n !! c = Some s ->
        branch_length n = Some ln -> branch_length sib = Some ls ->
        walk_copy T (Some [i]) (Some [c; i])
        = Ok (Node (name n) (branch_length s)
                (delete c (children n)
                 ++ [Node (name sib) (Some (radd ln ls)) (children sib)])))
  /\ (forall i q c n s,
        node_at T (i :: q) = Some n -> children n !! c = Some s ->
        (length (children T) = 2 ->
         q <> [] /\ Forall (fun x => is_Some (branch_length x)) (children T)) ->
        exists rest,
          walk_copy T (Some q) (Some (i :: q)) = Ok rest
          /\ walk_copy T (Some (i :: q)) (Some (c :: i :: q))
             = Ok (Node (name n) (branch_length s)
                     (delete c (children n) ++ [rest]))).
Proof.
  split; [|split].
  - intros c s Hs Hlen. unfold walk_copy. apply walk_up.
    + by apply up_view_apex.
    + unfold budget. simpl. lia.
  - intros i c n sib s ln ls Hlen Hn Hsib Hs Hln Hls.
    assert (Hn' : node_at T [i] = Some n) by done.
    unfold walk_copy. apply walk_up.
    + rewrite (up_view_cons T i [] c n s Hn' Hs). cbn [is_root andb].
      rewrite bool_decide_eq_true_2 by done.
      unfold bottom_view. rewrite Hn, Hsib. cbn [or_raise].
      rewrite !bind_Ok, Hln, Hls. done.
    + pose proof (height_node_at _ _ _ Hn') as Hh.
      destruct (height_pos n). unfold budget. simpl in *. lia.
  - intros i q c n s Hn Hs Hrooted.
    assert (Hnq : exists m, node_at T q = Some m /\ children m !! i = Some n)
      by by apply node_at_child_lt.
    destruct Hnq as (m & Hm & Hi).
    destruct (up_view_ok q T i n Hn) as [rest Hrest].
    { intros ->. intros Hlen. by destruct (Hrooted Hlen). }
    { intros Hlen. by destruct (Hrooted Hlen). }
    exists rest.
    pose proof (height_node_at _ _ _ Hn) as Hh. destruct (height_pos n).
    split; unfold walk_copy.
    + apply walk_up; [done|]. unfold budget. simpl in *. lia.
    + apply walk_up; [|unfold budget; simpl in *; lia].
      rewrite (up_view_cons T i q c n s Hn Hs).
      assert (Hnot : is_root q && bool_decide (length (children T) = 2) = false).
      { destruct q; [|done]. cbn. apply bool_decide_eq_false_2.
        intros Hlen. by destruct (Hrooted Hlen). }
      by rewrite Hnot, Hrest, bind_Ok.
Qed.

Lemma walk_copy_up_shape_witness :
  walk_copy Ex.trg_good (Some []) (Some [1])
    = Ok (Node None (Some 1%float)
            [Ex.join [Ex.tip "a"; Ex.tip "b"]; Ex.join [Ex.tip "d"; Ex.tip "e"]])
  /\ walk_copy Ex.src (Some [0]) (Some [1; 0])
     = Ok (Node (Some "x") (Some 1%float)
             [Ex.tip "a";
              Node (Some "y") (Some (1 + 1)%float)
                [Ex.tip "c"; Ex.tip "d"; Ex.tip "e"]])
  /\ exists rest,
       walk_copy Ex.trg_good (Some []) (Some [0]) = Ok rest
       /\ walk_copy Ex.trg_good (Some [0]) (Some [1; 0])
          = Ok (Node None (Some 1%float) [Ex.tip "a"; rest]).
Proof.
  destruct (walk_copy_up_shape Ex.trg_good) as (Hapex & _ & Hup).
  destruct (walk_copy_up_shape Ex.src) as (_ & Hmerge & _).
  split; [|split].
  - apply (Hapex 1 (Ex.tip "c")); [reflexivity|cbn; lia].
  - apply (Hmerge 0 1 (Ex.clade "x" [Ex.tip "a"; Ex.tip "b"])
             (Ex.clade "y" [Ex.tip "c"; Ex.tip "d"; Ex.tip "e"]) (Ex.tip "b"));
      reflexivity.
  - apply (Hup 0 [] 1 (Ex.join [Ex.tip "a"; Ex.tip "b"]) (Ex.tip "b"));
      [reflexivity|reflexivity|cbn; lia].
Defined.

Section above.
Context {R : Type} `{LengthOps R}.
Implicit Types (T n : tree R) (p q : addr).

(** The apex of a tree with one child becomes a tip when walked over. *)
Lemma up_view_tips_unary q : forall T c s r,
  node_at T (c :: q) = Some s ->
  up_view T q c = Ok r ->
  length (children T) = 1 ->
  clade_tip_list r ++ clade_tip_list s ≡ₚ name T :: clade_tip_list T.
Proof.
  induction q as [|i q IH]; intros T c s r Hs Hview Hone.
  - cbn in Hs. rewrite (up_view_apex T c s Hs) in Hview by lia.
    injection Hview as <-.
    destruct T as [nm l [|x [|y cs]]]; try done.
    destruct c as [|c]; [|done]. cbn in Hs. injection Hs as <-.
    cbn [children delete list_delete clade_tip_list name fmap list_fmap
         mjoin list_join app].
    rewrite app_nil_r. done.
  - apply node_at_child_lt in Hs as (n & Hn & Hs).
    rewrite (up_view_cons T i q c n s Hn Hs) in Hview.
    rewrite (bool_decide_eq_false_2 (length (children T) = 2)) in Hview by lia.
    rewrite andb_false_r in Hview.
    destruct (up_view T q i) as [rest|] eqn:Hrest; [|done].
    rewrite bind_Ok in Hview. injection Hview as <-.
    rewrite clade_tip_list_snoc.
    assert (Hnode : clade_tip_list n ≡ₚ
              mjoin (clade_tip_list <$> delete c (children n)) ++ clade_tip_list s).
    { destruct n as [nm l cs]. cbn [children] in *.
      rewrite clade_tip_list_node by (intros ->; done).
      by apply join_delete_perm. }
    rewrite <- (IH T i n rest Hn Hrest Hone), Hnode.
    rewrite <- !(assoc_L (++)). apply Permutation_app_swap_app.
Qed.

End above.

(** Rerooting keeps the tips.  The first child of the new root is the clade
    of [node] as it was, but for its length; the second child holds every
    other tip of the tree once.  When the old apex has a single child it
    becomes one more tip, under its own name. *)
Theorem root_above_keeps_tips {R} `{LengthOps R} (T n : tree R) (c : nat)
    (q : addr) (l : R) (nm : option string) :
  node_at T (c :: q) = Some n ->
  branch_length n = Some l ->
  (q = [] -> length (children T) <> 2) ->
  (length (children T) = 2 ->
   Forall (fun x => is_Some (branch_length x)) (children T)) ->
  exists right,
    root_above T (c :: q) nm
    = Ok (Node nm None [set_length n (Some (rhalf l)); right])
    /\ clade_tip_list right ++ clade_tip_list n
       ≡ₚ (if bool_decide (length (children T) = 1) then [name T] else [])
          ++ clade_tip_list T.
Proof.
  intros Hn Hl Hun Hlens.
  destruct (up_view_ok q T c n Hn Hun Hlens) as [r Hr].
  exists (set_length r (Some (rhalf l))). split.
  - by apply root_above_closed.
  - rewrite clade_tip_list_set_length. case_bool_decide as Hone.
    + by apply (up_view_tips_unary q T c).
    + by apply (up_view_tips q T c).
Qed.

Lemma root_above_keeps_tips_witness :
  exists right,
    root_above Ex.trg_good [0; 2] (Some "new")
    = Ok (Node (Some "new") None
            [set_length (Ex.tip "d") (Some (rhalf 1%float)); right])
    /\ clade_tip_list right ++ [Some "d"]
       ≡ₚ [Some "a"; Some "b"; Some "c"; Some "d"; Some "e"].
Proof.
  apply (root_above_keeps_tips Ex.trg_good (Ex.tip "d") 0 [2] 1%float);
    [reflexivity|reflexivity|done|cbn; lia].
Defined.

(** ** Total branch length *)

Section lengths.
Implicit Types (T n : tree Qc) (p q : addr).

Lemma total_length_eq nm l cs : total_length (Node nm l cs) = sum_below cs.
Proof. reflexivity. Qed.

Lemma total_length_children T : total_length T = sum_below (children T).
Proof. by destruct T. Qed.

Lemma sum_below_cons c cs :
  sum_below (c :: cs) = (length_or_zero c + total_length c + sum_below cs)%Qc.
Proof. reflexivity. Qed.

Lemma sum_below_nil : sum_below [] = 0%Qc.
Proof. reflexivity. Qed.

Lemma sum_below_app cs ds :
  sum_below (cs ++ ds) = (sum_below cs + sum_below ds)%Qc.
Proof.
  induction cs as [|c cs IH].
  - rewrite sum_below_nil. cbn [app]. ring.
  - cbn [app]. rewrite !sum_below_cons, IH. ring.
Qed.

Lemma sum_below_delete cs c s :
  cs !! c = Some s ->
  sum_below cs = (length_or_zero s + total_length s + sum_below (delete c cs))%Qc.
Proof.
  revert c. induction cs as [|x cs IH]; intros c Hs; [done|].
  destruct c as [|c]; cbn in Hs.
  - injection Hs as ->. by rewrite sum_below_cons.
  - change (delete (S c) (x :: cs)) with (x :: delete c cs).
    rewrite !sum_below_cons, (IH c Hs). ring.
Qed.

Lemma total_length_set_length n l :
  total_length (set_length n l) = total_length n.
Proof. by destruct n. Qed.

Lemma up_view_length q T c s r :
  node_at T (c :: q) = Some s -> up_view T q c = Ok r ->
  branch_length r = branch_length s /\ (exists n, node_at T q = Some n /\ name r = name n).
Proof.
  intros Hs Hview. destruct q as [|i q].
  - cbn in Hs. cbn [up_view node_at or_raise] in Hview.
    rewrite bind_Ok, Hs in Hview. cbn [or_raise] in Hview.
    rewrite bind_Ok in Hview.
    destruct (bool_decide (length (children T) = 2)); [done|].
    injection Hview as <-. split; [done|]. by exists T.
  - apply node_at_child_lt in Hs as (n & Hn & Hs).
    rewrite (up_view_cons T i q c n s Hn Hs) in Hview.
    destruct (if is_root q && bool_decide (length (children T) = 2)
              then bottom_view T i else up_view T q i) as [rest|]; [|done].
    rewrite bind_Ok in Hview. injection Hview as <-. split; [done|].
    by exists n.
Qed.

(** What lies above a clade weighs as much as the tree without the clade
    and its branch. *)
Lemma up_view_total q : forall T c s r,
  node_at T (c :: q) = Some s ->
  up_view T q c = Ok r ->
  (total_length r + (length_or_zero s + total_length s) = total_length T)%Qc.
Proof.
  induction q as [|i q IH]; intros T c s r Hs Hview.
  - cbn in Hs.
    cbn [up_view node_at or_raise] in Hview.
    rewrite bind_Ok, Hs in Hview. cbn [or_raise] in Hview.
    rewrite bind_Ok in Hview.
    destruct (bool_decide (length (children T) = 2)); [done|].
    injection Hview as <-.
    rewrite total_length_eq, (total_length_children T).
    rewrite (sum_below_delete _ _ _ Hs). ring.
  - apply node_at_child_lt in Hs as (n & Hn & Hs).
    rewrite (up_view_cons T i q c n s Hn Hs) in Hview.
    assert (Hnode : total_length n =
      (length_or_zero s + total_length s + sum_below (delete c (children n)))%Qc).
    { rewrite (total_length_children n). by apply sum_below_delete. }
    destruct (is_root q && bool_decide (length (children T) = 2)) eqn:Hrooted.
    + apply andb_true_iff in Hrooted as [Hq Hlen].
      apply bool_decide_eq_true_1 in Hlen. destruct q; [|done].
      unfold bottom_view in Hview. cbn in Hn. rewrite Hn in Hview.
      cbn [or_raise] in Hview. rewrite bind_Ok in Hview.
      destruct (children T !! (1 - i)) as [sib|] eqn:Hsib; [|done].
      cbn [or_raise] in Hview. rewrite bind_Ok in Hview.
      destruct (branch_length n) as [ln|] eqn:Hln; [|done].
      destruct (branch_length sib) as [ls|] eqn:Hls; [|done].
      cbn in Hview. injection Hview as <-.
      rewrite total_length_eq, sum_below_app, sum_below_cons, sum_below_nil.
      rewrite total_length_eq, <- (total_length_children sib).
      assert (HT : total_length T =
        (ln + total_length n + (ls + total_length sib))%Qc).
      { rewrite (total_length_children T).
        destruct (children T) as [|c0 [|c1 [|? ?]]] eqn:Hcs; try done.
        destruct i as [|[|i]]; cbn in Hn, Hsib; simplify_eq.
        - rewrite !sum_below_cons, sum_below_nil. unfold length_or_zero.
          rewrite Hln, Hls. cbn [from_option id]. ring.
        - rewrite !sum_below_cons, sum_below_nil. unfold length_or_zero.
          rewrite Hln, Hls. cbn [from_option id]. ring. }
      rewrite HT, Hnode. unfold length_or_zero at 1.
      cbn [branch_length from_option id]. unfold radd, Qc_ops. ring.
    + destruct (up_view T q i) as [rest|] eqn:Hrest; [|done].
      rewrite bind_Ok in Hview. injection Hview as <-.
      rewrite total_length_eq, sum_below_app, sum_below_cons, sum_below_nil.
      rewrite <- (IH T i n rest Hn Hrest), Hnode.
      destruct (up_view_length q T i n rest Hn Hrest) as [Hlen _].
      unfold length_or_zero at 1. rewrite Hlen.
      fold (length_or_zero n). ring.
Qed.

End lengths.

(** Rerooting keeps the total branch length: in exact arithmetic the
    lengths of all branches of the result add up to what they add up to in
    the tree, a missing length counting for nothing and the length of the
    apex itself, which is no branch, left aside. *)
Theorem root_above_total_length (T n : tree Qc) (c : nat) (q : addr) (l : Qc)
    (nm : option string) :
  node_at T (c :: q) = Some n ->
  branch_length n = Some l ->
  (q = [] -> length (children T) <> 2) ->
  (length (children T) = 2 ->
   Forall (fun x => is_Some (branch_length x)) (children T)) ->
  exists res,
    root_above T (c :: q) nm = Ok res /\ total_length res = total_length T.
Proof.
  intros Hn Hl Hun Hlens.
  destruct (up_view_ok q T c n Hn Hun Hlens) as [r Hr].
  eexists. split; [by apply root_above_closed|].
  rewrite total_length_eq, !sum_below_cons, sum_below_nil.
  rewrite !total_length_set_length.
  rewrite <- (up_view_total q T c n r Hn Hr).
  unfold length_or_zero. cbn [set_length branch_length from_option id].
  rewrite Hl. cbn [from_option id].
  rewrite <- (Qc_half_sum l) at 3. unfold radd, Qc_ops. ring.
Qed.

Lemma root_above_total_length_witness :
  exists res,
    root_above Ex.exact [1; 0] None = Ok res
    /\ total_length res = total_length Ex.exact.
Proof.
  apply (root_above_total_length Ex.exact (Node (Some "b") (Some 1%Qc) [])
           1 [0] 1%Qc);
    [reflexivity|reflexivity|done|cbn; lia].
Defined.

Section tip_outgroup.
Context {R : Type} `{LengthOps R}.
Implicit Types (T n : tree R) (p q : addr).

Lemma clade_tip_list_nonempty n : clade_tip_list n <> [].
Proof.
  induction n as [nm l cs IH] using tree_ind.
  destruct cs as [|c cs]; [done|].
  apply Forall_cons in IH as [IHc _].
  rewrite clade_tip_list_node by done. cbn.
  destruct (clade_tip_list c); [done|done].
Qed.

Lemma count_tips_tip n : is_tip n = true -> count_tips n = 0.
Proof.
  intros Htip. destruct n as [nm l [|c cs]]; [|done]. done.
Qed.

Lemma count_tips_internal n : is_tip n = false -> 0 < count_tips n.
Proof.
  intros Htip. unfold count_tips.
  rewrite <- (length_fmap (fun x => name x.2)).
  fold (tip_name_list n). rewrite tip_name_list_clade by done.
  pose proof (clade_tip_list_nonempty n).
  destruct (clade_tip_list n); [done|simpl; lia].
Qed.

End tip_outgroup.

(** A source tree with a single tip on one side of its root cannot be
    used: the tips of a tip are none ([tips()] leaves the node itself out),
    so that side counts no tip and is taken for the outgroup, the outgroup
    is the empty set, and scikit-bio's [lca] of no name raises "No tips
    found."  This happens for every target that passes the checks. *)
Theorem restore_rooting_tip_outgroup {R} `{LengthOps R}
    (src trg c1 c2 : tree R) :
  children src = [c1; c2] ->
  length (children trg) <> 2 ->
  tip_names src = tip_names trg ->
  is_tip c1 = true \/ is_tip c2 = true ->
  restore_rooting src trg = Err NoTipsFound.
Proof.
  intros Hcs Ht Htips Htip. unfold restore_rooting.
  rewrite bool_decide_eq_false_2 by (rewrite Hcs; intros Hn; by apply Hn).
  rewrite bool_decide_eq_false_2 by done.
  rewrite bool_decide_eq_false_2 by (intros Hn; by apply Hn).
  rewrite (outgroup_clade_pair src c1 c2 Hcs), bind_Ok.
  assert (Hout : tip_names (if (count_tips c2 <? count_tips c1)%nat
                            then c2 else c1) = ∅).
  { destruct (is_tip c1) eqn:H1.
    - rewrite (count_tips_tip c1 H1).
      rewrite (proj2 (Nat.ltb_ge _ _)) by lia. by apply tip_names_tip.
    - destruct Htip as [?|H2]; [done|].
      rewrite (count_tips_tip c2 H2).
      rewrite (proj2 (Nat.ltb_lt _ _)) by by apply count_tips_internal.
      by apply tip_names_tip. }
  rewrite Hout. unfold locate_outgroup. by rewrite lca_empty.
Qed.

Lemma restore_rooting_tip_outgroup_witness :
  restore_rooting Ex.src_tip Ex.trg_three = Err NoTipsFound.
Proof.
  apply (restore_rooting_tip_outgroup Ex.src_tip Ex.trg_three (Ex.tip "c")
           (Ex.clade "x" [Ex.tip "a"; Ex.tip "b"]));
    [reflexivity|cbn; lia|compute_done|by left].
Defined.

Section relabelling.
Context {R : Type} `{LengthOps R}.
Implicit Types (T n s t c src trg : tree R) (cs : list (tree R)) (p q : addr)
  (l : option R) (l2t : list (string * gset (option string))).

Lemma relabel_tip l2t nm l : relabel l2t (Node nm l []) = Node nm l [].
Proof. reflexivity. Qed.

Lemma relabel_internal l2t nm l c cs :
  relabel l2t (Node nm l (c :: cs)) =
    Node (match label_for l2t (Node nm l (c :: cs)) with
          | Some label => Some label
          | None => nm
          end) l (relabel l2t <$> (c :: cs)).
Proof. reflexivity. Qed.

Lemma relabel_children l2t t :
  children (relabel l2t t) = relabel l2t <$> children t.
Proof. by destruct t as [nm l [|c cs]]. Qed.

Lemma relabel_length l2t t :
  branch_length (relabel l2t t) = branch_length t.
Proof. by destruct t as [nm l [|c cs]]. Qed.

Lemma relabel_is_tip l2t t : is_tip (relabel l2t t) = is_tip t.
Proof. by destruct t as [nm l [|c cs]]. Qed.

Lemma relabel_name l2t t :
  name (relabel l2t t) =
    if is_tip t then name t
    else match label_for l2t t with Some label => Some label | None => name t end.
Proof. by destruct t as [nm l [|c cs]]. Qed.

Lemma clade_tip_list_relabel l2t t :
  clade_tip_list (relabel l2t t) = clade_tip_list t.
Proof.
  induction t as [nm l cs IH] using tree_ind.
  destruct cs as [|c cs]; [done|].
  rewrite relabel_internal, !clade_tip_list_node by done.
  f_equal. rewrite <- list_fmap_compose.
  apply Forall_fmap_ext_1. by rewrite Forall_forall in IH |- *.
Qed.

Lemma tip_names_relabel_children l2t nm nm' l c cs :
  tip_names (Node nm' l (relabel l2t <$> (c :: cs)))
  = tip_names (Node nm l (c :: cs)).
Proof.
  rewrite !tip_names_clade by done. unfold clade_tip_names.
  rewrite !clade_tip_list_node by done. f_equal. f_equal.
  rewrite <- list_fmap_compose.
  apply Forall_fmap_ext_1, Forall_forall. intros x _.
  apply clade_tip_list_relabel.
Qed.

Lemma tip_names_relabel l2t t : tip_names (relabel l2t t) = tip_names t.
Proof.
  destruct t as [nm l [|c cs]]; [done|].
  rewrite relabel_internal. apply tip_names_relabel_children.
Qed.

Lemma label_for_ext l2t t t' :
  tip_names t = tip_names t' -> label_for l2t t = label_for l2t t'.
Proof. intros Heq. unfold label_for. by rewrite Heq. Qed.

Lemma node_at_relabel l2t T p :
  node_at (relabel l2t T) p = relabel l2t <$> node_at T p.
Proof.
  induction p as [|i q IH]; [done|].
  rewrite !node_at_cons, IH.
  destruct (node_at T q) as [n|]; [|done]. cbn.
  by rewrite relabel_children, list_lookup_fmap.
Qed.

Lemma set_children_same t : set_children (children t) t = t.
Proof. by destruct t. Qed.

Lemma label_node_at l2t T p n :
  node_at T p = Some n ->
  label_node l2t T p =
    match label_for l2t n with
    | Some label => modify_at p (set_name (Some label)) T
    | None => T
    end.
Proof.
  intros Hn. unfold label_node, label_for. rewrite Hn.
  by destruct (list_find _ l2t) as [[i [label taxa]]|].
Qed.

(** The loop over the internal nodes of the clade at [p], children first,
    relabels that clade. *)
Lemma relabel_fold l2t t : forall T p,
  node_at T p = Some t ->
  foldl (label_node l2t) T (fst <$> non_tips t p)
  = modify_at p (fun _ => relabel l2t t) T.
Proof.
  induction t as [nm l cs IH] using tree_ind. intros T p Ht.
  unfold non_tips. rewrite postorder_eq, filter_app, fmap_app, foldl_app.
  assert (Hkids : forall ks pre T0 t0,
    Forall (fun k => forall T p, node_at T p = Some k ->
      foldl (label_node l2t) T (fst <$> non_tips k p)
      = modify_at p (fun _ => relabel l2t k) T) ks ->
    node_at T0 p = Some (set_children (pre ++ ks) t0) ->
    foldl (label_node l2t) T0
      (fst <$> filter (fun x => is_tip x.2 = false)
                 (post_children postorder p ks (length pre)))
    = modify_at p
        (fun _ => set_children (pre ++ (relabel l2t <$> ks)) t0) T0).
  { clear. induction ks as [|k ks IHks]; intros pre T0 t0 IH Ht0.
    - cbn. symmetry. by apply modify_at_same.
    - apply Forall_cons in IH as [IHk IH].
      rewrite post_children_cons, filter_app, fmap_app, foldl_app.
      destruct (node_at_modify_child T0 p (length pre)
                  (fun _ => relabel l2t k) t0 pre k ks Ht0 eq_refl)
        as [Hnode Hnode'].
      fold (non_tips k (length pre :: p)).
      rewrite (IHk T0 (length pre :: p) Hnode).
      replace (S (length pre)) with (length (pre ++ [relabel l2t k]))
        by (rewrite length_app; simpl; lia).
      rewrite (IHks (pre ++ [relabel l2t k]) _ t0 IH Hnode').
      cbn [modify_at]. rewrite (modify_at_twice p _ _ T0 _ Ht0).
      by rewrite <- (assoc_L (++)). }
  pose proof (Hkids cs [] T (Node nm l cs) IH Ht) as Hk.
  cbn [length app] in Hk. rewrite Hk. clear Hk Hkids.
  assert (Hp : node_at (modify_at p
                (fun _ => set_children (relabel l2t <$> cs) (Node nm l cs)) T) p
               = Some (set_children (relabel l2t <$> cs) (Node nm l cs)))
    by exact (node_at_modify_at p _ T _ Ht).
  destruct cs as [|c cs].
  - rewrite filter_cons_False by (cbn; done). done.
  - assert (Hlast : (filter (fun x : addr * tree R => is_tip x.2 = false)
                       [(p, Node nm l (c :: cs))]).*1 = [p]) by reflexivity.
    rewrite Hlast. cbn [foldl]. rewrite (label_node_at _ _ _ _ Hp).
    rewrite (label_for_ext l2t _ (Node nm l (c :: cs)))
      by apply (tip_names_relabel_children l2t nm nm l c cs).
    rewrite relabel_internal.
    destruct (label_for l2t _) as [label|]; [|done].
    by rewrite (modify_at_twice p _ _ T _ Ht).
Qed.

Lemma restore_node_labels_relabel src trg :
  restore_node_labels src trg = (l2t ← label2taxa src; Ok (relabel l2t trg)).
Proof.
  unfold restore_node_labels. destruct (label2taxa src) as [l2t|]; [|done].
  rewrite !bind_Ok. f_equal. by rewrite (relabel_fold l2t trg trg []).
Qed.

(** Relabelling twice is relabelling once. *)
Lemma relabel_idem l2t t : relabel l2t (relabel l2t t) = relabel l2t t.
Proof.
  induction t as [nm l cs IH] using tree_ind.
  destruct cs as [|c cs]; [done|].
  rewrite relabel_internal. cbn [fmap list_fmap].
  rewrite relabel_internal.
  rewrite (label_for_ext l2t _ (Node nm l (c :: cs))).
  2:{ apply (tip_names_relabel_children l2t nm _ l c cs). }
  f_equal.
  - by destruct (label_for l2t _).
  - rewrite <- !fmap_cons, <- list_fmap_compose.
    apply Forall_fmap_ext_1. by rewrite Forall_forall in IH |- *.
Qed.

(** [label2taxa] holds the labelled internal nodes, in postorder. *)
Lemma label2taxa_nodes (xs : list (addr * tree R)) : forall acc l2t,
  for_each
    (fun acc x =>
       match name x.2 with
       | Some label =>
           if bool_decide (label <> "") then
             if bool_decide (label ∈ fst <$> acc)
             then Err (DuplicateLabel label)
             else Ok (acc ++ [(label, tip_names x.2)])
           else Ok acc
       | None => Ok acc
       end) acc xs = Ok l2t ->
  l2t = acc ++ ((fun y => (y.1, tip_names y.2)) <$>
                omap (fun x => label ← label_of x.2; Some (label, x.2)) xs).
Proof.
  induction xs as [|x xs IH]; intros acc l2t Hfold.
  - cbn in Hfold. injection Hfold as <-. cbn. by rewrite app_nil_r.
  - rewrite for_each_cons in Hfold. cbn [omap list_omap].
    unfold label_of at 1.
    destruct (name x.2) as [label|]; [|by apply IH].
    destruct (bool_decide (label <> "")); [|by apply IH].
    destruct (bool_decide (label ∈ fst <$> acc)); [done|].
    rewrite bind_Ok in Hfold. rewrite (IH _ _ Hfold). cbn.
    by rewrite <- (assoc_L (++)).
Qed.

Lemma label2taxa_labelled src l2t :
  label2taxa src = Ok l2t ->
  l2t = (fun y => (y.1, tip_names y.2)) <$> labelled_nodes src.
Proof. intros Hl. by apply (label2taxa_nodes _ [] l2t) in Hl. Qed.

Lemma label_for_labelled (ys : list (string * tree R)) n :
  label_for ((fun y => (y.1, tip_names y.2)) <$> ys) n
  = (fun y => y.2.1) <$> list_find (fun y => tip_names y.2 = tip_names n) ys.
Proof.
  unfold label_for. rewrite list_find_fmap.
  destruct (list_find _ ys) as [[i [label s]]|]; done.
Qed.

End relabelling.

Section labels_more.
Context {R : Type} `{LengthOps R}.
Implicit Types (T n s t c src trg : tree R) (cs : list (tree R)) (p q : addr)
  (l : option R) (l2t : list (string * gset (option string))).

(** The first label met twice stops [label2taxa]. *)
Lemma label2taxa_dup (xs : list (addr * tree R)) : forall acc,
  NoDup (fst <$> acc) ->
  ~ NoDup ((fst <$> acc) ++ omap (fun x => label_of x.2) xs) ->
  exists pre label post,
    (fst <$> acc) ++ omap (fun x => label_of x.2) xs = pre ++ label :: post
    /\ NoDup pre /\ label ∈ pre
    /\ for_each
         (fun acc x =>
            match name x.2 with
            | Some label =>
                if bool_decide (label <> "") then
                  if bool_decide (label ∈ fst <$> acc)
                  then Err (DuplicateLabel label)
                  else Ok (acc ++ [(label, tip_names x.2)])
                else Ok acc
            | None => Ok acc
            end) acc xs = Err (DuplicateLabel label).
Proof.
  induction xs as [|x xs IH]; intros acc Hacc Hdup.
  - exfalso. apply Hdup. cbn. by rewrite app_nil_r.
  - rewrite for_each_cons.
    rewrite (omap_app _ [x] xs : omap _ (x :: xs) = _) in Hdup |- *.
    assert (Hlab : omap (fun x => label_of x.2) [x] =
              match name x.2 with
              | Some label => if bool_decide (label <> "") then [label] else []
              | None => []
              end).
    { cbn. unfold label_of. destruct (name x.2) as [label|]; [|done].
      by destruct (bool_decide (label <> "")). }
    rewrite Hlab in Hdup |- *. clear Hlab.
    destruct (name x.2) as [label|]; [|by apply IH].
    destruct (bool_decide (label <> "")); [|by apply IH].
    destruct (decide (label ∈ fst <$> acc)) as [Hin|Hin].
    + rewrite bool_decide_eq_true_2 by done.
      by exists (fst <$> acc), label, (omap (fun x => label_of x.2) xs).
    + rewrite bool_decide_eq_false_2 by done. rewrite bind_Ok.
      destruct (IH (acc ++ [(label, tip_names x.2)]))
        as (pre & lab & post & Heq & Hpre & Hlab & Herr).
      * rewrite fmap_app. cbn. apply NoDup_app. split; [done|].
        split; [|apply NoDup_singleton].
        intros y Hy ->%list_elem_of_singleton. done.
      * rewrite fmap_app. cbn. by rewrite <- (assoc_L (++)).
      * exists pre, lab, post. rewrite fmap_app in Heq. cbn in Heq.
        rewrite <- (assoc_L (++)) in Heq. done.
Qed.

Lemma node_at_snoc n a i :
  node_at n (a ++ [i]) = (c ← children n !! i; node_at c a).
Proof.
  induction a as [|j a IH].
  - cbn. by destruct (children n !! i).
  - change ((j :: a) ++ [i]) with (j :: (a ++ [i])).
    rewrite node_at_cons, IH. by destruct (children n !! i) as [c|].
Qed.

Lemma elem_of_non_tips_2 T a s :
  node_at T a = Some s -> is_tip s = false -> (a, s) ∈ non_tips T [].
Proof.
  intros Ha Htip. unfold non_tips. apply list_elem_of_filter. split; [done|].
  apply (node_at_postorder a T s []) in Ha. by rewrite app_nil_r in Ha.
Qed.

Lemma elem_of_labelled_nodes T label s :
  (label, s) ∈ labelled_nodes T <->
  exists a, (a, s) ∈ non_tips T [] /\ label_of s = Some label.
Proof.
  unfold labelled_nodes. rewrite list_elem_of_omap. split.
  - intros ([a s'] & Hin & Hl). cbn in Hl.
    destruct (label_of s') as [l'|] eqn:Hs'; [|done].
    cbn in Hl. injection Hl as -> ->. eauto.
  - intros (a & Hin & Hl). exists (a, s). split; [done|]. cbn. by rewrite Hl.
Qed.

Lemma label_of_Some n label :
  label_of n = Some label <-> name n = Some label /\ label <> "".
Proof.
  unfold label_of. destruct (name n) as [l'|].
  - case_bool_decide; split; try (intros [= ->]; done);
      try (intros [[= ->] ?]; done).
  - split; [done|]. by intros [? ?].
Qed.

Lemma relabelled_tips s : forall t,
  relabelled s t -> clade_tip_list t = clade_tip_list s.
Proof.
  induction s as [nm l ss IH] using tree_ind. intros t Hrel.
  inversion Hrel as [|? nm' ? c cs cs' Hall]; subst; [done|].
  inversion Hall as [|? c' ? cs'' Hc Hcs]; subst.
  rewrite !clade_tip_list_node by done. f_equal.
  clear Hrel Hc Hcs. induction Hall as [|x y xs ys Hxy Hall IHall]; [done|].
  apply Forall_cons in IH as [IHx IH].
  rewrite !fmap_cons. f_equal; [by apply IHx|by apply IHall].
Qed.

Lemma relabelled_is_tip s t : relabelled s t -> is_tip t = is_tip s.
Proof.
  inversion 1 as [|? nm' ? c cs cs' Hall]; subst; [done|].
  by inversion Hall.
Qed.

Lemma relabelled_tip_names s t : relabelled s t -> tip_names t = tip_names s.
Proof.
  intros Hrel. pose proof (relabelled_is_tip _ _ Hrel) as Htip.
  destruct (is_tip s) eqn:Hs.
  - by rewrite !tip_names_tip.
  - rewrite !tip_names_clade by done. unfold clade_tip_names.
    by rewrite (relabelled_tips _ _ Hrel).
Qed.

(** Relabelling a tree that differs from [s] in labels only gives [s] back
    when every internal node of [s] is found under its own label. *)
Lemma relabel_relabelled l2t s : forall t,
  relabelled s t ->
  (forall a s', node_at s a = Some s' -> is_tip s' = false ->
     exists label, name s' = Some label /\ label_for l2t s' = Some label) ->
  relabel l2t t = s.
Proof.
  induction s as [nm l ss IH] using tree_ind. intros t Hrel Hfound.
  pose proof (relabelled_tip_names _ _ Hrel) as Htips.
  inversion Hrel as [|? nm' ? c cs cs' Hall]; subst; [done|].
  inversion Hall as [|? c' ? cs'' Hc Hcs]; subst.
  rewrite relabel_internal.
  rewrite (label_for_ext l2t _ _ Htips).
  destruct (Hfound [] _ eq_refl eq_refl) as (label & Hnm & Hlab).
  cbn in Hnm. rewrite Hlab, <- Hnm. f_equal.
  assert (Hkids : forall i x a s',
    (c :: cs) !! i = Some x -> node_at x a = Some s' -> is_tip s' = false ->
    exists label, name s' = Some label /\ label_for l2t s' = Some label).
  { intros i x a s' Hx Ha Htip. apply (Hfound (a ++ [i])); [|done].
    rewrite node_at_snoc. cbn [children]. by rewrite Hx. }
  clear Hrel Hc Hcs Hfound Htips Hlab Hnm.
  revert Hkids.
  induction Hall as [|x y xs ys Hxy Hall IHall]; intros Hkids; [done|].
  apply Forall_cons in IH as [IHx IH].
  rewrite fmap_cons. f_equal.
  - apply IHx; [done|]. intros a s'. by apply (Hkids 0).
  - apply IHall; [done|]. intros i. by apply (Hkids (S i)).
Qed.

(** When the internal nodes have pairwise distinct tip sets, each labelled
    one is found under its own label. *)
Lemma label_for_own src a s label :
  NoDup ((fun x => tip_names x.2) <$> non_tips src []) ->
  (a, s) ∈ non_tips src [] -> label_of s = Some label ->
  label_for ((fun y => (y.1, tip_names y.2)) <$> labelled_nodes src) s
  = Some label.
Proof.
  intros Hnd Hin Hl. rewrite label_for_labelled.
  destruct (list_find _ (labelled_nodes src)) as [[i [label' s']]|] eqn:Hfind.
  - apply list_find_Some in Hfind as (Hi & Heq & _). cbn in Heq |- *.
    apply list_elem_of_lookup_2, elem_of_labelled_nodes in Hi
      as (a' & Hin' & Hl').
    assert ((a', s') = (a, s)) as [= _ ->]
      by by apply (NoDup_fmap_elem_inj _ _ _ _ Hnd Hin' Hin).
    congruence.
  - exfalso. apply list_find_None in Hfind. rewrite Forall_forall in Hfind.
    apply (Hfind (label, s)); [|done].
    apply elem_of_labelled_nodes. eauto.
Qed.

End labels_more.

(** When a non-empty label is carried by two internal nodes of [src],
    [restore_node_labels] raises "Duplicated node label ... found." for
    every target, and the label named is the first one, in postorder, that
    was met before: the labels before it are pairwise distinct, and it is
    one of them. *)
Theorem restore_node_labels_duplicate {R} `{LengthOps R} (src trg : tree R) :
  ~ NoDup (internal_labels src) ->
  exists pre label post,
    internal_labels src = pre ++ label :: post
    /\ NoDup pre /\ label ∈ pre
    /\ restore_node_labels src trg = Err (DuplicateLabel label).
Proof.
  intros Hdup.
  destruct (label2taxa_dup (non_tips src []) [])
    as (pre & lab & post & Heq & Hpre & Hin & He); [constructor|done|].
  exists pre, lab, post. unfold restore_node_labels, label2taxa. by rewrite He.
Qed.

Lemma restore_node_labels_duplicate_witness :
  internal_labels Ex.trg_dup = ["x"; "w"; "x"; "w"; "r"]
  /\ restore_node_labels Ex.trg_dup Ex.src = Err (DuplicateLabel "x").
Proof.
  split; [reflexivity|].
  destruct (restore_node_labels_duplicate Ex.trg_dup Ex.src)
    as (pre & label & post & Heq & Hpre & Hin & Herr); [compute_done|].
  replace "x" with label; [done|].
  change (internal_labels Ex.trg_dup) with ["x"; "w"; "x"; "w"; "r"] in Heq.
  destruct pre as [|a [|b [|c pre]]].
  - by apply elem_of_nil in Hin.
  - injection Heq as <- <- _. by apply list_elem_of_singleton in Hin.
  - injection Heq as <- <- <- _. done.
  - injection Heq as <- <- <- _. exfalso.
    apply NoDup_cons in Hpre as [Hx _]. apply Hx. right. by left.
Defined.

(** What [restore_node_labels] does to each node of the target: an
    internal node takes the label of the first internal node of [src], in
    postorder, that has a non-empty label and exactly the same tips below
    it, and keeps its name when there is none; a tip keeps its name; every
    node keeps its length and the number of its children. *)
Theorem restore_node_labels_matches {R} `{LengthOps R} (src trg : tree R) :
  NoDup (internal_labels src) ->
  exists res,
    restore_node_labels src trg = Ok res
    /\ forall p n,
         node_at trg p = Some n ->
         exists r,
           node_at res p = Some r
           /\ branch_length r = branch_length n
           /\ length (children r) = length (children n)
           /\ name r =
                if is_tip n then name n
                else match list_find (fun y => tip_names y.2 = tip_names n)
                             (labelled_nodes src) with
                     | Some (_, (label, _)) => Some label
                     | None => name n
                     end.
Proof.
  intros Hnd.
  destruct (label2taxa_from (non_tips src []) []) as (l2t & Hl2t & _); [done|].
  fold (label2taxa src) in Hl2t.
  exists (relabel l2t trg). rewrite restore_node_labels_relabel, Hl2t.
  split; [done|]. intros p n Hn.
  exists (relabel l2t n). rewrite node_at_relabel, Hn. split; [done|].
  split; [apply relabel_length|].
  split; [by rewrite relabel_children, length_fmap|].
  rewrite relabel_name. destruct (is_tip n); [done|].
  rewrite (label2taxa_labelled _ _ Hl2t), label_for_labelled.
  by destruct (list_find _ (labelled_nodes src)) as [[i [label s]]|].
Qed.

Lemma restore_node_labels_matches_witness :
  exists res,
    restore_node_labels Ex.src Ex.trg_good = Ok res
    /\ forall p n,
         node_at Ex.trg_good p = Some n ->
         exists r,
           node_at res p = Some r
           /\ branch_length r = branch_length n
           /\ length (children r) = length (children n)
           /\ name r =
                if is_tip n then name n
                else match list_find (fun y => tip_names y.2 = tip_names n)
                             (labelled_nodes Ex.src) with
                     | Some (_, (label, _)) => Some label
                     | None => name n
                     end.
Proof.
  apply (restore_node_labels_matches Ex.src Ex.trg_good). compute_done.
Defined.

(** Restoring the labels of a result again changes nothing. *)
Theorem restore_node_labels_idempotent {R} `{LengthOps R}
    (src trg res : tree R) :
  restore_node_labels src trg = Ok res ->
  restore_node_labels src res = Ok res.
Proof.
  rewrite !restore_node_labels_relabel.
  destruct (label2taxa src) as [l2t|]; [|done].
  rewrite !bind_Ok. intros [= <-]. by rewrite relabel_idem.
Qed.

Lemma restore_node_labels_idempotent_witness :
  restore_node_labels Ex.src Ex.trg_labelled = Ok Ex.trg_labelled.
Proof.
  apply (restore_node_labels_idempotent Ex.src Ex.trg_good).
  vm_compute. reflexivity.
Defined.

(** Round trip: when every internal node of [src] has a non-empty label, no
    label is used twice, and no two internal nodes have the same tips below
    them, [restore_node_labels] gives [src] back from any tree that differs
    from it only in the names of internal nodes. *)
Theorem restore_node_labels_round_trip {R} `{LengthOps R} (src trg : tree R) :
  relabelled src trg ->
  Forall (fun x => is_Some (label_of x.2)) (non_tips src []) ->
  NoDup (internal_labels src) ->
  NoDup ((fun x => tip_names x.2) <$> non_tips src []) ->
  restore_node_labels src trg = Ok src.
Proof.
  intros Hrel Hall Hlabels Htips.
  destruct (label2taxa_from (non_tips src []) []) as (l2t & Hl2t & _); [done|].
  fold (label2taxa src) in Hl2t.
  rewrite restore_node_labels_relabel, Hl2t, bind_Ok. f_equal.
  apply relabel_relabelled; [done|]. intros a s Ha Htip.
  pose proof (elem_of_non_tips_2 _ _ _ Ha Htip) as Hin.
  rewrite Forall_forall in Hall. destruct (Hall _ Hin) as [label Hl]. cbn in Hl.
  exists label. split; [by apply label_of_Some in Hl as [? _]|].
  rewrite (label2taxa_labelled _ _ Hl2t). by eapply label_for_own.
Qed.

Lemma restore_node_labels_round_trip_witness :
  restore_node_labels Ex.src Ex.src_relabelled = Ok Ex.src.
Proof.
  apply restore_node_labels_round_trip.
  - apply relabelled_node. repeat constructor.
  - compute_done.
  - compute_done.
  - compute_done.
Defined.

Section labels_total.
Context {R : Type} `{LengthOps R}.
Implicit Types (T n s t c src trg : tree R) (cs : list (tree R)) (p q : addr)
  (l2t : list (string * gset (option string))).

Lemma relabelled_relabel l2t t : relabelled t (relabel l2t t).
Proof.
  induction t as [nm l cs IH] using tree_ind.
  destruct cs as [|c cs]; [constructor|].
  rewrite relabel_internal. constructor.
  apply Forall2_fmap_r, Forall_Forall2_diag. done.
Qed.

(** The name that the run gives a node of the target. *)
Lemma relabel_name_from src l2t t label :
  label2taxa src = Ok l2t ->
  name (relabel l2t t) = Some label -> name (relabel l2t t) <> name t ->
  is_tip t = false
  /\ exists q s, node_at src q = Some s /\ is_tip s = false
                 /\ label_of s = Some label /\ tip_names s = tip_names t.
Proof.
  intros Hl2t Hname Hne. rewrite relabel_name in Hname, Hne.
  destruct (is_tip t); [done|]. split; [done|].
  rewrite (label2taxa_labelled _ _ Hl2t), label_for_labelled in Hname, Hne.
  destruct (list_find _ (labelled_nodes src)) as [[i [label' s]]|] eqn:Hfind;
    [|done].
  cbn in Hname. injection Hname as ->.
  apply list_find_Some in Hfind as (Hi & Htips & _). cbn in Htips.
  apply list_elem_of_lookup_2, elem_of_labelled_nodes in Hi as (q & Hq & Hs).
  apply elem_of_non_tips in Hq as [Hq Htip]. eauto 10.
Qed.

End labels_total.

(** C8: when no label is carried by two internal nodes of [src],
    [restore_node_labels] returns a tree for every [trg], whether or not
    the labelled clades of [src] have a counterpart in it.  The result is
    [trg] but for the names of internal nodes.  A node whose name differs
    from its name in [trg] is internal and carries the label of an internal
    node of [src] that has exactly its tips.  A label of [src] whose tips
    are those of no internal node of [trg] is given to no node: where it
    stands in the result, it stood in [trg]. *)
Theorem restore_node_labels_total {R} `{LengthOps R} (src trg : tree R) :
  NoDup (internal_labels src) ->
  exists res,
    restore_node_labels src trg = Ok res
    /\ relabelled trg res
    /\ (forall p r t,
          node_at res p = Some r -> node_at trg p = Some t ->
          name r <> name t ->
          is_tip t = false
          /\ exists label q s,
               name r = Some label /\ node_at src q = Some s
               /\ is_tip s = false /\ label_of s = Some label
               /\ tip_names s = tip_names t)
    /\ (forall label q s,
          node_at src q = Some s -> is_tip s = false ->
          label_of s = Some label ->
          (forall p t, node_at trg p = Some t -> is_tip t = false ->
                       tip_names t <> tip_names s) ->
          forall p r t,
            node_at res p = Some r -> node_at trg p = Some t ->
            name r = Some label -> name t = Some label).
Proof.
  intros Hnd.
  destruct (label2taxa_from (non_tips src []) []) as (l2t & Hl2t & _); [done|].
  fold (label2taxa src) in Hl2t.
  exists (relabel l2t trg).
  assert (Hchanged : forall p r t,
            node_at (relabel l2t trg) p = Some r -> node_at trg p = Some t ->
            name r <> name t ->
            is_tip t = false
            /\ exists label q s,
                 name r = Some label /\ node_at src q = Some s
                 /\ is_tip s = false /\ label_of s = Some label
                 /\ tip_names s = tip_names t).
  { intros p r t Hr Ht Hne. rewrite node_at_relabel, Ht in Hr.
    injection Hr as <-.
    destruct (name (relabel l2t t)) as [label|] eqn:Hname.
    - rewrite <- Hname in Hne.
      destruct (relabel_name_from src l2t t label Hl2t Hname Hne)
        as (Htip & q & s & Hq & Hs & Hlab & Htips).
      split; [done|]. exists label, q, s. done.
    - exfalso. rewrite relabel_name in Hname.
      destruct (is_tip t); [congruence|].
      destruct (label_for l2t t); [done|congruence]. }
  split; [by rewrite restore_node_labels_relabel, Hl2t|].
  split; [apply relabelled_relabel|]. split; [exact Hchanged|].
  intros label q s Hq Hs Hlab Hnone p r t Hr Ht Hname.
  destruct (decide (name r = name t)) as [<-|Hne]; [done|]. exfalso.
  destruct (Hchanged p r t Hr Ht Hne)
    as (Htip & label' & q' & s' & Hname' & Hq' & Hs' & Hlab' & Htips).
  assert (label' = label) as -> by congruence.
  assert ((q', s') = (q, s)) as [= -> ->].
  { apply (NoDup_omap_inj (fun x => label_of x.2) (non_tips src []) _ _ label);
      [done|by apply elem_of_non_tips_2..|done|done]. }
  by apply (Hnone p t).
Qed.

Lemma restore_node_labels_total_witness :
  exists res,
    restore_node_labels Ex.src Ex.trg_other = Ok res
    /\ relabelled Ex.trg_other res
    /\ (forall p r t,
          node_at res p = Some r -> node_at Ex.trg_other p = Some t ->
          name r <> name t ->
          is_tip t = false
          /\ exists label q s,
               name r = Some label /\ node_at Ex.src q = Some s
               /\ is_tip s = false /\ label_of s = Some label
               /\ tip_names s = tip_names t)
    /\ (forall label q s,
          node_at Ex.src q = Some s -> is_tip s = false ->
          label_of s = Some label ->
          (forall p t, node_at Ex.trg_other p = Some t -> is_tip t = false ->
                       tip_names t <> tip_names s) ->
          forall p r t,
            node_at res p = Some r -> node_at Ex.trg_other p = Some t ->
            name r = Some label -> name t = Some label).
Proof.
  apply (restore_node_labels_total Ex.src Ex.trg_other). compute_done.
Defined.

Section sorting.
Context {R : Type} `{LengthOps R}.
Implicit Types (T n s t u c src trg res nsrc : tree R)
  (cs ss ks us : list (tree R))
  (p q : addr) (l : option R).

Lemma same_names_name s u : same_names s u -> name u = name s.
Proof. by inversion 1. Qed.

Lemma shuffled_name t u : shuffled t u -> name u = name t.
Proof. by inversion 1. Qed.

Lemma same_names_refl s : same_names s s.
Proof.
  induction s as [nm l cs IH] using tree_ind.
  constructor. by apply Forall_Forall2_diag.
Qed.

Lemma shuffled_refl t : shuffled t t.
Proof.
  induction t as [nm l cs IH] using tree_ind.
  apply (shuffled_node nm l cs cs cs); [done|]. by apply Forall_Forall2_diag.
Qed.

Lemma same_names_node_names s : forall u,
  same_names s u -> node_names u = node_names s.
Proof.
  induction s as [nm l ss IH] using tree_ind. intros u Hsame.
  inversion Hsame as [? ? l' ? us Hall]; subst. cbn [node_names]. f_equal.
  clear Hsame. induction Hall as [|x y xs ys Hxy Hall IHall]; [done|].
  apply Forall_cons in IH as [IHx IH].
  rewrite !fmap_cons. cbn. f_equal; [by apply IHx|by apply IHall].
Qed.

Lemma join_fmap_perm {A B} (g : A -> list B) (xs ys : list A) :
  xs ≡ₚ ys -> mjoin (g <$> xs) ≡ₚ mjoin (g <$> ys).
Proof. intros Hp. by rewrite Hp. Qed.

Lemma shuffled_node_names t : forall u,
  shuffled t u -> node_names t ≡ₚ node_names u.
Proof.
  induction t as [nm l cs IH] using tree_ind. intros u Hsh.
  inversion Hsh as [? ? ? ks us Hperm Hall]; subst. cbn [node_names].
  apply Permutation_app_tail.
  rewrite (join_fmap_perm node_names cs ks Hperm).
  assert (IHks : Forall (fun c => forall u, shuffled c u ->
                           node_names c ≡ₚ node_names u) ks).
  { rewrite Forall_forall in IH |- *. intros k Hk. apply IH. by rewrite Hperm. }
  clear Hsh Hperm IH. induction Hall as [|x y xs ys Hxy Hall IHall]; [done|].
  apply Forall_cons in IHks as [IHx IHks].
  rewrite !fmap_cons. cbn. by rewrite (IHx y Hxy), (IHall IHks).
Qed.

(** Aligning a reshuffled tree with the source gives the arrangement that
    follows the source. *)
Lemma align_shuffled s : forall t u,
  NoDup (node_names s) ->
  (forall a s', node_at s a = Some s' -> is_tip s' = false ->
     is_Some (label_of s')) ->
  shuffled t u -> same_names s u ->
  align s t = Ok u.
Proof.
  induction s as [nm ls ss IH] using tree_ind. intros t u Hnd Hlab Hsh Hsame.
  inversion Hsame as [? ? lu ? us Hss]; subst.
  inversion Hsh as [? ? cs ks ? Hperm Hks]; subst.
  destruct ss as [|c ss].
  - inversion Hss; subst. inversion Hks; subst.
    apply Permutation_nil_r in Hperm as ->. by rewrite align_tip.
  - destruct (Hlab [] _ eq_refl eq_refl) as [label Hl].
    apply label_of_Some in Hl as [Hnm Hne]. cbn in Hnm. subst nm.
    rewrite align_internal by done. cbn [children].
    pose proof (node_names_NoDup_inv _ _ _ Hnd) as [Hnames Hnds].
    assert (Hsk : Forall2 (fun s k => name k = name s) (c :: ss) ks).
    { clear -Hss Hks. revert ks Hks.
      induction Hss as [|x y xs ys Hxy Hall IHall]; intros ks Hks.
      - inversion Hks. constructor.
      - inversion Hks as [|k ? ks' ? Hk Hks']; subst.
        constructor; [|by apply IHall].
        by rewrite <- (shuffled_name _ _ Hk), (same_names_name _ _ Hxy). }
    assert (Hkn : name <$> ks = name <$> (c :: ss)).
    { clear -Hsk. induction Hsk as [|x k xs ks' Hk Hall IHall]; [done|].
      by rewrite !fmap_cons, Hk, IHall. }
    assert (Hcn : NoDup (name <$> cs)) by (by rewrite Hperm, Hkn).
    assert (Hre : reorder_children (c :: ss) cs = Ok ks).
    { apply reorder_children_distinct; [done|].
      assert (Hin : Forall (fun k => k ∈ cs) ks).
      { apply Forall_forall. intros k Hk. by rewrite Hperm. }
      clear -Hsk Hin Hcn. induction Hsk as [|x k xs ks' Hk Hall IHall];
        [constructor|].
      apply Forall_cons in Hin as [Hkin Hin].
      constructor; [|by apply IHall].
      rewrite <- Hk. by apply name2child_distinct. }
    rewrite Hre, bind_Ok.
    rewrite (align_children_of_Forall3 align (c :: ss) ks us); [done|].
    assert (Hkids : forall i x a s',
      (c :: ss) !! i = Some x -> node_at x a = Some s' -> is_tip s' = false ->
      is_Some (label_of s')).
    { intros i x a s' Hx Ha Htip. apply (Hlab (a ++ [i])); [|done].
      rewrite node_at_snoc. cbn [children]. by rewrite Hx. }
    clear -IH Hnds Hss Hks Hkids. revert ks Hks Hkids.
    induction Hss as [|x y xs ys Hxy Hall IHall]; intros ks Hks Hkids.
    + inversion Hks. constructor.
    + inversion Hks as [|k ? ks' ? Hk Hks']; subst.
      apply Forall_cons in IH as [IHx IH].
      apply Forall_cons in Hnds as [Hx Hnds].
      constructor.
      * apply IHx; [done| |done|done]. intros a s'. by apply (Hkids 0).
      * apply IHall; [done|done|done|]. intros i. by apply (Hkids (S i)).
Qed.

(** *** Names are never added *)

Lemma reorder_children_NoDup ss ks : forall acc new,
  NoDup (name <$> acc) -> (forall x, x ∈ acc -> x ∈ ks) ->
  for_each (fun new c => x ← or_raise ChildMismatch (name2child ks !! name c);
                         Ok (append_child new x)) acc ss = Ok new ->
  NoDup (name <$> new) /\ (forall x, x ∈ new -> x ∈ ks).
Proof.
  induction ss as [|c ss IH]; intros acc new Hnd Hin Hfold.
  - cbn in Hfold. by injection Hfold as <-.
  - rewrite for_each_cons in Hfold.
    destruct (name2child ks !! name c) as [x|] eqn:Hx; [|done].
    cbn [or_raise] in Hfold. rewrite !bind_Ok in Hfold.
    apply name2child_Some in Hx as [Hxin _].
    apply (IH (append_child acc x) new); [| |done].
    + unfold append_child. rewrite fmap_app. apply NoDup_app. split; [|split].
      * apply (NoDup_fmap_2_strong name);
          [|by apply NoDup_filter, (NoDup_fmap_1 name)].
        intros y z [_ Hy]%list_elem_of_filter [_ Hz]%list_elem_of_filter Heq.
        by apply (NoDup_fmap_elem_inj name acc).
      * intros nm (y & -> & [Hy _]%list_elem_of_filter)%list_elem_of_fmap.
        cbn. intros Heq%list_elem_of_singleton. done.
      * cbn. apply NoDup_singleton.
    + intros y [[Hy _]| ->]%elem_of_append_child; auto.
Qed.

Lemma reorder_children_sub ss ks new :
  reorder_children ss ks = Ok new -> new ⊆+ ks.
Proof.
  intros Hre. destruct (reorder_children_NoDup ss ks [] new) as [Hnd Hin].
  - constructor.
  - intros x Hx. by apply elem_of_nil in Hx.
  - done.
  - apply NoDup_submseteq; [by apply (NoDup_fmap_1 name)|done].
Qed.

Lemma reorder_node_names res nsrc (res' : tree R) :
  reorder_node res nsrc = Ok res' -> node_names res' ⊆+ node_names res.
Proof.
  unfold reorder_node. destruct (is_tip nsrc); [by intros [= <-]|].
  destruct (name nsrc) as [label|]; [|done].
  case_bool_decide; [done|].
  destruct (find res (Some label)) as [p|]; [|done]. rewrite bind_Ok.
  destruct (node_at res p) as [ntrg|] eqn:Hp; [|done].
  cbn [or_raise]. rewrite bind_Ok.
  destruct (reorder_children _ _) as [kids|] eqn:Hkids; [|done].
  rewrite bind_Ok. intros [= <-].
  apply (node_names_modify_at _ _ res ntrg Hp).
  destruct ntrg as [tn tl tcs]. cbn [set_children name branch_length children
                                   node_names] in *.
  apply submseteq_skips_r, join_submseteq. by eapply reorder_children_sub.
Qed.

Lemma for_each_names (xs : list (tree R)) : forall res res',
  for_each reorder_node res xs = Ok res' -> node_names res' ⊆+ node_names res.
Proof.
  induction xs as [|x xs IH]; intros res res' Hfold.
  - cbn in Hfold. by injection Hfold as <-.
  - rewrite for_each_cons in Hfold.
    destruct (reorder_node res x) as [res1|] eqn:Hx; [|done].
    rewrite bind_Ok in Hfold.
    etrans; [by eapply IH|by eapply reorder_node_names].
Qed.

(** *** What a run needs *)

Lemma find_name_elem T label p :
  find T (Some label) = Ok p -> Some label ∈ node_names T.
Proof.
  intros (t & Hp & Hnm)%find_Some.
  apply (node_at_postorder p T t []) in Hp.
  rewrite <- (postorder_names T []). apply list_elem_of_fmap.
  exists (p ++ [], t). split; [cbn; by rewrite Hnm|done].
Qed.

Lemma for_each_needs (xs : list (tree R)) : forall res nsrc,
  nsrc ∈ xs -> is_tip nsrc = false ->
  label_of nsrc = None \/ name nsrc ∉ node_names res ->
  exists e, for_each reorder_node res xs = Err e.
Proof.
  induction xs as [|x xs IH]; intros res nsrc Hin Htip Hbad.
  - by apply elem_of_nil in Hin.
  - rewrite for_each_cons.
    destruct (reorder_node res x) as [res1|e] eqn:Hx; [|eauto].
    rewrite bind_Ok. apply elem_of_cons in Hin as [<-|Hin].
    + exfalso. unfold reorder_node in Hx. rewrite Htip in Hx.
      unfold label_of in Hbad.
      destruct (name nsrc) as [label|]; [|done].
      case_bool_decide as Hl; [done|].
      rewrite bool_decide_eq_true_2 in Hbad by done.
      destruct Hbad as [?|Hbad]; [done|].
      destruct (find res (Some label)) as [p|] eqn:Hfind; [|done].
      by apply Hbad, (find_name_elem _ _ p).
    + apply (IH res1 nsrc Hin Htip).
      destruct Hbad as [?|Hbad]; [by left|]. right. intros Hn. apply Hbad.
      pose proof (reorder_node_names _ _ _ Hx) as Hsub.
      by apply (elem_of_submseteq _ _ _ Hn).
Qed.

Lemma elem_of_preorder T a s : node_at T a = Some s -> s ∈ preorder T.
Proof.
  revert T s. induction a as [|i a IH] using rev_ind; intros T s Hs.
  - cbn in Hs. injection Hs as ->. destruct s. cbn. by left.
  - rewrite node_at_snoc in Hs.
    destruct (children T !! i) as [c|] eqn:Hc; [|done]. cbn in Hs.
    destruct T as [nm l cs]. rewrite preorder_eq. right.
    apply list_elem_of_join. exists (preorder c). split; [by apply IH|].
    apply list_elem_of_fmap_2. by eapply list_elem_of_lookup_2.
Qed.

End sorting.

(** Sorting: when [u] is the target with the children of its nodes put in
    another order, and [u] carries the names of [src] node by node and in
    the order of [src], then [restore_node_order] returns [u], provided no
    two nodes of [src] share a name and every internal node of [src] has a
    non-empty label.  The branch lengths are those of the target.  In
    particular [src] comes back from any reshuffling of itself. *)
Theorem restore_node_order_sorts {R} `{LengthOps R} (src trg u : tree R) :
  NoDup (node_names src) ->
  Forall (fun x => is_Some (label_of x.2)) (non_tips src []) ->
  shuffled trg u -> same_names src u ->
  restore_node_order src trg = Ok u.
Proof.
  intros Hnd Hlab Hsh Hsame. unfold restore_node_order.
  assert (Hnd' : NoDup (node_names trg)).
  { by rewrite (shuffled_node_names _ _ Hsh), (same_names_node_names _ _ Hsame). }
  rewrite (fold_align src trg [] trg Hnd (NoDup_present _ Hnd') eq_refl).
  2:{ by rewrite <- (shuffled_name _ _ Hsh), (same_names_name _ _ Hsame). }
  rewrite (align_shuffled src trg u); [done|done| |done|done].
  intros a s Ha Htip. rewrite Forall_forall in Hlab.
  by apply (Hlab (a, s)), elem_of_non_tips_2.
Qed.

Lemma restore_node_order_sorts_witness :
  restore_node_order Ex.src Ex.src_shuffled = Ok Ex.src.
Proof.
  apply restore_node_order_sorts.
  - compute_done.
  - compute_done.
  - apply (shuffled_node _ _ _
             [Ex.clade "x" [Ex.tip "b"; Ex.tip "a"];
              Ex.clade "y" [Ex.tip "e"; Ex.tip "c"; Ex.tip "d"]]).
    + apply perm_swap.
    + constructor; [|constructor; [|constructor]].
      * apply (shuffled_node _ _ _ [Ex.tip "a"; Ex.tip "b"]);
          [apply perm_swap|].
        repeat (constructor; [apply shuffled_refl|]). constructor.
      * apply (shuffled_node _ _ _ [Ex.tip "c"; Ex.tip "d"; Ex.tip "e"]).
        -- etrans; [apply perm_swap|]. apply perm_skip, perm_swap.
        -- repeat (constructor; [apply shuffled_refl|]). constructor.
  - apply same_names_refl.
Defined.

(** [restore_node_order] adds no node and renames none: the names of the
    nodes of the result, counted with repetition, are among those of the
    target. *)
Theorem restore_node_order_adds_no_node {R} `{LengthOps R}
    (src trg res : tree R) :
  restore_node_order src trg = Ok res ->
  node_names res ⊆+ node_names trg.
Proof. apply for_each_names. Qed.

Lemma restore_node_order_adds_no_node_witness :
  node_names Ex.src_few ⊆+ node_names Ex.trg_more.
Proof.
  apply (restore_node_order_adds_no_node Ex.src_few Ex.trg_more Ex.src_few).
  vm_compute. reflexivity.
Defined.

(** What a run needs: [restore_node_order] raises an exception whenever
    some internal node of [src] has no label, or has a label that no node
    of the target carries. *)
Theorem restore_node_order_needs_labels {R} `{LengthOps R}
    (src trg nsrc : tree R) (a : addr) :
  node_at src a = Some nsrc -> is_tip nsrc = false ->
  label_of nsrc = None \/ name nsrc ∉ node_names trg ->
  exists e, restore_node_order src trg = Err e.
Proof.
  intros Ha Htip Hbad. unfold restore_node_order.
  apply (for_each_needs _ trg nsrc); [by eapply elem_of_preorder|done|done].
Qed.

Lemma restore_node_order_needs_labels_witness :
  (exists e, restore_node_order Ex.trg_good Ex.trg_good = Err e)
  /\ (exists e, restore_node_order Ex.src Ex.trg_good = Err e).
Proof.
  split.
  - apply (restore_node_order_needs_labels Ex.trg_good Ex.trg_good
             Ex.trg_good []); [reflexivity|reflexivity|by left].
  - apply (restore_node_order_needs_labels Ex.src Ex.trg_good
             (Ex.clade "x" [Ex.tip "a"; Ex.tip "b"]) [0]);
      [reflexivity|reflexivity|right; compute_done].
Defined.

Section application_facts.
Context {R : Type} `{LengthOps R}.
Implicit Types (T n s t src trg : tree R) (p q : addr).

Lemma check_labels_from_cons (x : addr * tree R) xs (labels : gset string) :
  check_labels_from labels (x :: xs) =
    match label_of x.2 with
    | None => inl NoLabel
    | Some label =>
        if bool_decide (label ∈ labels) then inl (DuplicatedLabel label)
        else check_labels_from (labels ∪ {[label]}) xs
    end.
Proof.
  cbn [check_labels_from]. unfold label_of.
  destruct (name x.2) as [label|]; [|done].
  destruct (decide (label = "")) as [->|Hne].
  - rewrite (bool_decide_eq_true_2 ("" = "")) by done.
    rewrite (bool_decide_eq_false_2 ("" <> "")); [done|].
    intros Hn. by apply Hn.
  - rewrite (bool_decide_eq_false_2 (label = "")) by done.
    by rewrite (bool_decide_eq_true_2 (label <> "")).
Qed.

Lemma omap_cons_label (x : addr * tree R) xs :
  omap (fun x => label_of x.2) (x :: xs) =
    match label_of x.2 with
    | Some label => label :: omap (fun x => label_of x.2) xs
    | None => omap (fun x => label_of x.2) xs
    end.
Proof. reflexivity. Qed.

Lemma check_labels_from_ok (xs : list (addr * tree R)) : forall labels out,
  check_labels_from labels xs = inr out <->
  Forall (fun x => is_Some (label_of x.2)) xs
  /\ NoDup (omap (fun x => label_of x.2) xs)
  /\ (forall l, l ∈ omap (fun x => label_of x.2) xs -> l ∉ labels)
  /\ out = labels ∪ list_to_set (omap (fun x => label_of x.2) xs).
Proof.
  induction xs as [|x xs IH]; intros labels out.
  - cbn. rewrite (right_id_L ∅ (∪)). split.
    + intros [= <-]. repeat split; [constructor|constructor|].
      intros l Hl. by apply elem_of_nil in Hl.
    + by intros (_ & _ & _ & ->).
  - rewrite check_labels_from_cons, omap_cons_label, Forall_cons.
    destruct (label_of x.2) as [label|].
    2:{ split; [done|]. intros ([[? ?] _] & _); done. }
    destruct (decide (label ∈ labels)) as [Hin|Hin].
    { rewrite bool_decide_eq_true_2 by done. split; [done|].
      intros (_ & _ & Hfresh & _). exfalso.
      apply (Hfresh label); [by left|done]. }
    rewrite bool_decide_eq_false_2 by done. rewrite IH.
    rewrite NoDup_cons, list_to_set_cons, (assoc_L (∪)). split.
    + intros (Hall & Hnd & Hfresh & ->).
      split; [split; [eauto|done]|]. split; [split; [|done]|].
      * intros Hl. apply (Hfresh _ Hl), elem_of_union. right.
        by apply elem_of_singleton.
      * split; [|done].
        intros l [->|Hl]%elem_of_cons; [done|].
        intros Hl'. apply (Hfresh _ Hl), elem_of_union. by left.
    + intros ([_ Hall] & [Hl Hnd] & Hfresh & ->).
      split; [done|]. split; [done|]. split; [|done].
      intros l Hl' [Hl''| ->%elem_of_singleton]%elem_of_union; [|done].
      apply (Hfresh l); [by right|done].
Qed.

Lemma non_tips_below_eq nm (l : option R) cs p :
  non_tips_below (Node nm l cs) p
  = filter (fun x => is_tip x.2 = false /\ x.1 <> p)
      (post_children postorder p cs 0).
Proof.
  unfold non_tips_below. rewrite postorder_eq, filter_app.
  rewrite filter_cons_False by (intros [_ Hp]; by apply Hp).
  by rewrite filter_nil, app_nil_r.
Qed.

Lemma for_each_needs_apex src trg :
  is_tip src = false -> label_of src = None ->
  exists e, restore_node_order src trg = Err e.
Proof.
  intros Htip Hl. unfold restore_node_order.
  apply (for_each_needs _ trg src); [|done|by left].
  destruct src. cbn. by left.
Qed.

End application_facts.

(** The label check of the application passes exactly when every internal
    node below the apex has a non-empty label and no two of them share one;
    it then ends with the set of these labels.  The apex is never looked
    at: [non_tips()] leaves it out, so its name does not matter. *)
Theorem check_labels_spec {R} `{LengthOps R} (tori : tree R)
    (labels : gset string) :
  (check_labels tori = inr labels <->
   Forall (fun x => is_Some (label_of x.2)) (non_tips_below tori [])
   /\ NoDup (omap (fun x => label_of x.2) (non_tips_below tori []))
   /\ labels = list_to_set (omap (fun x => label_of x.2) (non_tips_below tori [])))
  /\ forall nm, check_labels (set_name nm tori) = check_labels tori.
Proof.
  split.
  - unfold check_labels. rewrite check_labels_from_ok, (left_id_L ∅ (∪)).
    split.
    + by intros (Hall & Hnd & _ & ->).
    + intros (Hall & Hnd & ->). split; [done|]. split; [done|].
      split; [|done]. intros l _. apply not_elem_of_empty.
  - intros nm. unfold check_labels. destruct tori as [nm0 l cs].
    unfold set_name. cbn [branch_length children].
    by rewrite !non_tips_below_eq.
Qed.

Lemma check_labels_spec_witness :
  check_labels Ex.src = inr {["x"; "y"]}
  /\ check_labels (set_name None Ex.src) = check_labels Ex.src.
Proof.
  destruct (check_labels_spec Ex.src {["x"; "y"]}) as [[_ Hpass] Hapex].
  split; [|apply Hapex]. apply Hpass. repeat split; compute_done.
Defined.

(** The application needs a label on the apex of the original tree, which
    its label check does not ask for: without one, the three steps never
    end with a tree.  When the first two pass, [restore_node_order] stops
    at the apex of [tori], the first node it visits. *)
Theorem restore_all_needs_apex_label {R} `{LengthOps R} (tori tres : tree R) :
  label_of tori = None ->
  exists e, restore_all tori tres = Err e.
Proof.
  intros Hl. unfold restore_all.
  destruct (restore_rooting tori tres) as [tout|e] eqn:Hroot; [|eauto].
  rewrite bind_Ok.
  destruct (restore_node_labels tori tout) as [tout2|e]; [|eauto].
  rewrite bind_Ok. apply for_each_needs_apex; [|done].
  unfold restore_rooting in Hroot.
  case_bool_decide as Hlen; [done|].
  destruct tori as [nm l [|c cs]]; [|done]. cbn in Hlen. lia.
Qed.

Lemma restore_all_needs_apex_label_witness :
  (exists e, restore_all Ex.src_unnamed Ex.trg_good = Err e)
  /\ check_labels Ex.src_unnamed = inr {["x"; "y"]}.
Proof.
  split; [|compute_done].
  apply restore_all_needs_apex_label. reflexivity.
Defined.

(** ** The marks of [lca] *)

Section marks.
Implicit Types (B : gmap addr (list addr)) (F l : list addr) (v p f t x : addr).

Lemma marked_Some B v : is_Some (B !! v) -> marked B v = 1.
Proof. unfold marked. by intros [? ->]. Qed.

Lemma above_irrefl v : ~ above v v.
Proof.
  intros (a & i & Heq). apply (f_equal length) in Heq.
  rewrite length_app in Heq. simpl in Heq. lia.
Qed.

Lemma above_suffix v f : above v f <-> v `suffix_of` f /\ v <> f.
Proof.
  split.
  - intros (a & i & ->). split.
    + exists (a ++ [i]). by rewrite <- (assoc_L (++)).
    + intros Heq. apply (f_equal length) in Heq.
      rewrite length_app in Heq. simpl in Heq. lia.
  - intros [[k ->] Hne]. destruct k as [|i k _] using rev_ind; [done|].
    exists k, i. by rewrite <- (assoc_L (++)).
Qed.

Lemma above_dec v f : {above v f} + {~ above v f}.
Proof.
  destruct (decide (v `suffix_of` f /\ v <> f)) as [Hs|Hs];
    [left|right]; by rewrite above_suffix.
Qed.

Lemma above_trans u v f : above v u -> above u f -> above v f.
Proof.
  intros (a & i & ->) (b & j & ->). exists (b ++ j :: a), i.
  by rewrite <- (assoc_L (++)).
Qed.

Lemma above_child i v : above v (i :: v).
Proof. by exists [], i. Qed.

Lemma above_cons j curr v : above v (j :: curr) -> v = curr \/ above v curr.
Proof.
  intros ([|k a] & i & Heq); cbn in Heq.
  - left. congruence.
  - right. injection Heq as _ ->. by exists a, i.
Qed.

(** Two children of one node that are above or at the same node are one. *)
Lemma same_branch a i b j v : a ++ i :: v = b ++ j :: v -> i = j.
Proof.
  intros Heq.
  assert (Hlen : length a = length b).
  { apply (f_equal length) in Heq. rewrite !length_app in Heq. simpl in Heq. lia. }
  apply app_inj_1 in Heq as [_ Heq]; [congruence|done].
Qed.

Lemma occurrences_app x l k :
  occurrences x (l ++ k) = occurrences x l + occurrences x k.
Proof. unfold occurrences. by rewrite filter_app, length_app. Qed.

Lemma occurrences_singleton x y :
  occurrences x [y] = if decide (y = x) then 1 else 0.
Proof.
  unfold occurrences. rewrite filter_cons. by destruct (decide (y = x)).
Qed.

Lemma occurrences_pos x l : x ∈ l <-> 0 < occurrences x l.
Proof.
  unfold occurrences. split.
  - intros Hin. assert (Hf : x ∈ filter (fun y => y = x) l)
      by by apply list_elem_of_filter.
    destruct (filter _ l); [by apply elem_of_nil in Hf|simpl; lia].
  - intros Hpos. destruct (filter (fun y => y = x) l) as [|y k] eqn:Hf;
      [simpl in Hpos; lia|].
    assert (Hy : y ∈ filter (fun y => y = x) l) by (rewrite Hf; by left).
    apply list_elem_of_filter in Hy as [-> Hy]. done.
Qed.

(** What one walk changes. *)
Lemma mark_up_lookup prev : forall B v,
  (forall a i, prev = a ++ i :: v ->
     (forall a1 a2, a = a1 ++ a2 -> a1 <> [] -> B !! (a2 ++ i :: v) = None) ->
     mark_up B prev !! v = Some (default [] (B !! v) ++ [i :: v]))
  /\ (forall a i, prev = a ++ i :: v ->
        (exists a1 a2, a = a1 ++ a2 /\ a1 <> [] /\ is_Some (B !! (a2 ++ i :: v))) ->
        mark_up B prev !! v = B !! v)
  /\ (~ above v prev -> mark_up B prev !! v = B !! v).
Proof.
  induction prev as [|j curr IH]; intros B v.
  - split; [|split].
    + intros a i Heq. by destruct a.
    + intros a i Heq. by destruct a.
    + done.
  - cbn [mark_up]. split; [|split].
    + intros a i Heq Hfree. destruct a as [|j' a']; cbn in Heq.
      * injection Heq as -> ->. destruct (B !! v) as [l|] eqn:Hv.
        -- by rewrite lookup_insert_eq.
        -- destruct (IH (<[v:=[i :: v]]> B) v) as (_ & _ & Hout).
           rewrite Hout by apply above_irrefl. by rewrite lookup_insert_eq.
      * injection Heq as -> ->.
        rewrite (Hfree [j'] a') by done.
        destruct (IH (<[a' ++ i :: v := [j' :: a' ++ i :: v]]> B) v)
          as (Hin & _ & _).
        assert (Hne : a' ++ i :: v <> v).
        { intros Heq. apply (above_irrefl v). by exists a', i. }
        rewrite (Hin a' i eq_refl).
        -- by rewrite lookup_insert_ne.
        -- intros a1 a2 -> Ha1. rewrite lookup_insert_ne.
           ++ apply (Hfree (j' :: a1) a2); done.
           ++ intros Heq. apply (f_equal length) in Heq.
              rewrite !length_app in Heq. destruct a1; [done|]. simpl in Heq. lia.
    + intros a i Heq (a1 & a2 & -> & Ha1 & Hmark).
      destruct a1 as [|j' a1]; [done|]. cbn in Heq. injection Heq as -> ->.
      assert (Hne : (a1 ++ a2) ++ i :: v <> v).
      { intros Heq. apply (above_irrefl v). by exists (a1 ++ a2), i. }
      destruct (B !! ((a1 ++ a2) ++ i :: v)) as [l|] eqn:Hcurr.
      * by rewrite lookup_insert_ne.
      * destruct (IH (<[(a1 ++ a2) ++ i :: v := [j' :: (a1 ++ a2) ++ i :: v]]> B) v)
          as (_ & Hstop & _).
        rewrite (Hstop (a1 ++ a2) i eq_refl).
        -- by rewrite lookup_insert_ne.
        -- exists a1, a2. split; [done|].
           assert (a1 <> []).
           { intros ->. cbn in Hcurr. rewrite Hcurr in Hmark. by destruct Hmark. }
           split; [done|]. rewrite lookup_insert_ne; [done|].
           intros Heq. rewrite <- Heq, Hcurr in Hmark. by destruct Hmark.
    + intros Hout.
      assert (Hne : curr <> v).
      { intros ->. apply Hout, above_child. }
      assert (Hout' : ~ above v curr).
      { intros (a & i & ->). apply Hout. by exists (j :: a), i. }
      destruct (B !! curr) as [l|] eqn:Hcurr.
      * by rewrite lookup_insert_ne.
      * destruct (IH (<[curr := [j :: curr]]> B) v) as (_ & _ & Hsame).
        rewrite Hsame by done. by rewrite lookup_insert_ne.
Qed.

Lemma marks_closed B F u v :
  marks_of B F -> is_Some (B !! u) -> above v u -> is_Some (B !! v).
Proof.
  intros HB Hu Hvu. apply (marks_dom _ _ HB) in Hu as (f & Hf & Huf).
  apply (marks_dom _ _ HB). exists f. split; [done|]. by eapply above_trans.
Qed.

Lemma marks_empty : marks_of ∅ [].
Proof.
  split.
  - intros v. rewrite lookup_empty. split; [by intros []|].
    intros (f & Hf & _). by apply elem_of_nil in Hf.
  - intros v l x Hl. by rewrite lookup_empty in Hl.
  - intros v l i Hl. by rewrite lookup_empty in Hl.
Qed.

(** One walk, seen from a node above its start. *)
Lemma mark_up_above B F t a i v :
  marks_of B F -> t = a ++ i :: v ->
  mark_up B t !! v =
    if decide (a = [] \/ B !! (i :: v) = None)
    then Some (default [] (B !! v) ++ [i :: v])
    else B !! v.
Proof.
  intros HB ->. destruct (mark_up_lookup (a ++ i :: v) B v) as (Hin & Hstop & _).
  destruct (decide _) as [Hcond|Hcond].
  - apply (Hin a i eq_refl). intros a1 a2 -> Ha1.
    destruct Hcond as [Hnil|Hfree]; [by destruct a1|].
    destruct (B !! (a2 ++ i :: v)) as [l|] eqn:Hl; [|done]. exfalso.
    destruct a2 as [|k a2 _] using rev_ind.
    + cbn in Hl. congruence.
    + assert (Hs : is_Some (B !! (i :: v))).
      { apply (marks_closed B F ((a2 ++ [k]) ++ i :: v)); [done|by eexists|].
        exists a2, k. by rewrite <- (assoc_L (++)). }
      rewrite Hfree in Hs. by destruct Hs.
  - apply (Hstop a i eq_refl). exists a, [].
    rewrite app_nil_r. split; [done|]. split; [tauto|].
    cbn. destruct (B !! (i :: v)); [done|]. exfalso. tauto.
Qed.

Lemma mark_up_other B t v : ~ above v t -> mark_up B t !! v = B !! v.
Proof. apply mark_up_lookup. Qed.

Lemma above_snoc a i v : a <> [] -> exists a' i', a ++ i :: v = a' ++ i' :: i :: v.
Proof.
  intros Ha. destruct a as [|k a _] using rev_ind; [done|].
  exists a, k. by rewrite <- (assoc_L (++)).
Qed.

Lemma marked_mark_up B F t v :
  marks_of B F ->
  marked (mark_up B t) v = if above_dec v t then 1 else marked B v.
Proof.
  intros HB. unfold marked. destruct (above_dec v t) as [(a & i & ->)|Hout].
  - rewrite (mark_up_above B F _ a i v HB eq_refl).
    destruct (decide _) as [_|Hcond]; [done|].
    destruct (B !! v) eqn:Hv; [done|]. exfalso. apply Hcond. right.
    destruct (B !! (i :: v)) eqn:Hc; [|done].
    assert (Hs : is_Some (B !! v)).
    { apply (marks_closed B F (i :: v)); [done|by eexists|apply above_child]. }
    rewrite Hv in Hs. by destruct Hs.
  - by rewrite mark_up_other.
Qed.

Lemma marks_step B F t : marks_of B F -> marks_of (mark_up B t) (F ++ [t]).
Proof.
  intros HB. split.
  - intros v. split.
    + intros Hv. destruct (above_dec v t) as [Ht|Ht].
      * exists t. split; [|done]. apply elem_of_app. right. by left.
      * rewrite mark_up_other in Hv by done.
        apply (marks_dom _ _ HB) in Hv as (f & Hf & Hvf).
        exists f. split; [|done]. apply elem_of_app. by left.
    + intros (f & Hf & Hvf).
      assert (Hm : marked (mark_up B t) v = 1); [|unfold marked in Hm;
        by destruct (mark_up B t !! v)].
      rewrite (marked_mark_up B F) by done.
      destruct (above_dec v t) as [|Ht]; [done|].
      apply elem_of_app in Hf as [Hf|Hf].
      * assert (Hs : is_Some (B !! v)) by (apply (marks_dom _ _ HB); eauto).
        unfold marked. by destruct Hs as [? ->].
      * apply list_elem_of_singleton in Hf as ->. done.
  - intros v l x Hl Hx. destruct (above_dec v t) as [(a & i & ->)|Ht].
    + rewrite (mark_up_above B F _ a i v HB eq_refl) in Hl.
      destruct (decide _) as [_|_].
      * injection Hl as <-. apply elem_of_app in Hx as [Hx|Hx].
        -- destruct (B !! v) as [l|] eqn:Hv; [|by apply elem_of_nil in Hx].
           by apply (marks_children _ _ HB v l).
        -- apply list_elem_of_singleton in Hx as ->. eauto.
      * by apply (marks_children _ _ HB v l).
    + rewrite mark_up_other in Hl by done.
      by apply (marks_children _ _ HB v l).
  - intros v l j Hl. rewrite occurrences_app, occurrences_singleton.
    rewrite (marked_mark_up B F) by done.
    assert (Hold : forall l0, B !! v = Some l0 ->
              occurrences (j :: v) l0 = occurrences (j :: v) F + marked B (j :: v))
      by (intros l0; apply (marks_count _ _ HB)).
    assert (Hnone : B !! v = None ->
              occurrences (j :: v) F = 0 /\ marked B (j :: v) = 0).
    { intros Hv. split.
      - destruct (occurrences (j :: v) F) eqn:Hocc; [done|]. exfalso.
        assert (Hin : j :: v ∈ F) by (apply occurrences_pos; lia).
        assert (Hs : is_Some (B !! v)).
        { apply (marks_dom _ _ HB). exists (j :: v). split; [done|apply above_child]. }
        rewrite Hv in Hs. by destruct Hs.
      - unfold marked. destruct (B !! (j :: v)) eqn:Hc; [|done]. exfalso.
        assert (Hs : is_Some (B !! v)).
        { apply (marks_closed B F (j :: v)); [done|by eexists|apply above_child]. }
        rewrite Hv in Hs. by destruct Hs. }
    destruct (above_dec v t) as [(a & i & ->)|Ht].
    + rewrite (mark_up_above B F _ a i v HB eq_refl) in Hl.
      destruct (decide (a = [] \/ B !! (i :: v) = None)) as [Hcond|Hcond].
      * injection Hl as <-. rewrite occurrences_app, occurrences_singleton.
        assert (Hbase : occurrences (j :: v) (default [] (B !! v))
                  = occurrences (j :: v) F + marked B (j :: v)).
        { destruct (B !! v) as [l0|] eqn:Hv; [by apply Hold|].
          destruct (Hnone eq_refl) as [-> ->]. done. }
        rewrite Hbase. destruct (decide (i :: v = j :: v)) as [[= ->]|Hij].
        -- destruct a as [|k a].
           ++ cbn. rewrite decide_True by done.
              destruct (above_dec (j :: v) (j :: v)) as [Hab|_];
                [by apply above_irrefl in Hab|]. lia.
           ++ destruct Hcond as [|Hfree]; [done|].
              rewrite decide_False.
              2:{ intros Heq. apply (f_equal length) in Heq.
                  rewrite length_app in Heq. simpl in Heq. lia. }
              destruct (above_snoc (k :: a) j v) as (a' & i' & Heq); [done|].
              destruct (above_dec _ _) as [_|Hn];
                [|exfalso; apply Hn; by exists a', i'].
              unfold marked. rewrite Hfree. lia.
        -- rewrite decide_False.
           2:{ intros Heq. apply Hij. f_equal. symmetry.
               apply (same_branch [] j a i v). done. }
           destruct (above_dec _ _) as [(b & k & Heq)|_]; [|lia].
           exfalso. apply Hij. f_equal.
           apply (same_branch a i (b ++ [k]) j v).
           by rewrite <- (assoc_L (++)).
      * rewrite (Hold l Hl).
        assert (Ha : a <> []) by tauto.
        rewrite decide_False.
        2:{ intros Heq. apply (f_equal length) in Heq.
            rewrite length_app in Heq. destruct a; [done|]. simpl in Heq. lia. }
        destruct (above_dec (j :: v) (a ++ i :: v)) as [(b & k & Heq)|Hout];
          [|lia].
        assert (j = i) as ->.
        { symmetry. apply (same_branch a i (b ++ [k]) j v).
          by rewrite <- (assoc_L (++)). }
        unfold marked. destruct (B !! (i :: v)); [lia|]. exfalso. tauto.
    + rewrite mark_up_other in Hl by done. rewrite (Hold l Hl).
      rewrite decide_False.
      2:{ intros ->. apply Ht, above_child. }
      destruct (above_dec _ _) as [Habove|_]; [|lia].
      exfalso. apply Ht. eapply above_trans; [apply above_child|done].
Qed.

Lemma marks_foldl F : forall B F0,
  marks_of B F0 -> marks_of (foldl mark_up B F) (F0 ++ F).
Proof.
  induction F as [|t F IH]; intros B F0 HB.
  - by rewrite app_nil_r.
  - cbn [foldl]. rewrite (cons_middle t F0 F), (assoc_L (++)).
    apply IH. by apply marks_step.
Qed.

Lemma marks_found F : marks_of (foldl mark_up ∅ F) F.
Proof. apply (marks_foldl F ∅ []), marks_empty. Qed.

Lemma occurrences_two x y l :
  x <> y -> occurrences x l + occurrences y l <= length l.
Proof.
  intros Hne. unfold occurrences. induction l as [|z l IH]; [done|].
  rewrite !filter_cons.
  destruct (decide (z = x)) as [Hx|Hx], (decide (z = y)) as [Hy|Hy];
    simpl; try lia. congruence.
Qed.

Lemma occurrences_all x l :
  (forall y, y ∈ l -> y = x) -> occurrences x l = length l.
Proof.
  intros Hall. unfold occurrences. induction l as [|z l IH]; [done|].
  rewrite filter_cons_True by (apply Hall; by left).
  simpl. f_equal. apply IH. intros y Hy. apply Hall. by right.
Qed.

(** Above a node that all found nodes are below, every node is marked with
    its child on the way down to that node, and with nothing else. *)
Lemma marks_chain B F p f0 v :
  marks_of B F -> (forall f, f ∈ F -> above p f) -> f0 ∈ F -> above v p ->
  exists k, B !! v = Some [k :: v] /\ (k :: v = p \/ above (k :: v) p).
Proof.
  intros HB Hbelow Hf0 (b & k & ->). exists k.
  assert (Hs : is_Some (B !! v)).
  { apply (marks_dom _ _ HB). exists f0. split; [done|].
    eapply above_trans; [by eexists _, _|by apply Hbelow]. }
  destruct Hs as [l Hl].
  assert (HnotF : forall j, j :: v ∉ F).
  { intros j Hj. destruct (Hbelow _ Hj) as (a & i & Heq).
    apply (f_equal length) in Heq. rewrite !length_app in Heq. simpl in Heq.
    rewrite length_app in Heq. simpl in Heq. lia. }
  assert (Hocc : forall j, occurrences (j :: v) l = marked B (j :: v)).
  { intros j. rewrite (marks_count _ _ HB v l j Hl).
    destruct (occurrences (j :: v) F) eqn:Hocc; [done|]. exfalso.
    apply (HnotF j), occurrences_pos. lia. }
  assert (Hk : marked B (k :: v) = 1).
  { assert (Hs : is_Some (B !! (k :: v))).
    { apply (marks_dom _ _ HB). exists f0. split; [done|].
      destruct (Hbelow _ Hf0) as (a & i & ->).
      destruct (above_snoc (a ++ i :: b) k v) as (a' & i' & Heq);
        [by destruct a|].
      exists a', i'. rewrite <- Heq. by rewrite <- (assoc_L (++)). }
    unfold marked. by destruct Hs as [? ->]. }
  assert (Hall : forall x, x ∈ l -> x = k :: v).
  { intros x Hx. destruct (marks_children _ _ HB v l x Hl Hx) as [j ->].
    apply occurrences_pos in Hx. rewrite Hocc in Hx.
    unfold marked in Hx. destruct (B !! (j :: v)) eqn:Hj; [|lia].
    assert (Hs : is_Some (B !! (j :: v))) by by eexists.
    apply (marks_dom _ _ HB) in Hs as (f & Hf & (a' & i' & ->)).
    destruct (Hbelow _ Hf) as (a & i & Heq). f_equal.
    apply (same_branch (a' ++ [i']) j (a ++ i :: b) k v).
    rewrite <- !app_assoc. cbn. by rewrite Heq. }
  split.
  - pose proof (occurrences_all _ _ Hall) as Hlen.
    rewrite Hocc, Hk in Hlen. destruct l as [|x [|y l]]; try done.
    by rewrite <- (Hall x) by by left.
  - destruct b as [|i b _] using rev_ind; [by left|].
    right. exists b, i. by rewrite <- (assoc_L (++)).
Qed.

(** A node with found nodes at or below two of its children is marked more
    than once. *)
Lemma marks_fork B F p a1 i1 a2 i2 :
  marks_of B F ->
  a1 ++ i1 :: p ∈ F -> a2 ++ i2 :: p ∈ F -> i1 <> i2 ->
  exists l, B !! p = Some l /\ 2 <= length l.
Proof.
  intros HB H1 H2 Hne.
  assert (Hs : is_Some (B !! p)).
  { apply (marks_dom _ _ HB). exists (a1 ++ i1 :: p). split; [done|by eexists _, _]. }
  destruct Hs as [l Hl]. exists l. split; [done|].
  assert (Hpos : forall a i, a ++ i :: p ∈ F -> 0 < occurrences (i :: p) l).
  { intros a i Hin. rewrite (marks_count _ _ HB p l i Hl).
    destruct a as [|k a].
    - change ([] ++ i :: p) with (i :: p) in Hin.
      apply occurrences_pos in Hin. lia.
    - assert (Hs : is_Some (B !! (i :: p))).
      { apply (marks_dom _ _ HB). exists ((k :: a) ++ i :: p). split; [done|].
        destruct (above_snoc (k :: a) i p) as (a' & i' & ->); [done|].
        by exists a', i'. }
      rewrite (marked_Some _ _ Hs). lia. }
  pose proof (Hpos _ _ H1). pose proof (Hpos _ _ H2).
  assert (Hd : i1 :: p <> i2 :: p) by congruence.
  pose proof (occurrences_two (i1 :: p) (i2 :: p) l Hd) as Htwo. lia.
Qed.

(** The descent follows the single marks and stops at the first node that
    is marked more than once. *)
Lemma descend_to B p l : forall fuel v,
  (forall v, above v p ->
     exists k, B !! v = Some [k :: v] /\ (k :: v = p \/ above (k :: v) p)) ->
  B !! p = Some l -> 2 <= length l ->
  v = p \/ above v p ->
  length p - length v < fuel ->
  descend fuel B v = Ok p.
Proof.
  induction fuel as [|fuel IH]; intros v Hchain Hl Hlen Hv Hfuel; [lia|].
  cbn [descend]. destruct Hv as [->|Hv].
  - rewrite Hl. cbn. destruct l as [|x [|y l']]; simpl in Hlen; try lia. done.
  - destruct (Hchain v Hv) as (k & Hk & Hnext). rewrite Hk. cbn.
    apply IH; [done|done|done|done|].
    destruct Hv as (a & i & ->). rewrite length_app in Hfuel |- *.
    simpl in *. lia.
Qed.

End marks.

(** ** The lowest common ancestor of a clade *)

Section lowest.
Context {R : Type} `{LengthOps R}.
Implicit Types (T n s t : tree R) (p q a : addr).

Lemma mapM_Ok {A B} (f : A -> result B) (xs : list A) (ys : list B) :
  mapM f xs = Ok ys <-> Forall2 (fun x y => f x = Ok y) xs ys.
Proof.
  revert ys. induction xs as [|x xs IH]; intros ys.
  - rewrite mapM_nil. split.
    + intros [= <-]. constructor.
    + by inversion 1.
  - rewrite mapM_cons. split.
    + destruct (f x) as [y|] eqn:Hx; [|done]. rewrite bind_Ok.
      destruct (mapM f xs) as [k|] eqn:Hk; [|done].
      rewrite bind_Ok. intros [= <-]. constructor; [done|]. by apply IH.
    + inversion 1 as [|? y ? k Hx Hk]; subst.
      rewrite Hx, bind_Ok. apply IH in Hk. by rewrite Hk.
Qed.

(** Every clade has a tip, and the tips of a clade are found at their
    addresses. *)
Lemma clade_has_tip t :
  exists a tip, node_at t a = Some tip /\ is_tip tip = true.
Proof.
  induction t as [nm l cs IH] using tree_ind.
  destruct cs as [|c cs]; [by exists [], (Node nm l [])|].
  apply Forall_cons in IH as [(a & tip & Ha & Htip) _].
  exists (a ++ [0]), tip. split; [|done]. by rewrite node_at_snoc.
Qed.

Lemma elem_of_clade_tip_list n nm :
  nm ∈ clade_tip_list n <->
  exists a tip, node_at n a = Some tip /\ is_tip tip = true /\ name tip = nm.
Proof.
  rewrite <- (postorder_tips n []), list_elem_of_fmap. split.
  - intros ([a tip] & -> & [Htip Hin]%list_elem_of_filter).
    apply postorder_node_at in Hin as (a' & -> & Ha').
    exists a', tip. done.
  - intros (a & tip & Ha & Htip & <-). exists (a ++ [], tip).
    split; [done|]. apply list_elem_of_filter. split; [done|].
    by apply node_at_postorder.
Qed.

Lemma node_at_app T p a :
  node_at T (a ++ p) = (n ← node_at T p; node_at n a).
Proof.
  induction a as [|i a IH]; cbn [app].
  - by destruct (node_at T p).
  - rewrite node_at_cons, IH. by destruct (node_at T p).
Qed.

Lemma tips_named_NoDup T :
  NoDup (clade_tip_list T) -> NoDup (fst <$> named true T).
Proof.
  rewrite <- (postorder_tips T []). unfold named.
  induction (postorder T []) as [|x l IH]; intros Hnd; [constructor|].
  rewrite filter_cons in Hnd. cbn [omap list_omap].
  destruct (decide (is_tip x.2 = true)) as [Hx|Hx].
  - rewrite fmap_cons in Hnd. apply NoDup_cons in Hnd as [Hnew Hnd].
    rewrite bool_decide_eq_true_2 by done.
    destruct (name x.2) as [sx|] eqn:Hsx; cbn; [|by apply IH].
    apply NoDup_cons. split; [|by apply IH].
    intros ([s' a'] & Hs & Hin)%list_elem_of_fmap. cbn in Hs. subst s'.
    apply list_elem_of_omap in Hin as (y & Hy & Hgy).
    apply Hnew. apply list_elem_of_fmap. exists y.
    case_bool_decide as Hty; [|done].
    destruct (name y.2) as [sy|] eqn:Hsy; [|done]. cbn in Hgy.
    injection Hgy as -> _. split; [cbn; congruence|].
    by apply list_elem_of_filter.
  - rewrite bool_decide_eq_false_2 by done. by apply IH.
Qed.

(** With distinct tip names a named tip is found at its address. *)
Lemma find_tip T a tip label :
  NoDup (clade_tip_list T) ->
  node_at T a = Some tip -> is_tip tip = true -> name tip = Some label ->
  find T (Some label) = Ok a.
Proof.
  intros Hnd Ha Htip Hname. unfold find.
  rewrite bool_decide_eq_true_2 by by apply tips_named_NoDup.
  assert (Hin : (label, a) ∈ named true T).
  { apply elem_of_named. exists tip. split; [|done].
    apply (node_at_postorder a T tip []) in Ha. by rewrite app_nil_r in Ha. }
  destruct (lookup_name label (named true T)) as [a'|] eqn:Hlook.
  - f_equal. apply lookup_name_Some in Hlook.
    pose proof (tips_named_NoDup T Hnd) as Hkeys.
    by assert ((label, a') = (label, a)) as [= ->]
      by by apply (NoDup_fmap_elem_inj fst (named true T)).
  - exfalso. by apply (lookup_name_None _ _ a Hlook).
Qed.

Lemma clade_tip_list_sub T : forall p n,
  node_at T p = Some n -> clade_tip_list n ⊆+ clade_tip_list T.
Proof.
  intros p. revert T. induction p as [|i p IH] using rev_ind; intros T n Hn.
  - cbn in Hn. injection Hn as ->. reflexivity.
  - rewrite node_at_snoc in Hn.
    destruct (children T !! i) as [c|] eqn:Hc; [|done]. cbn in Hn.
    etrans; [by apply IH|]. clear IH Hn.
    destruct T as [nm l cs]. cbn [children] in Hc.
    rewrite clade_tip_list_node by (intros ->; done).
    rewrite (join_delete_perm clade_tip_list cs i c Hc).
    apply submseteq_inserts_l. done.
Qed.

Lemma mapM_all {A B} (f : A -> result B) (P : B -> Prop) (xs : list A) :
  (forall x, x ∈ xs -> exists y, f x = Ok y /\ P y) ->
  exists ys, mapM f xs = Ok ys /\ Forall P ys
             /\ forall x y, x ∈ xs -> f x = Ok y -> y ∈ ys.
Proof.
  induction xs as [|x xs IH]; intros Hall.
  - exists []. rewrite mapM_nil. repeat split; [constructor|].
    intros x y Hx. by apply elem_of_nil in Hx.
  - destruct (Hall x) as (y & Hy & HPy); [by left|].
    destruct IH as (ys & Hys & HP & Hin); [intros z Hz; apply Hall; by right|].
    exists (y :: ys). rewrite mapM_cons, Hy, bind_Ok, Hys.
    split; [done|]. split; [by constructor|].
    intros z w [->|Hz]%elem_of_cons Hw.
    + rewrite Hy in Hw. injection Hw as <-. by left.
    + right. by eapply Hin.
Qed.

(** When every found node is below [p], and two of them are below or at
    different children of [p], the marks lead from the apex down to [p]. *)
Lemma lca_two_branches T (names : gset (option string)) p n F a1 i1 a2 i2 :
  node_at T p = Some n ->
  mapM (find T) (elements names) = Ok F ->
  (forall f, f ∈ F -> above p f) ->
  a1 ++ i1 :: p ∈ F -> a2 ++ i2 :: p ∈ F -> i1 <> i2 ->
  lca T names = Ok p.
Proof.
  intros Hn HF Hbelow H1 H2 Hne. unfold lca.
  assert (Hd : a1 ++ i1 :: p <> a2 ++ i2 :: p).
  { intros Heq. by apply same_branch in Heq. }
  assert (Hlen : 2 <= length F).
  { pose proof (occurrences_two _ _ F Hd) as Htwo.
    apply occurrences_pos in H1, H2. lia. }
  assert (Hsize : size names = length F).
  { apply mapM_Ok, Forall2_length in HF. by rewrite <- HF. }
  rewrite bool_decide_eq_false_2 by lia.
  rewrite HF, bind_Ok.
  rewrite bool_decide_eq_false_2 by (intros ->; simpl in Hlen; lia).
  rewrite bool_decide_eq_false_2.
  2:{ intros Hin. apply Hbelow in Hin as (a & i & Heq). by destruct a. }
  pose proof (marks_found F) as HB.
  destruct (marks_fork _ _ p a1 i1 a2 i2 HB H1 H2 Hne) as (l & Hl & Hl2).
  apply (descend_to _ p l); [|done|done| |].
  - intros v Hv. by apply (marks_chain _ F p (a1 ++ i1 :: p)).
  - destruct p as [|i p' _] using rev_ind; [by left|].
    right. by exists p', i.
  - pose proof (height_node_at _ _ _ Hn) as Hh.
    destruct (height_pos n) as [h Hpos]. simpl. lia.
Qed.

(** In a tree with distinct, present tip names, the lowest common ancestor
    of the tips of a clade that forks is the root of the clade. *)
Lemma lca_clade T p n :
  node_at T p = Some n ->
  NoDup (clade_tip_list T) -> None ∉ clade_tip_list n ->
  2 <= length (children n) ->
  lca T (clade_tip_names n) = Ok p.
Proof.
  intros Hn Hnd Hnamed Hfork.
  assert (Hfind : forall nm, nm ∈ elements (clade_tip_names n) ->
            exists f, find T nm = Ok f /\ above p f).
  { intros nm Hnm. apply elem_of_elements, elem_of_list_to_set in Hnm.
    pose proof Hnm as (a & tip & Ha & Htip & Hname)%elem_of_clade_tip_list.
    destruct a as [|i a _] using rev_ind.
    { cbn in Ha. injection Ha as <-. unfold is_tip in Htip.
      destruct (children n); [simpl in Hfork; lia|done]. }
    exists ((a ++ [i]) ++ p). split.
    - destruct nm as [label|]; [|done].
      apply (find_tip T _ tip); [done| |done|done].
      by rewrite node_at_app, Hn.
    - exists a, i. by rewrite <- (assoc_L (++)). }
  assert (Hbranch : forall i c, children n !! i = Some c ->
            exists a nm, nm ∈ elements (clade_tip_names n)
                         /\ find T nm = Ok (a ++ i :: p)).
  { intros i c Hc. destruct (clade_has_tip c) as (a & tip & Ha & Htip).
    assert (Hat : node_at n (a ++ [i]) = Some tip)
      by by rewrite node_at_snoc, Hc.
    assert (Hin : name tip ∈ clade_tip_list n)
      by (apply elem_of_clade_tip_list; eauto).
    exists a, (name tip). split; [by apply elem_of_elements, elem_of_list_to_set|].
    destruct (name tip) as [label|] eqn:Hname; [|done].
    apply (find_tip T (a ++ i :: p) tip); [done| |done|done].
    replace (a ++ i :: p) with ((a ++ [i]) ++ p) by by rewrite <- (assoc_L (++)).
    by rewrite node_at_app, Hn. }
  destruct (children n) as [|c0 [|c1 cs]] eqn:Hcs; [simpl in Hfork; lia..|].
  destruct (Hbranch 0 c0 eq_refl) as (a0 & nm0 & Hin0 & Hf0).
  destruct (Hbranch 1 c1 eq_refl) as (a1 & nm1 & Hin1 & Hf1).
  destruct (mapM_all (find T) (above p) _ Hfind) as (F & HF & Hall & Hmem).
  rewrite Forall_forall in Hall.
  apply (lca_two_branches T _ p n F a0 0 a1 1); eauto.
Qed.

End lowest.

Section split.
Context {R : Type} `{LengthOps R}.
Implicit Types (T n s t : tree R) (p q a : addr).

Lemma other_side {A} (xs ys us vs : list A) :
  NoDup (xs ++ ys) -> NoDup (us ++ vs) ->
  (forall x, x ∈ xs ++ ys <-> x ∈ us ++ vs) ->
  (forall x, x ∈ ys <-> x ∈ vs) ->
  forall x, x ∈ xs <-> x ∈ us.
Proof.
  intros (_ & Hxy & _)%NoDup_app (_ & Huv & _)%NoDup_app Hall Hside x.
  specialize (Hall x). rewrite !elem_of_app in Hall.
  specialize (Hside x). specialize (Hxy x). specialize (Huv x). tauto.
Qed.

Lemma tip_name_list_pair (src c1 c2 : tree R) :
  children src = [c1; c2] ->
  tip_name_list src = clade_tip_list c1 ++ clade_tip_list c2.
Proof.
  intros Hcs. rewrite tip_name_list_clade by (unfold is_tip; by rewrite Hcs).
  destruct src as [nm ls cs]. cbn in Hcs. subst cs. cbn.
  by rewrite app_nil_r.
Qed.

Lemma elem_of_tip_names T x :
  x ∈ tip_names T <-> x ∈ tip_name_list T.
Proof. unfold tip_names. by rewrite elem_of_list_to_set. Qed.

Lemma elem_of_clade_tip_names t x :
  x ∈ clade_tip_names t <-> x ∈ clade_tip_list t.
Proof. unfold clade_tip_names. by rewrite elem_of_list_to_set. Qed.

(** With the outgroup found as a forking clade below the apex, the target
    is rerooted above that clade. *)
Lemma rooting_at_clade (src trg c1 c2 n : tree R) p :
  children src = [c1; c2] ->
  NoDup (tip_name_list trg) -> None ∉ tip_name_list trg ->
  tip_names src = tip_names trg ->
  3 <= length (children trg) ->
  node_at trg p = Some n -> p <> [] ->
  2 <= length (children n) ->
  clade_tip_names n
  = tip_names (if (count_tips c2 <? count_tips c1)%nat then c2 else c1) ->
  restore_rooting src trg = root_above trg p None.
Proof.
  intros Hcs Hndt Hnamed Htips Hthree Hn Hp Hfork Hclade.
  assert (Htrg : is_tip trg = false).
  { destruct trg as [? ? [|? ?]]; [simpl in Hthree; lia|done]. }
  rewrite (tip_name_list_clade trg Htrg) in Hndt, Hnamed.
  destruct p as [|c q]; [done|].
  apply (restore_rooting_located src trg
           (if (count_tips c2 <? count_tips c1)%nat then c2 else c1)
           trg (c :: q)).
  - by rewrite Hcs.
  - lia.
  - done.
  - by apply outgroup_clade_pair.
  - apply locate_outgroup_below_apex. rewrite <- Hclade.
    apply lca_clade; [done|done| |done].
    intros Hin. apply Hnamed.
    by apply (elem_of_submseteq _ _ _ Hin), (clade_tip_list_sub trg (c :: q)).
Qed.

End split.

(** Restoring the rooting, from the inputs alone.  Let [src] be strictly
    rooted with distinct tip names, and let the target have the same tips,
    all named and distinct, and an apex with three children or more.  If
    some node below the apex of the target forks, has a length, and has
    exactly the tips of the outgroup below it, then [restore_rooting] puts
    the root on the branch above that node: the result is an unnamed root
    over that clade and over the rest of the target, each at half the
    length of the branch, and the rest holds exactly the tips of the
    ingroup. *)
Theorem restore_rooting_restores_split {R} `{LengthOps R}
    (src trg c1 c2 n : tree R) (p : addr) (l : R) :
  children src = [c1; c2] ->
  NoDup (tip_name_list src) ->
  NoDup (tip_name_list trg) -> None ∉ tip_name_list trg ->
  tip_names src = tip_names trg ->
  3 <= length (children trg) ->
  let out := if (count_tips c2 <? count_tips c1)%nat then c2 else c1 in
  let ing := if (count_tips c2 <? count_tips c1)%nat then c1 else c2 in
  node_at trg p = Some n -> p <> [] ->
  2 <= length (children n) -> branch_length n = Some l ->
  clade_tip_names n = tip_names out ->
  exists right,
    restore_rooting src trg
    = Ok (Node None None [set_length n (Some (rhalf l)); right])
    /\ branch_length right = Some (rhalf l)
    /\ clade_tip_names right = clade_tip_names ing.
Proof.
  intros Hcs Hnds Hndt Hnamed Htips Hthree out ing Hn Hp Hfork Hl Hclade.
  rewrite (rooting_at_clade src trg c1 c2 n p) by done.
  assert (Htrg : is_tip trg = false).
  { destruct trg as [? ? [|? ?]]; [simpl in Hthree; lia|done]. }
  rewrite (tip_name_list_clade trg Htrg) in Hndt.
  destruct p as [|c q]; [done|].
  destruct (up_view_ok q trg c n Hn) as [r Hr]; [intros _; lia|lia|].
  exists (set_length r (Some (rhalf l))).
  split; [|split; [done|]].
  - apply root_above_closed; [done|done|intros _; lia|done].
  - assert (Hout : is_tip out = false).
    { destruct (is_tip out) eqn:Htip; [|done]. exfalso.
      rewrite (tip_names_tip _ Htip) in Hclade.
      destruct (clade_tip_list n) as [|x xs] eqn:Hxs;
        [by apply (clade_tip_list_nonempty n)|].
      assert (Hx : x ∈ clade_tip_names n)
        by (apply elem_of_clade_tip_names; rewrite Hxs; by left).
      rewrite Hclade in Hx. by apply elem_of_empty in Hx. }
    rewrite (tip_names_clade _ Hout) in Hclade.
    pose proof (up_view_tips q trg c n r Hn Hr ltac:(lia)) as Hperm.
    rewrite <- Hperm in Hndt.
    rewrite (tip_name_list_pair src c1 c2 Hcs) in Hnds.
    assert (Hsame : forall x, x ∈ clade_tip_list r ++ clade_tip_list n
                      <-> x ∈ clade_tip_list c1 ++ clade_tip_list c2).
    { intros x. rewrite Hperm, <- (tip_name_list_clade trg Htrg).
      rewrite <- (tip_name_list_pair src c1 c2 Hcs).
      by rewrite <- !elem_of_tip_names, Htips. }
    assert (Hn_out : forall x, x ∈ clade_tip_list n <-> x ∈ clade_tip_list out).
    { intros x. by rewrite <- !elem_of_clade_tip_names, Hclade. }
    apply set_eq. intros x. rewrite !elem_of_clade_tip_names.
    rewrite clade_tip_list_set_length. unfold out, ing in *.
    destruct (count_tips c2 <? count_tips c1)%nat.
    + by apply (other_side _ (clade_tip_list n) _ (clade_tip_list c2)).
    + rewrite (Permutation_app_comm (clade_tip_list c1)) in Hnds.
      apply (other_side _ (clade_tip_list n) _ (clade_tip_list c1));
        [done|done|intros y; rewrite Hsame, !elem_of_app; tauto|done].
Qed.

Lemma restore_rooting_restores_split_witness :
  exists right,
    restore_rooting Ex.src Ex.trg_good
    = Ok (Node None None
            [set_length (Ex.join [Ex.tip "a"; Ex.tip "b"]) (Some (rhalf 1%float));
             right])
    /\ branch_length right = Some (rhalf 1%float)
    /\ clade_tip_names right
       = clade_tip_names (Ex.clade "y" [Ex.tip "c"; Ex.tip "d"; Ex.tip "e"]).
Proof.
  apply (restore_rooting_restores_split Ex.src Ex.trg_good
           (Ex.clade "x" [Ex.tip "a"; Ex.tip "b"])
           (Ex.clade "y" [Ex.tip "c"; Ex.tip "d"; Ex.tip "e"])
           (Ex.join [Ex.tip "a"; Ex.tip "b"]) [0] 1%float);
    [reflexivity|compute_done|compute_done|compute_done|compute_done
    |cbn; lia|reflexivity|done|cbn; lia|reflexivity|compute_done].
Defined.

(** Without a length on the node, [root_above] stops at [node.length / 2]
    with a [TypeError], after both walks have gone through. *)
Theorem root_above_needs_length {R} `{LengthOps R} (T n : tree R) (c : nat)
    (q : addr) (nm : option string) :
  node_at T (c :: q) = Some n ->
  branch_length n = None ->
  (q = [] -> length (children T) <> 2) ->
  (length (children T) = 2 ->
   Forall (fun x => is_Some (branch_length x)) (children T)) ->
  root_above T (c :: q) nm = Err TypeError.
Proof.
  intros Hn Hl Hun Hlens.
  destruct (up_view_ok q T c n Hn Hun Hlens) as [r Hr].
  unfold root_above, walk_copy. rewrite Hn. cbn [or_raise]. rewrite bind_Ok.
  pose proof (height_node_at _ _ _ Hn) as Hh. simpl in Hh.
  rewrite (walk_down n (budget T) T (c :: q) Hn).
  - rewrite bind_Ok. cbn [parent].
    assert (Hw : walk_copy_rec (budget T) T (Some q) (Some (c :: q)) = Ok r).
    { apply walk_up; [done|]. unfold budget. lia. }
    by rewrite Hw, bind_Ok, Hl.
  - done.
  - intros Hlen. apply Hun. destruct q; [done|simpl in Hlen; lia].
  - unfold budget. lia.
Qed.

Lemma root_above_needs_length_witness :
  root_above (Node None None
                [Node (Some "a") None []; Node (Some "b") None [];
                 Node (Some "c") None []]) [0] None
  = Err TypeError.
Proof.
  eapply root_above_needs_length; [reflexivity|reflexivity|cbn; lia|cbn; lia].
Defined.

(** ** Labels, then order *)

Section labels_then_order.
Context {R : Type} `{LengthOps R}.
Implicit Types (T n s t u c src trg : tree R) (cs ss ks us ts : list (tree R))
  (p q a : addr) (l : option R) (l2t : list (string * gset (option string))).

Lemma same_names_tips s : forall u,
  same_names s u -> clade_tip_list u = clade_tip_list s.
Proof.
  induction s as [nm l ss IH] using tree_ind. intros u Hsame.
  inversion Hsame as [? ? l' ? us Hall]; subst.
  destruct Hall as [|x y xs ys Hxy Hall]; [done|].
  rewrite !clade_tip_list_node by done. f_equal.
  apply Forall_cons in IH as [IHx IH].
  rewrite !fmap_cons. f_equal; [by apply IHx|].
  clear Hsame Hxy IHx. induction Hall as [|x' y' xs ys Hxy Hall IHall]; [done|].
  apply Forall_cons in IH as [IHx IH].
  rewrite !fmap_cons. f_equal; [by apply IHx|by apply IHall].
Qed.

Lemma same_names_is_tip s u : same_names s u -> is_tip u = is_tip s.
Proof.
  inversion 1 as [? ? l' ? us Hall]; subst. by destruct Hall.
Qed.

Lemma scrambled_is_tip u t : scrambled u t -> is_tip t = is_tip u.
Proof.
  inversion 1 as [|? nm' ? c cs ks ts Hperm Hall]; subst; [done|].
  inversion Hall; subst. unfold is_tip. cbn.
  destruct ts; [|done]. by apply Permutation_nil_r in Hperm.
Qed.

Lemma scrambled_tips u : forall t,
  scrambled u t -> clade_tip_list t ≡ₚ clade_tip_list u.
Proof.
  induction u as [nm l us IH] using tree_ind. intros t Hscr.
  inversion Hscr as [|? nm' ? c cs ks ts Hperm Hall]; subst; [done|].
  assert (Hts : ts <> []).
  { intros ->. apply Permutation_nil_r in Hperm. subst. inversion Hall. }
  rewrite !clade_tip_list_node by done.
  rewrite <- (join_fmap_perm clade_tip_list ks ts Hperm).
  clear Hscr Hperm Hts.
  induction Hall as [|x y xs ys Hxy Hall IHall]; [done|].
  apply Forall_cons in IH as [IHx IH].
  rewrite !fmap_cons. cbn. by rewrite (IHx y Hxy), (IHall IH).
Qed.

Lemma tip_names_perm t u :
  is_tip t = is_tip u -> clade_tip_list t ≡ₚ clade_tip_list u ->
  tip_names t = tip_names u.
Proof.
  intros Htip Hperm. destruct (is_tip u) eqn:Hu.
  - by rewrite !tip_names_tip.
  - rewrite !tip_names_clade by done. unfold clade_tip_names.
    apply set_eq. intros x. by rewrite !elem_of_list_to_set, Hperm.
Qed.

(** Relabelling a scrambled tree gives a reshuffled one. *)
Lemma relabel_scrambled l2t s : forall u t,
  same_names s u -> scrambled u t ->
  (forall a s', node_at s a = Some s' -> is_tip s' = false ->
     exists label, name s' = Some label /\ label_for l2t s' = Some label) ->
  shuffled (relabel l2t t) u.
Proof.
  induction s as [nm ls ss IH] using tree_ind. intros u t Hsame Hscr Hfound.
  pose proof (same_names_tips _ _ Hsame) as Htu.
  pose proof (same_names_is_tip _ _ Hsame) as Htipu.
  pose proof (scrambled_tips _ _ Hscr) as Htt.
  pose proof (scrambled_is_tip _ _ Hscr) as Htipt.
  inversion Hsame as [? ? lu ? us Hss]; subst.
  inversion Hscr as [|? nm' ? c cs ks ts Hperm Hks]; subst.
  { apply shuffled_refl. }
  destruct ts as [|t0 ts].
  { apply Permutation_nil_r in Hperm. subst. inversion Hks. }
  rewrite relabel_internal.
  assert (Hlab : label_for l2t (Node nm' lu (t0 :: ts)) = label_for l2t (Node nm ls ss)).
  { apply label_for_ext, tip_names_perm; [by rewrite Htipt|].
    by rewrite Htt, Htu. }
  rewrite Hlab.
  destruct (Hfound [] _ eq_refl) as (label & Hnm & Hl).
  { rewrite <- Htipu. done. }
  cbn in Hnm. rewrite Hl, <- Hnm.
  apply (shuffled_node nm lu _ (relabel l2t <$> ks)).
  { by rewrite Hperm. }
  assert (Hkids : forall i x a s',
    ss !! i = Some x -> node_at x a = Some s' -> is_tip s' = false ->
    exists label, name s' = Some label /\ label_for l2t s' = Some label).
  { intros i x a s' Hx Ha Htip. apply (Hfound (a ++ [i])); [|done].
    rewrite node_at_snoc. cbn [children]. by rewrite Hx. }
  clear -IH Hss Hks Hkids. revert ks Hks Hkids.
  induction Hss as [|x y xs ys Hxy Hall IHall]; intros ks Hks Hkids.
  - inversion Hks. constructor.
  - inversion Hks as [|? k ? ks' Hk Hks']; subst.
    apply Forall_cons in IH as [IHx IH]. rewrite fmap_cons.
    constructor.
    + apply IHx; [done|done|]. intros a s'. by apply (Hkids 0).
    + apply IHall; [done|done|]. intros i. by apply (Hkids (S i)).
Qed.

Lemma clade_tip_list_names t : Forall (fun x => x ∈ node_names t) (clade_tip_list t).
Proof.
  induction t as [nm l cs IH] using tree_ind.
  destruct cs as [|c cs]; [cbn; repeat constructor|].
  rewrite clade_tip_list_node by done. cbn [node_names].
  apply Forall_forall. intros x (ys & Hx & (k & -> & Hk)%list_elem_of_fmap)%list_elem_of_join.
  rewrite Forall_forall in IH. specialize (IH k Hk).
  rewrite Forall_forall in IH. apply elem_of_app. left.
  apply list_elem_of_join. exists (node_names k). split; [by apply IH|].
  by apply list_elem_of_fmap_2.
Qed.

(** Distinct node names give distinct internal labels. *)
Lemma internal_labels_NoDup T :
  NoDup (node_names T) -> NoDup (internal_labels T).
Proof.
  rewrite <- (postorder_names T []). unfold internal_labels, non_tips.
  induction (postorder T []) as [|x xs IH]; intros Hnd; [constructor|].
  rewrite fmap_cons in Hnd. apply NoDup_cons in Hnd as [Hx Hnd].
  rewrite filter_cons. destruct (decide (is_tip x.2 = false)); [|by apply IH].
  cbn [omap list_omap].
  destruct (label_of x.2) as [label|] eqn:Hl; [|by apply IH].
  apply NoDup_cons. split; [|by apply IH].
  intros (y & Hy & Hly)%list_elem_of_omap. apply Hx.
  apply list_elem_of_filter in Hy as [_ Hy].
  apply list_elem_of_fmap. exists y. split; [|done].
  apply label_of_Some in Hl as [-> _]. by apply label_of_Some in Hly as [-> _].
Qed.

(** The content of the sorting property. *)
Lemma sorts_shuffled src trg u :
  NoDup (node_names src) ->
  (forall a s, node_at src a = Some s -> is_tip s = false ->
     is_Some (label_of s)) ->
  shuffled trg u -> same_names src u ->
  restore_node_order src trg = Ok u.
Proof.
  intros Hnd Hlab Hsh Hsame. unfold restore_node_order.
  assert (Hnd' : NoDup (node_names trg)).
  { by rewrite (shuffled_node_names _ _ Hsh), (same_names_node_names _ _ Hsame). }
  rewrite (fold_align src trg [] trg Hnd (NoDup_present _ Hnd') eq_refl).
  2:{ by rewrite <- (shuffled_name _ _ Hsh), (same_names_name _ _ Hsame). }
  by rewrite (align_shuffled src trg u).
Qed.

Lemma labels_then_order src u t :
  same_names src u -> scrambled u t ->
  NoDup (node_names src) ->
  Forall (fun x => is_Some (label_of x.2)) (non_tips src []) ->
  NoDup ((fun x => tip_names x.2) <$> non_tips src []) ->
  (t1 ← restore_node_labels src t; restore_node_order src t1) = Ok u.
Proof.
  intros Hsame Hscr Hnd Hall Htips.
  destruct (label2taxa_from (non_tips src []) []) as (l2t & Hl2t & _).
  { by apply internal_labels_NoDup. }
  fold (label2taxa src) in Hl2t.
  rewrite restore_node_labels_relabel, Hl2t, !bind_Ok.
  rewrite Forall_forall in Hall.
  apply sorts_shuffled; [done| | |done].
  - intros a s Ha Htip. by apply (Hall (a, s)), elem_of_non_tips_2.
  - apply (relabel_scrambled l2t src); [done|done|].
    intros a s Ha Htip.
    pose proof (elem_of_non_tips_2 _ _ _ Ha Htip) as Hin.
    destruct (Hall _ Hin) as [label Hl]. cbn in Hl.
    exists label. split; [by apply label_of_Some in Hl as [? _]|].
    rewrite (label2taxa_labelled _ _ Hl2t). by eapply label_for_own.
Qed.

End labels_then_order.

(** Labels, then order: let [u] carry the names of [src], node by node and
    in the order of [src], under any lengths.  From every tree that is [u]
    with the children of its nodes in another order and its internal nodes
    under other names, [restore_node_labels] followed by
    [restore_node_order] returns [u], provided the nodes of [src] have
    distinct names, its internal nodes non-empty labels and pairwise
    different tips below them. *)
Theorem restore_labels_then_order {R} `{LengthOps R} (src u t : tree R) :
  same_names src u -> scrambled u t ->
  NoDup (node_names src) ->
  Forall (fun x => is_Some (label_of x.2)) (non_tips src []) ->
  NoDup ((fun x => tip_names x.2) <$> non_tips src []) ->
  (t1 ← restore_node_labels src t; restore_node_order src t1) = Ok u.
Proof. apply labels_then_order. Qed.

Lemma restore_labels_then_order_witness :
  (t1 ← restore_node_labels Ex.src Ex.src_scrambled;
   restore_node_order Ex.src t1) = Ok Ex.src.
Proof.
  apply restore_labels_then_order.
  - apply same_names_refl.
  - apply (scrambled_node _ _ _ _ _
             [Ex.join [Ex.tip "b"; Ex.tip "a"];
              Ex.clade "q" [Ex.tip "e"; Ex.tip "c"; Ex.tip "d"]]);
      [apply perm_swap|].
    constructor; [|constructor; [|constructor]].
    + apply (scrambled_node _ _ _ _ _ [Ex.tip "a"; Ex.tip "b"]);
        [apply perm_swap|].
      repeat (constructor; [apply scrambled_tip|]). constructor.
    + apply (scrambled_node _ _ _ _ _ [Ex.tip "c"; Ex.tip "d"; Ex.tip "e"]).
      * etrans; [|apply perm_swap]. apply perm_skip, perm_swap.
      * repeat (constructor; [apply scrambled_tip|]). constructor.
  - compute_done.
  - compute_done.
  - compute_done.
Defined.

(** ** The three steps together *)

Section round_trip.
Context {R : Type} `{LengthOps R}.
Implicit Types (T n s t u c src trg : tree R) (cs ss ks us ts : list (tree R))
  (p q a : addr).

Lemma join_submseteq_pointwise {A B} (f g : A -> list B) (xs : list A) :
  Forall (fun x => f x ⊆+ g x) xs -> mjoin (f <$> xs) ⊆+ mjoin (g <$> xs).
Proof.
  induction 1 as [|x xs Hx Hall IH]; [done|]. cbn. by apply submseteq_app.
Qed.

Lemma clade_tip_list_node_names t : clade_tip_list t ⊆+ node_names t.
Proof.
  induction t as [nm l cs IH] using tree_ind.
  destruct cs as [|c cs]; [done|].
  rewrite clade_tip_list_node by done. cbn [node_names].
  apply submseteq_inserts_r. by apply join_submseteq_pointwise.
Qed.

Lemma scrambled_children u t :
  scrambled u t -> length (children t) = length (children u).
Proof.
  inversion 1 as [|? nm' ? c cs ks ts Hperm Hall]; subst; [done|].
  cbn [children]. rewrite <- Hperm. symmetry. by eapply Forall2_length.
Qed.

Lemma scrambled_length u t : scrambled u t -> branch_length t = branch_length u.
Proof. by inversion 1. Qed.

Lemma scrambled_set_length u t (l : option R) :
  scrambled u t -> scrambled (set_length u l) (set_length t l).
Proof.
  inversion 1 as [|? nm' ? c cs ks ts Hperm Hall]; subst.
  - apply scrambled_tip.
  - by apply (scrambled_node _ _ _ _ _ ks).
Qed.

Lemma same_names_set_length s (l : option R) : same_names s (set_length s l).
Proof.
  destruct s as [nm l' cs]. constructor.
  apply Forall_Forall2_diag, Forall_forall. intros; apply same_names_refl.
Qed.

Lemma clade_tip_list_children t :
  is_tip t = false -> clade_tip_list t = mjoin (clade_tip_list <$> children t).
Proof. by destruct t as [nm l [|c cs]]. Qed.

End round_trip.

Section round_trip_main.
Context {R : Type} `{LengthOps R}.
Implicit Types (T n s t u c src trg : tree R) (cs ss ks us ts : list (tree R))
  (p q a : addr).

(** The target of the round trip, taken apart: the outgroup hangs on the
    apex, next to the children of the ingroup. *)
Lemma unrooted_parts (ing out trg : tree R) nmV lV (l : R) :
  2 <= length (children ing) ->
  scrambled (Node nmV lV (children ing ++ [set_length out (Some l)])) trg ->
  exists i k ks,
    children trg !! i = Some k
    /\ scrambled (set_length out (Some l)) k
    /\ ks ≡ₚ delete i (children trg)
    /\ Forall2 scrambled (children ing) ks
    /\ clade_tip_list trg ≡ₚ clade_tip_list ing ++ clade_tip_list out.
Proof.
  intros Hfork Hscr.
  pose proof (scrambled_tips _ _ Hscr) as Htips.
  assert (Hing : is_tip ing = false).
  { destruct ing as [? ? [|? ?]]; [simpl in Hfork; lia|done]. }
  destruct (children ing) as [|i0 rest] eqn:Hcs; [simpl in Hfork; lia|].
  inversion Hscr as [|? nmT ? c cs ks' ts Hperm Hall Heq]; subst.
  apply (Forall2_app_inv_l _ (i0 :: rest) [set_length out (Some l)]) in Hall
    as (ks & kk & Hks & Hkk & ->).
  inversion Hkk as [|? k ? kk' Hk Hnil]; subst. inversion Hnil; subst.
  assert (Hin : k ∈ ts).
  { rewrite <- Hperm. apply elem_of_app. right. by left. }
  apply list_elem_of_lookup in Hin as [i Hi].
  exists i, k, ks. cbn [children]. split; [done|]. split; [done|].
  split; [|split; [done|]].
  - apply (Permutation_cons_inv (a := k)).
    rewrite <- (delete_Permutation ts i k Hi), <- Hperm.
    by rewrite Permutation_app_comm.
  - rewrite Htips. rewrite clade_tip_list_node by done.
    rewrite fmap_app, join_app. cbn [fmap list_fmap mjoin list_join].
    rewrite app_nil_r, clade_tip_list_set_length.
    by rewrite (clade_tip_list_children ing Hing), Hcs.
Qed.

Lemma set_length_twice t (l1 l2 : option R) :
  set_length (set_length t l1) l2 = set_length t l2.
Proof. by destruct t. Qed.

Lemma round_trip (src trg c1 c2 out ing : tree R) nmV lV (l : R) :
  children src = [c1; c2] ->
  NoDup (node_names src) ->
  Forall (fun x => is_Some (label_of x.2)) (non_tips src []) ->
  NoDup ((fun x => tip_names x.2) <$> non_tips src []) ->
  None ∉ tip_name_list src ->
  out = (if (count_tips c2 <? count_tips c1)%nat then c2 else c1) ->
  ing = (if (count_tips c2 <? count_tips c1)%nat then c1 else c2) ->
  2 <= length (children out) -> 2 <= length (children ing) ->
  scrambled (Node nmV lV (children ing ++ [set_length out (Some l)])) trg ->
  restore_all src trg
  = Ok (Node (name src) None [set_length c1 (Some (rhalf l));
                              set_length c2 (Some (rhalf l))]).
Proof.
  intros Hcs Hnd Hlab Hsets Hnamed Hout Hing Hfo Hfi Hscr.
  destruct (unrooted_parts ing out trg nmV lV l Hfi Hscr)
    as (i & k & ks & Hi & Hk & Hks & Hall & Htips).
  assert (Hsrc : is_tip src = false) by (unfold is_tip; by rewrite Hcs).
  assert (Htrg : is_tip trg = false).
  { destruct trg as [? ? [|? ?]]; [done|done]. }
  assert (Houttip : is_tip out = false).
  { destruct out as [? ? [|? ?]]; [simpl in Hfo; lia|done]. }
  assert (Hperm : clade_tip_list trg ≡ₚ clade_tip_list src).
  { rewrite Htips, <- (tip_name_list_clade src Hsrc).
    rewrite (tip_name_list_pair src c1 c2 Hcs). subst out ing.
    destruct (count_tips c2 <? count_tips c1)%nat;
      [done|apply Permutation_app_comm]. }
  assert (Hndtips : NoDup (clade_tip_list src)).
  { eapply submseteq_NoDup; [apply clade_tip_list_node_names|done]. }
  assert (Hlenk : length (children trg) = S (length (children ing))).
  { apply Forall2_length in Hall. rewrite Hall, Hks.
    rewrite length_delete by (by eapply mk_is_Some).
    pose proof (lookup_lt_Some _ _ _ Hi). lia. }
  (* the rooting *)
  assert (Hroot : restore_rooting src trg =
    Ok (Node None None
          [set_length k (Some (rhalf l));
           Node (name trg) (Some (rhalf l)) (delete i (children trg))])).
  { rewrite (rooting_at_clade src trg c1 c2 k [i]).
    - rewrite (root_above_closed trg i [] k l
                 (Node (name trg) (branch_length k) (delete i (children trg)))).
      + done.
      + done.
      + rewrite (scrambled_length _ _ Hk). done.
      + intros _. lia.
      + apply up_view_apex; [done|lia].
    - done.
    - by rewrite (tip_name_list_clade trg Htrg), Hperm.
    - rewrite (tip_name_list_clade trg Htrg), Hperm.
      by rewrite <- (tip_name_list_clade src Hsrc).
    - symmetry. apply tip_names_perm; [by rewrite Hsrc, Htrg|done].
    - lia.
    - done.
    - done.
    - rewrite (scrambled_children _ _ Hk). by destruct out.
    - rewrite <- Hout, (tip_names_clade out Houttip).
      unfold clade_tip_names. apply set_eq. intros x.
      rewrite !elem_of_list_to_set, (scrambled_tips _ _ Hk).
      by rewrite clade_tip_list_set_length. }
  unfold restore_all. rewrite Hroot, bind_Ok.
  apply labels_then_order; [|  |done|done|done].
  - destruct src as [nm ls cs]. cbn in Hcs. subst cs. cbn [name].
    constructor. constructor; [apply same_names_set_length|].
    constructor; [apply same_names_set_length|constructor].
  - assert (Hko : scrambled (set_length out (Some (rhalf l)))
                            (set_length k (Some (rhalf l)))).
    { rewrite <- (set_length_twice out (Some l)).
      by apply scrambled_set_length. }
    assert (Hki : scrambled (set_length ing (Some (rhalf l)))
                    (Node (name trg) (Some (rhalf l)) (delete i (children trg)))).
    { destruct ing as [nmI lI [|i0 rest]]; [simpl in Hfi; lia|].
      by apply (scrambled_node _ _ _ _ _ ks). }
    cbn [name]. subst out ing.
    destruct (count_tips c2 <? count_tips c1)%nat.
    + apply (scrambled_node _ _ _ _ _
               [Node (name trg) (Some (rhalf l)) (delete i (children trg));
                set_length k (Some (rhalf l))]); [apply perm_swap|].
      repeat (constructor; [done|]). constructor.
    + apply (scrambled_node _ _ _ _ _
               [set_length k (Some (rhalf l));
                Node (name trg) (Some (rhalf l)) (delete i (children trg))]);
        [done|].
      repeat (constructor; [done|]). constructor.
Qed.

End round_trip_main.

(** The three steps, end to end.  Take a strictly rooted [src] whose nodes
    have distinct names, whose tips are named, and whose internal nodes have
    non-empty labels and pairwise different tips below them; both of its
    basal clades fork.  Drop its root: hang the outgroup, on a branch of
    length [l], on the root of the ingroup.  Put the children of every node
    in any order and give the internal nodes any names.  From this target
    the application returns [src], rooted at the midpoint of that branch:
    both basal branches have length [l / 2], and the apex has no length. *)
Theorem restore_all_round_trip {R} `{LengthOps R}
    (src trg c1 c2 : tree R) (nmV : option string) (lV : option R) (l : R) :
  children src = [c1; c2] ->
  NoDup (node_names src) ->
  Forall (fun x => is_Some (label_of x.2)) (non_tips src []) ->
  NoDup ((fun x => tip_names x.2) <$> non_tips src []) ->
  None ∉ tip_name_list src ->
  let out := if (count_tips c2 <? count_tips c1)%nat then c2 else c1 in
  let ing := if (count_tips c2 <? count_tips c1)%nat then c1 else c2 in
  2 <= length (children out) -> 2 <= length (children ing) ->
  scrambled (Node nmV lV (children ing ++ [set_length out (Some l)])) trg ->
  restore_all src trg
  = Ok (Node (name src) None [set_length c1 (Some (rhalf l));
                              set_length c2 (Some (rhalf l))]).
Proof.
  intros Hcs Hnd Hlab Hsets Hnamed out ing Hfo Hfi Hscr.
  by apply (round_trip src trg c1 c2 out ing nmV lV l).
Qed.

Lemma restore_all_round_trip_witness :
  restore_all Ex.src Ex.trg_unrooted
  = Ok (Node (Some "r") None
          [set_length (Ex.clade "x" [Ex.tip "a"; Ex.tip "b"])
             (Some (rhalf 2%float));
           set_length (Ex.clade "y" [Ex.tip "c"; Ex.tip "d"; Ex.tip "e"])
             (Some (rhalf 2%float))]).
Proof.
  apply (restore_all_round_trip Ex.src Ex.trg_unrooted
           (Ex.clade "x" [Ex.tip "a"; Ex.tip "b"])
           (Ex.clade "y" [Ex.tip "c"; Ex.tip "d"; Ex.tip "e"])
           None None 2%float);
    [reflexivity|compute_done|compute_done|compute_done|compute_done
    |compute_done|compute_done|].
  apply (scrambled_node _ _ _ _ _
           [Ex.tip "c"; Ex.tip "d"; Ex.tip "e";
            Node (Some "q") (Some 2%float) [Ex.tip "b"; Ex.tip "a"]]).
  - apply (Permutation_app_comm [Ex.tip "c"; Ex.tip "d"; Ex.tip "e"]
             [Node (Some "q") (Some 2%float) [Ex.tip "b"; Ex.tip "a"]]).
  - repeat (constructor; [apply scrambled_tip|]).
    constructor; [|constructor].
    apply (scrambled_node _ _ _ _ _ [Ex.tip "a"; Ex.tip "b"]);
      [apply perm_swap|].
    repeat (constructor; [apply scrambled_tip|]). constructor.
Defined.

(** ** scikit-bio's [root_at] *)

Section rooting_at.
Context {R : Type} `{LengthOps R}.
Implicit Types (T n s t : tree R) (p q a : addr).

Lemma unrooted_copy_rec_S fuel T self (from : option addr) :
  unrooted_copy_rec (S fuel) T self from =
    (n ← or_raise AttributeError (node_at T self);
     kids ← mapM (fun c => unrooted_copy_rec fuel T c (Some self))
                 (neighbors T self from);
     match from with
     | None => Ok (Node (Some "root") None kids)
     | Some f =>
         if bool_decide (parent f = Some self)
         then m ← or_raise AttributeError (node_at T f);
              Ok (Node (name m) (branch_length m) kids)
         else Ok (Node (name n) (branch_length n) kids)
     end).
Proof. reflexivity. Qed.

Lemma mapM_app {A B} (f : A -> result B) (xs ys : list A) :
  mapM f (xs ++ ys) = (k1 ← mapM f xs; k2 ← mapM f ys; Ok (k1 ++ k2)).
Proof.
  induction xs as [|x xs IH].
  - cbn [app]. rewrite mapM_nil, bind_Ok. by destruct (mapM f ys).
  - cbn [app]. rewrite !mapM_cons. destruct (f x) as [y|]; [|done].
    rewrite !bind_Ok, IH. destruct (mapM f xs) as [k1|]; [|done].
    rewrite !bind_Ok. by destruct (mapM f ys).
Qed.

Lemma filter_all_true {A} (P : A -> Prop) `{!forall x, Decision (P x)}
    (l : list A) :
  (forall x, P x) -> filter P l = l.
Proof.
  intros HP. induction l as [|a l IH]; [done|].
  by rewrite filter_cons_True, IH.
Qed.

Lemma mapM_children_all {B} (f : addr -> result B) p (cs : list B) :
  (forall j x, cs !! j = Some x -> f (j :: p) = Ok x) ->
  mapM f ((fun i => i :: p) <$> seq 0 (length cs)) = Ok cs.
Proof.
  intros Hf. pose proof (mapM_children_from f p None cs 0) as Hall.
  rewrite filter_all_true in Hall by done. by apply Hall.
Qed.

Lemma neighbors_down T i q :
  neighbors T (i :: q) (Some q) = children_of T (i :: q).
Proof.
  unfold neighbors. cbn [parent]. rewrite filter_app.
  rewrite filter_cons_False by (intros Hn; by apply Hn).
  rewrite filter_nil, app_nil_r. apply filter_not_src.
  intros j [= Hj]. apply (f_equal length) in Hj. simpl in Hj. lia.
Qed.

Lemma neighbors_apex T : neighbors T [] None = children_of T [].
Proof.
  unfold neighbors. cbn [parent]. rewrite app_nil_r.
  by apply filter_all_true.
Qed.

Lemma neighbors_up T c q :
  neighbors T q (Some (c :: q))
  = filter (fun x => Some x <> Some (c :: q)) (children_of T q)
    ++ match parent q with Some q' => [q'] | None => [] end.
Proof.
  unfold neighbors. rewrite filter_app. f_equal.
  destruct q as [|i q']; [done|]. cbn [parent].
  rewrite filter_cons_True; [done|].
  intros [= Hq]. apply (f_equal length) in Hq. simpl in Hq. lia.
Qed.

(** Walking down copies the clade as it is. *)
Lemma unrooted_down n : forall fuel T i q,
  node_at T (i :: q) = Some n -> height n <= fuel ->
  unrooted_copy_rec fuel T (i :: q) (Some q) = Ok n.
Proof.
  induction n as [nm l cs IH] using tree_ind. intros fuel T i q Hn Hfuel.
  destruct fuel as [|fuel]; [simpl in Hfuel; lia|].
  rewrite unrooted_copy_rec_S, Hn. cbn [or_raise]. rewrite bind_Ok.
  rewrite neighbors_down, (children_of_eq _ _ _ Hn).
  cbn [children]. rewrite (mapM_children_all _ (i :: q) cs); cycle 1.
  { intros j x Hx.
    rewrite Forall_lookup in IH. apply (IH j x Hx).
    - by rewrite node_at_cons, Hn.
    - pose proof (height_child (Node nm l cs) x j Hx). lia. }
  rewrite bind_Ok.
  rewrite bool_decide_eq_false_2; [done|].
  destruct q; [done|]. cbn. intros [= Hq].
  apply (f_equal length) in Hq. simpl in Hq. lia.
Qed.

(** Walking up, in closed form. *)
Lemma unrooted_walk_up q : forall fuel T c r,
  unrooted_up T q c = Some r ->
  length q + height T <= fuel ->
  unrooted_copy_rec fuel T q (Some (c :: q)) = Ok r.
Proof.
  induction q as [|i q IH]; intros fuel T c r Hup Hfuel.
  - destruct fuel as [|fuel]; [destruct (height_pos T); simpl in *; lia|].
    cbn [unrooted_up node_at] in Hup. cbn in Hup.
    destruct (children T !! c) as [s|] eqn:Hs; [|done]. cbn in Hup.
    injection Hup as <-.
    rewrite unrooted_copy_rec_S. cbn [node_at or_raise]. rewrite bind_Ok.
    rewrite neighbors_up. cbn [parent]. rewrite app_nil_r.
    rewrite (children_of_eq T [] T eq_refl).
    rewrite (mapM_children_except_from _ [] c (children T) 0).
    + rewrite decide_False by lia. rewrite Nat.sub_0_r, bind_Ok.
      cbn [parent]. rewrite bool_decide_eq_true_2 by done.
      cbn. by rewrite Hs.
    + intros j x Hx _. apply unrooted_down; [done|].
      pose proof (height_child _ _ _ Hx). simpl in Hfuel. lia.
  - destruct fuel as [|fuel]; [simpl in *; lia|].
    cbn [unrooted_up] in Hup.
    destruct (node_at T (i :: q)) as [n|] eqn:Hn; [|done].
    cbn in Hup. destruct (children n !! c) as [s|] eqn:Hs; [|done].
    cbn in Hup. destruct (unrooted_up T q i) as [rest|] eqn:Hrest; [|done].
    cbn in Hup. injection Hup as <-.
    rewrite unrooted_copy_rec_S, Hn. cbn [or_raise]. rewrite bind_Ok.
    rewrite neighbors_up. cbn [parent]. rewrite mapM_app.
    rewrite (children_of_eq _ _ _ Hn).
    rewrite (mapM_children_except_from _ (i :: q) c (children n) 0).
    + rewrite decide_False by lia. rewrite Nat.sub_0_r, bind_Ok.
      rewrite mapM_cons, mapM_nil.
      rewrite (IH fuel T i rest Hrest) by (simpl in *; lia).
      rewrite !bind_Ok. cbn [parent].
      rewrite bool_decide_eq_true_2 by done.
      rewrite node_at_cons, Hn. cbn. by rewrite Hs.
    + intros j x Hx _. apply unrooted_down; [by rewrite node_at_cons, Hn|].
      pose proof (height_child _ _ _ Hx).
      pose proof (height_node_at _ _ _ Hn). simpl in *. lia.
Qed.

Lemma unrooted_up_total q : forall T c s,
  node_at T (c :: q) = Some s -> is_Some (unrooted_up T q c).
Proof.
  induction q as [|i q IH]; intros T c s Hs.
  - cbn in Hs |- *. rewrite Hs. cbn. eauto.
  - apply node_at_child_lt in Hs as (n & Hn & Hs).
    cbn [unrooted_up]. rewrite Hn. cbn. rewrite Hs. cbn.
    destruct (IH T i n Hn) as [rest ->]. cbn. eauto.
Qed.

Lemma root_at_apex T :
  is_tip T = false ->
  root_at T [] = Ok (Node (Some "root") None (children T)).
Proof.
  intros Htip. unfold root_at, unrooted_copy. cbn [node_at or_raise].
  rewrite bind_Ok, Htip. destruct (budget_pos T) as [f Hf].
  rewrite Hf, unrooted_copy_rec_S. cbn [node_at or_raise]. rewrite bind_Ok.
  rewrite neighbors_apex, (children_of_eq T [] T eq_refl).
  rewrite (mapM_children_all _ [] (children T)); [done|].
  intros j x Hx. apply unrooted_down; [done|].
  pose proof (height_child _ _ _ Hx). unfold budget in Hf. lia.
Qed.

Lemma root_at_below T c q n r :
  node_at T (c :: q) = Some n -> is_tip n = false ->
  unrooted_up T q c = Some r ->
  root_at T (c :: q) = Ok (Node (Some "root") None (children n ++ [r])).
Proof.
  intros Hn Htip Hup. unfold root_at, unrooted_copy. rewrite Hn.
  cbn [or_raise]. rewrite bind_Ok, Htip.
  destruct (budget_pos T) as [f Hf].
  rewrite Hf, unrooted_copy_rec_S, Hn. cbn [or_raise]. rewrite bind_Ok.
  unfold neighbors. cbn [parent].
  rewrite filter_all_true by done.
  rewrite mapM_app, (children_of_eq _ _ _ Hn).
  pose proof (height_node_at _ _ _ Hn) as Hh. simpl in Hh.
  rewrite (mapM_children_all _ (c :: q) (children n)); cycle 1.
  { intros j x Hx.
    apply unrooted_down; [by rewrite node_at_cons, Hn|].
    pose proof (height_child _ _ _ Hx). unfold budget in Hf. lia. }
  rewrite bind_Ok, mapM_cons, mapM_nil.
  rewrite (unrooted_walk_up q f T c r Hup) by (unfold budget in Hf; lia).
  done.
Qed.

End rooting_at.



(** ** The degenerate case of [restore_rooting] *)

Section degenerate.
Context {R : Type} `{LengthOps R}.
Implicit Types (T n s t : tree R) (p q a : addr).

(** What [unrooted_copy] makes of the part of the tree above a clade holds
    every tip outside the clade, once. *)
Lemma unrooted_up_tips q : forall T c s r,
  node_at T (c :: q) = Some s ->
  unrooted_up T q c = Some r ->
  length (children T) <> 1 ->
  clade_tip_list r ++ clade_tip_list s ≡ₚ clade_tip_list T.
Proof.
  induction q as [|i q IH]; intros T c s r Hs Hup Hone.
  - cbn in Hs. cbn in Hup. rewrite Hs in Hup. cbn in Hup.
    injection Hup as <-.
    pose proof (lookup_lt_Some _ _ _ Hs) as Hc.
    destruct T as [nm l cs]. cbn [children] in *.
    rewrite !clade_tip_list_node.
    + symmetry. by apply join_delete_perm.
    + intros ->. simpl in Hc. lia.
    + intros Hd. apply (f_equal length) in Hd.
      rewrite length_delete in Hd by (by eapply mk_is_Some). simpl in Hd. lia.
  - apply node_at_child_lt in Hs as (n & Hn & Hs).
    cbn [unrooted_up] in Hup. rewrite Hn in Hup. cbn in Hup.
    rewrite Hs in Hup. cbn in Hup.
    destruct (unrooted_up T q i) as [rest|] eqn:Hrest; [|done].
    cbn in Hup. injection Hup as <-.
    assert (Hnode : clade_tip_list n ≡ₚ
              mjoin (clade_tip_list <$> delete c (children n)) ++ clade_tip_list s).
    { destruct n as [nm l cs]. cbn [children] in *.
      rewrite clade_tip_list_node by (intros ->; done).
      by apply join_delete_perm. }
    rewrite clade_tip_list_snoc.
    rewrite <- (IH T i n rest Hn Hrest Hone), Hnode.
    rewrite <- !(assoc_L (++)). apply Permutation_app_swap_app.
Qed.

(** [root_at] keeps the tips. *)
Lemma root_at_tips T p n :
  node_at T p = Some n -> is_tip n = false -> length (children T) <> 1 ->
  exists rest,
    root_at T p = Ok (Node (Some "root") None (children n ++ rest))
    /\ length rest = (if bool_decide (p = []) then 0 else 1)
    /\ clade_tip_list (Node (Some "root") None (children n ++ rest))
       ≡ₚ clade_tip_list T.
Proof.
  intros Hn Htip Hone. destruct p as [|c q].
  - cbn in Hn. injection Hn as <-. exists [].
    rewrite app_nil_r. split; [by apply root_at_apex|]. split; [done|].
    destruct T as [nm l [|c cs]]; done.
  - destruct (unrooted_up_total q T c n Hn) as [r Hr]. exists [r].
    split; [by apply root_at_below|]. split; [done|].
    rewrite clade_tip_list_snoc.
    rewrite <- (unrooted_up_tips q T c n r Hn Hr Hone).
    assert (Hcs : clade_tip_list n = mjoin (clade_tip_list <$> children n)).
    { destruct n as [nm l [|k ks]]; done. }
    rewrite Hcs. apply Permutation_app_comm.
Qed.

Lemma root_at_children T p n :
  node_at T p = Some n -> is_tip n = false ->
  exists rest,
    root_at T p = Ok (Node (Some "root") None (children n ++ rest))
    /\ length rest = (if bool_decide (p = []) then 0 else 1).
Proof.
  intros Hn Htip. destruct p as [|c q].
  - cbn in Hn. injection Hn as <-. exists [].
    rewrite app_nil_r. split; [by apply root_at_apex|done].
  - destruct (unrooted_up_total q T c n Hn) as [r Hr]. exists [r].
    split; [by apply root_at_below|done].
Qed.

(** The tips that [tips] lists sit at their addresses, below the apex. *)
Lemma elem_of_tips T a t :
  (a, t) ∈ tips T [] ->
  node_at T a = Some t /\ is_tip t = true /\ a <> [].
Proof.
  unfold tips. rewrite list_elem_of_filter. cbn. intros [[Htip Ha] Hin].
  apply postorder_node_at in Hin as (a' & -> & Ha').
  rewrite app_nil_r in *. done.
Qed.

Lemma elem_of_tips_2 T a t :
  node_at T a = Some t -> is_tip t = true -> a <> [] -> (a, t) ∈ tips T [].
Proof.
  intros Ha Htip Hne. unfold tips. apply list_elem_of_filter. split; [done|].
  apply (node_at_postorder a T t []) in Ha. by rewrite app_nil_r in Ha.
Qed.

End degenerate.

(** C5, as the code has it.  When the LCA of the outgroup is the apex of
    the copy, the copy is replaced by scikit-bio's [root_at] of the parent
    of the first tip, in postorder, that is not in the outgroup.  That is a
    tree whose apex is named [root], has no length, and has the children of
    that parent, followed, unless the parent is the apex already, by one
    more child for the rest of the tree; it has the tips of the target when
    the apex of the target has more than one child.  The LCA is looked up
    again in the new tree, and [root_above] is called on it there. *)
Theorem degenerate_case_swaps_with_root_at {R} `{LengthOps R}
    (src trg clade tip : tree R) (k i : nat) (p : addr) :
  length (children src) = 2 -> length (children trg) <> 2 ->
  tip_names src = tip_names trg ->
  outgroup_clade src = Ok clade ->
  lca trg (tip_names clade) = Ok [] ->
  list_find (fun x => name x.2 ∉ tip_names clade) (tips trg [])
  = Some (k, (i :: p, tip)) ->
  exists par rest,
    node_at trg p = Some par /\ children par !! i = Some tip
    /\ root_at trg p = Ok (Node (Some "root") None (children par ++ rest))
    /\ length rest = (if bool_decide (p = []) then 0 else 1)
    /\ (length (children trg) <> 1 ->
        clade_tip_list (Node (Some "root") None (children par ++ rest))
        ≡ₚ clade_tip_list trg)
    /\ restore_rooting src trg =
         (a ← lca (Node (Some "root") None (children par ++ rest))
                  (tip_names clade);
          root_above (Node (Some "root") None (children par ++ rest)) a None).
Proof.
  intros Hs Ht Htips Hout Hlca Hfind.
  pose proof Hfind as (Hk & _ & _)%list_find_Some.
  apply list_elem_of_lookup_2, elem_of_tips in Hk as (Htip & _ & _).
  apply node_at_child_lt in Htip as (par & Hpar & Hi).
  assert (Hint : is_tip par = false).
  { unfold is_tip. destruct (children par); [done|done]. }
  exists par.
  assert (Hrun : forall res,
            root_at trg p = Ok res ->
            restore_rooting src trg =
              (a ← lca res (tip_names clade); root_above res a None)).
  { intros res Hres. unfold restore_rooting.
    rewrite bool_decide_eq_false_2 by (intros Hn; by apply Hn).
    rewrite bool_decide_eq_false_2 by done.
    rewrite bool_decide_eq_false_2 by (intros Hn; by apply Hn).
    rewrite Hout, bind_Ok. unfold locate_outgroup.
    rewrite Hlca, bind_Ok. rewrite bool_decide_eq_true_2 by done.
    unfold swap_tree. rewrite Hfind. cbn [parent default from_option id].
    rewrite Hres, bind_Ok. by destruct (lca res _). }
  destruct (decide (length (children trg) = 1)) as [Hone|Hone].
  - destruct (root_at_children trg p par Hpar Hint) as (rest & Hroot & Hlen).
    exists rest. repeat split; try done. by apply Hrun.
  - destruct (root_at_tips trg p par Hpar Hint Hone)
      as (rest & Hroot & Hlen & Hperm).
    exists rest. repeat split; try done. by apply Hrun.
Qed.

Lemma degenerate_case_swaps_with_root_at_witness :
  exists par rest,
    node_at Ex.trg_split [2] = Some par
    /\ children par !! 0 = Some (Ex.tip "c")
    /\ root_at Ex.trg_split [2]
       = Ok (Node (Some "root") None (children par ++ rest))
    /\ length rest = 1
    /\ (length (children Ex.trg_split) <> 1 ->
        clade_tip_list (Node (Some "root") None (children par ++ rest))
        ≡ₚ clade_tip_list Ex.trg_split)
    /\ restore_rooting Ex.src Ex.trg_split =
         (a ← lca (Node (Some "root") None (children par ++ rest))
                  {[Some "a"; Some "b"]};
          root_above (Node (Some "root") None (children par ++ rest)) a None).
Proof.
  apply (degenerate_case_swaps_with_root_at Ex.src Ex.trg_split
           (Ex.clade "x" [Ex.tip "a"; Ex.tip "b"]) (Ex.tip "c") 2 0 [2]);
    [reflexivity|cbn; lia|vm_compute; reflexivity|reflexivity
    |vm_compute; reflexivity|vm_compute; reflexivity].
Defined.

(** ** Rooting restoration from the inputs *)

Section bipartition.
Context {R : Type} `{LengthOps R}.
Implicit Types (T n s t m u : tree R) (p q a b : addr).

Lemma measured_intro nm (l : option R) (cs : list (tree R)) :
  is_Some l -> Forall (fun c => measured c = true) cs ->
  measured (Node nm l cs) = true.
Proof.
  intros Hl Hcs. cbn [measured]. rewrite bool_decide_eq_true_2 by done.
  cbn. induction Hcs as [|c cs Hc Hcs IH]; [done|].
  cbn. by rewrite Hc.
Qed.

Lemma measured_inv t :
  measured t = true ->
  is_Some (branch_length t) /\ Forall (fun c => measured c = true) (children t).
Proof.
  destruct t as [nm l cs]. cbn [measured branch_length children].
  intros [Hl Hcs]%andb_true_iff. split; [by apply bool_decide_eq_true_1 in Hl|].
  induction cs as [|c cs IH]; [constructor|].
  cbn in Hcs. apply andb_true_iff in Hcs as [Hc Hcs]. constructor; auto.
Qed.

Lemma measured_node_at a : forall t n,
  measured t = true -> node_at t a = Some n -> measured n = true.
Proof.
  induction a as [|i a IH]; intros t n Ht Hn.
  - cbn in Hn. by injection Hn as <-.
  - apply node_at_child_lt in Hn as (k & Hk & Hi).
    pose proof (IH t k Ht Hk) as Hmk.
    apply measured_inv in Hmk as [_ Hcs].
    rewrite Forall_lookup in Hcs. by apply (Hcs i).
Qed.

Lemma measured_below T a n :
  Forall (fun c => measured c = true) (children T) ->
  node_at T a = Some n -> a <> [] -> measured n = true.
Proof.
  intros HT Hn Ha. destruct a as [|i a _] using rev_ind; [done|].
  rewrite node_at_snoc in Hn.
  destruct (children T !! i) as [c|] eqn:Hc; [|done]. cbn in Hn.
  rewrite Forall_lookup in HT. by apply (measured_node_at a c n (HT i c Hc)).
Qed.

Lemma Forall_delete {A} (P : A -> Prop) (l : list A) i :
  Forall P l -> Forall P (delete i l).
Proof.
  intros Hl. revert i. induction Hl as [|x l Hx Hl IH]; intros [|i]; cbn; auto.
Qed.

Lemma unrooted_up_measured q : forall T c r,
  Forall (fun x => measured x = true) (children T) ->
  unrooted_up T q c = Some r -> measured r = true.
Proof.
  induction q as [|i q IH]; intros T c r HT Hup.
  - cbn in Hup. destruct (children T !! c) as [s|] eqn:Hs; [|done].
    cbn in Hup. injection Hup as <-.
    rewrite Forall_lookup in HT.
    apply measured_intro.
    + by apply measured_inv, (HT c).
    + apply Forall_delete. by rewrite Forall_lookup.
  - cbn [unrooted_up] in Hup.
    destruct (node_at T (i :: q)) as [n|] eqn:Hn; [|done]. cbn in Hup.
    destruct (children n !! c) as [s|] eqn:Hs; [|done]. cbn in Hup.
    destruct (unrooted_up T q i) as [rest|] eqn:Hrest; [|done].
    cbn in Hup. injection Hup as <-.
    assert (Hmn : measured n = true) by by apply (measured_below T (i :: q)).
    apply measured_inv in Hmn as [_ Hcs].
    apply measured_intro.
    + rewrite Forall_lookup in Hcs. by apply measured_inv, (Hcs c).
    + apply Forall_app. split; [by apply Forall_delete|].
      constructor; [|constructor]. by apply (IH T i).
Qed.

(** Below a node with two tips or more there is a node that forks and has
    the same tips. *)
Lemma lowest_fork t :
  2 <= length (clade_tip_list t) ->
  exists b n, node_at t b = Some n /\ 2 <= length (children n)
              /\ clade_tip_list n = clade_tip_list t.
Proof.
  induction t as [nm l cs IH] using tree_ind. intros Hlen.
  destruct cs as [|c [|c' cs]].
  - simpl in Hlen. lia.
  - apply Forall_cons in IH as [IHc _].
    assert (Heq : clade_tip_list (Node nm l [c]) = clade_tip_list c)
      by (cbn; by rewrite app_nil_r).
    rewrite Heq in Hlen |- *.
    destruct (IHc Hlen) as (b & n & Hb & Hfork & Htips).
    exists (b ++ [0]), n. by rewrite node_at_snoc.
  - exists [], (Node nm l (c :: c' :: cs)). repeat split. simpl. lia.
Qed.

(** Rerooting above a node below the apex, when the lengths are there:
    the clade of the node on one side, every other tip on the other. *)
Lemma reroot_split T a n :
  node_at T a = Some n -> a <> [] ->
  Forall (fun c => measured c = true) (children T) ->
  (length a = 1 -> length (children T) <> 2) ->
  length (children T) <> 1 ->
  exists l r,
    branch_length n = Some l
    /\ root_above T a None
       = Ok (Node None None [set_length n (Some (rhalf l));
                             set_length r (Some (rhalf l))])
    /\ clade_tip_list r ++ clade_tip_list n ≡ₚ clade_tip_list T.
Proof.
  intros Hn Ha HT Hbasal Hone. destruct a as [|c q]; [done|].
  assert (Hun : q = [] -> length (children T) <> 2)
    by (intros ->; by apply Hbasal).
  destruct (up_view_ok q T c n Hn Hun) as [r Hr].
  { intros _. eapply Forall_impl; [exact HT|].
    intros x Hx. by apply measured_inv in Hx as [? _]. }
  assert (Hl : is_Some (branch_length n)).
  { by apply measured_inv, (measured_below T (c :: q)). }
  destruct Hl as [l Hl]. exists l, r. split; [done|]. split.
  - by apply root_above_closed.
  - by apply (up_view_tips q T c n r).
Qed.

Lemma unrooted_up_nested a : forall T c q cm qm r u,
  c :: q = a ++ cm :: qm ->
  unrooted_up T q c = Some r -> unrooted_up T qm cm = Some u ->
  exists b, node_at r b = Some u /\ length b = length a.
Proof.
  induction a as [|x a IH]; intros T c q cm qm r u Heq Hr Hu.
  - cbn in Heq. injection Heq as -> ->. exists [].
    split; [cbn; congruence|done].
  - cbn in Heq. injection Heq as -> ->.
    destruct (a ++ cm :: qm) as [|i q'] eqn:Hq; [by destruct a|].
    cbn [unrooted_up] in Hr.
    destruct (node_at T (i :: q')) as [n|] eqn:Hn; [|done]. cbn in Hr.
    destruct (children n !! x) as [s|] eqn:Hs; [|done]. cbn in Hr.
    destruct (unrooted_up T q' i) as [rest|] eqn:Hrest; [|done].
    cbn in Hr. injection Hr as <-.
    destruct (IH T i q' cm qm rest u) as (b & Hb & Hlen); [done|done|done|].
    exists (b ++ [length (delete x (children n))]). split.
    + rewrite node_at_snoc. cbn [children].
      rewrite lookup_app_r by lia. rewrite Nat.sub_diag. done.
    + rewrite length_app. simpl. lia.
Qed.

(** With distinct, present tip names a tip is known by its name. *)
Lemma tip_address_unique T f g tf tg :
  NoDup (clade_tip_list T) -> None ∉ clade_tip_list T ->
  node_at T f = Some tf -> is_tip tf = true ->
  node_at T g = Some tg -> is_tip tg = true ->
  name tf = name tg -> f = g.
Proof.
  intros Hnd Hnamed Hf Htf Hg Htg Hname.
  destruct (name tf) as [label|] eqn:Hlabel.
  - pose proof (find_tip T f tf label Hnd Hf Htf Hlabel) as H1.
    pose proof (find_tip T g tg label Hnd Hg Htg (eq_sym Hname)) as H2.
    congruence.
  - exfalso. apply Hnamed, elem_of_clade_tip_list. eauto.
Qed.

(** A tip whose name is the name of a tip of a clade is in that clade. *)
Lemma tip_in_clade T p m f tf :
  NoDup (clade_tip_list T) -> None ∉ clade_tip_list T ->
  node_at T p = Some m ->
  node_at T f = Some tf -> is_tip tf = true ->
  name tf ∈ clade_tip_list m ->
  exists a, f = a ++ p /\ node_at m a = Some tf.
Proof.
  intros Hnd Hnamed Hm Hf Htf Hin.
  apply elem_of_clade_tip_list in Hin as (a & tip & Ha & Htip & Hname).
  exists a.
  assert (Hat : node_at T (a ++ p) = Some tip) by by rewrite node_at_app, Hm.
  assert (f = a ++ p) as ->
    by by apply (tip_address_unique T f (a ++ p) tf tip).
  split; [done|]. rewrite Hat in Hf. by injection Hf as <-.
Qed.

Lemma same_elements_length (l k : list (option string)) :
  NoDup l -> NoDup k -> (forall x, x ∈ l <-> x ∈ k) -> length l = length k.
Proof. intros Hl Hk Hlk. by rewrite (NoDup_Permutation l k). Qed.

Lemma clade_NoDup T p n :
  NoDup (clade_tip_list T) -> node_at T p = Some n -> NoDup (clade_tip_list n).
Proof.
  intros HT Hn. eapply submseteq_NoDup; [|exact HT].
  by apply (clade_tip_list_sub T p).
Qed.

Lemma not_a_tip t : 2 <= length (clade_tip_list t) -> is_tip t = false.
Proof. destruct t as [nm l [|c cs]]; [simpl; lia|done]. Qed.

End bipartition.

Section located.
Context {R : Type} `{LengthOps R}.
Implicit Types (T n s t m u : tree R) (p q a b : addr).

Variables (trg : tree R) (xs ys : list (option string)).
Hypothesis Hnd : NoDup (clade_tip_list trg).
Hypothesis Hnamed : None ∉ clade_tip_list trg.
Hypothesis Hxy : NoDup (xs ++ ys).
Hypothesis Hall : forall x, x ∈ clade_tip_list trg <-> x ∈ xs \/ x ∈ ys.
Hypothesis Hx2 : 2 <= length xs.
Hypothesis Hy2 : 2 <= length ys.
Hypothesis Hthree : 3 <= length (children trg).
Hypothesis Hmeas : Forall (fun c => measured c = true) (children trg).

Lemma xs_NoDup : NoDup xs.
Proof using Hxy. by apply NoDup_app in Hxy as (? & _ & _). Qed.

Lemma ys_NoDup : NoDup ys.
Proof using Hxy. by apply NoDup_app in Hxy as (_ & _ & ?). Qed.

Lemma xs_not_ys x : x ∈ xs -> x ∈ ys -> False.
Proof using Hxy. apply NoDup_app in Hxy as (_ & Hd & _). apply Hd. Qed.

Lemma trg_internal : is_tip trg = false.
Proof using Hthree.
  clear -Hthree. unfold is_tip.
  destruct (children trg); [simpl in Hthree; lia|done].
Qed.

(** What lies outside a clade that holds one side holds the other. *)
Lemma complement (zs ws : list (option string)) (l k : list (option string)) :
  NoDup (zs ++ ws) -> (forall x, x ∈ clade_tip_list trg <-> x ∈ zs \/ x ∈ ws) ->
  l ++ k ≡ₚ clade_tip_list trg ->
  (forall x, x ∈ k <-> x ∈ ws) -> forall x, x ∈ l <-> x ∈ zs.
Proof using Hnd.
  intros Hzw Hmem Hperm Hk.
  apply (other_side l k zs ws); [by rewrite Hperm|done| |done].
  intros x. by rewrite Hperm, Hmem, elem_of_app.
Qed.

(** The outgroup as a clade of the target. *)
Lemma located_outgroup n p :
  node_at trg p = Some n -> p <> [] ->
  (forall x, x ∈ clade_tip_list n <-> x ∈ xs) ->
  exists T a n', located trg xs T a n'.
Proof using All.
  intros Hn Hp Hmem.
  assert (Hlen : 2 <= length (clade_tip_list n)).
  { rewrite (same_elements_length _ xs); [done| |apply xs_NoDup|done].
    by apply (clade_NoDup trg p). }
  destruct (lowest_fork n Hlen) as (b & n' & Hb & Hfork & Hsame).
  assert (Hat : node_at trg (b ++ p) = Some n') by by rewrite node_at_app, Hn.
  assert (Hne : b ++ p <> []) by (by destruct b, p).
  exists trg, (b ++ p), n'. repeat split; try done.
  - destruct (b ++ p) as [|c q] eqn:Ha; [done|].
    apply locate_outgroup_below_apex.
    replace (list_to_set xs) with (clade_tip_names n').
    + apply lca_clade; [done|done| |done].
      intros Hin. apply Hnamed.
      by apply (elem_of_submseteq _ _ _ Hin), (clade_tip_list_sub trg (c :: q)).
    + apply set_eq. intros x. unfold clade_tip_names.
      rewrite !elem_of_list_to_set, Hsame. apply Hmem.
  - rewrite Hsame. apply Hmem.
  - rewrite Hsame. apply Hmem.
  - lia.
  - lia.
Qed.

(** With the ingroup as a clade of the target, the outgroup is split at the
    apex. *)
Lemma lca_at_apex m pm :
  node_at trg pm = Some m -> pm <> [] ->
  (forall x, x ∈ clade_tip_list m <-> x ∈ ys) ->
  lca trg (list_to_set xs) = Ok [].
Proof using All.
  intros Hm Hpm Hmem.
  assert (Hfind : forall nm, nm ∈ elements (list_to_set xs : gset (option string)) ->
            exists f, find trg nm = Ok f /\ above [] f).
  { intros nm Hnm. apply elem_of_elements, elem_of_list_to_set in Hnm.
    assert (Hin : nm ∈ clade_tip_list trg) by (apply Hall; by left).
    pose proof Hin as (a & tip & Ha & Htip & Hname)%elem_of_clade_tip_list.
    exists a. split.
    - destruct nm as [label|]; [|done]. by apply (find_tip trg a tip).
    - destruct a as [|i a _] using rev_ind; [|by exists a, i].
      cbn in Ha. injection Ha as <-. by rewrite trg_internal in Htip. }
  destruct (mapM_all (find trg) (above []) _ Hfind) as (F & HF & HallF & HmemF).
  rewrite Forall_forall in HallF.
  destruct pm as [|j pm' _] using rev_ind; [done|].
  assert (Hbranch : forall i, i < 3 -> i <> j -> exists a, a ++ [i] ∈ F).
  { intros i Hi Hij.
    destruct (lookup_lt_is_Some_2 (children trg) i) as [c Hc]; [lia|].
    destruct (clade_has_tip c) as (a & tip & Ha & Htip).
    assert (Hat : node_at trg (a ++ [i]) = Some tip)
      by by rewrite node_at_snoc, Hc.
    assert (Hin : name tip ∈ clade_tip_list trg)
      by (apply elem_of_clade_tip_list; eauto).
    exists a. apply Hall in Hin as Hside. destruct Hside as [Hx|Hy].
    - apply (HmemF (name tip)).
      + by apply elem_of_elements, elem_of_list_to_set.
      + destruct (name tip) as [label|] eqn:Hlabel; [|done].
        by apply (find_tip trg _ tip).
    - exfalso. apply Hmem in Hy.
      destruct (tip_in_clade trg (pm' ++ [j]) m (a ++ [i]) tip)
        as (a' & Heq & _); try done.
      rewrite (assoc_L (++)) in Heq. by apply app_inj_2 in Heq as [_ [= ?]]. }
  assert (Hpair : exists i1 i2, i1 < 3 /\ i2 < 3 /\ i1 <> j /\ i2 <> j /\ i1 <> i2).
  { destruct j as [|[|j]];
      [exists 1, 2|exists 0, 2|exists 0, 1]; repeat split; lia. }
  destruct Hpair as (i1 & i2 & H1 & H2 & Hj1 & Hj2 & H12).
  destruct (Hbranch i1 H1 Hj1) as [a1 Ha1].
  destruct (Hbranch i2 H2 Hj2) as [a2 Ha2].
  by apply (lca_two_branches trg _ [] trg F a1 i1 a2 i2).
Qed.

(** The first tip that is not in the outgroup is in the ingroup clade,
    strictly below its root. *)
Lemma first_ingroup_tip m pm :
  node_at trg pm = Some m -> pm <> [] ->
  (forall x, x ∈ clade_tip_list m <-> x ∈ ys) ->
  exists k i a tip par,
    list_find (fun x => name x.2 ∉ (list_to_set xs : gset (option string)))
              (tips trg [])
    = Some (k, (i :: a ++ pm, tip))
    /\ node_at trg (a ++ pm) = Some par /\ children par !! i = Some tip
    /\ is_tip tip = true.
Proof using All.
  intros Hm Hpm Hmem.
  assert (Hm2 : 2 <= length (clade_tip_list m)).
  { rewrite (same_elements_length _ ys); [done| |apply ys_NoDup|done].
    by apply (clade_NoDup trg pm). }
  destruct (clade_has_tip m) as (a0 & tip0 & Ha0 & Htip0).
  assert (Hsome : is_Some (list_find
            (fun x => name x.2 ∉ (list_to_set xs : gset (option string)))
            (tips trg []))).
  { apply (list_find_elem_of _ _ (a0 ++ pm, tip0)).
    - apply elem_of_tips_2; [by rewrite node_at_app, Hm|done|by destruct a0, pm].
    - cbn. rewrite elem_of_list_to_set. intros Hx.
      apply (xs_not_ys (name tip0)); [done|].
      apply Hmem, elem_of_clade_tip_list. eauto. }
  destruct Hsome as [[k [f tip]] Hfind]. exists k.
  pose proof Hfind as (Hk & Hout & _)%list_find_Some. cbn in Hout.
  rewrite elem_of_list_to_set in Hout.
  apply list_elem_of_lookup_2, elem_of_tips in Hk as (Hf & Htip & Hne).
  assert (Hin : name tip ∈ clade_tip_list m).
  { apply Hmem.
    assert (Hany : name tip ∈ clade_tip_list trg)
      by (apply elem_of_clade_tip_list; eauto).
    apply Hall in Hany as [?|?]; done. }
  destruct (tip_in_clade trg pm m f tip) as (a & -> & Ha); try done.
  destruct a as [|i a].
  { exfalso. cbn in Ha. injection Ha as ->.
    by rewrite (not_a_tip _ Hm2) in Htip. }
  cbn [app] in Hf, Hfind. apply node_at_child_lt in Hf as (par & Hpar & Hi).
  exists i, a, tip, par. done.
Qed.

(** The ingroup as a clade of the target: the tree is swapped, and in the
    new tree the outgroup is a clade. *)
Lemma located_ingroup m pm :
  node_at trg pm = Some m -> pm <> [] ->
  (forall x, x ∈ clade_tip_list m <-> x ∈ ys) ->
  exists T a n', located trg xs T a n'.
Proof using All.
  intros Hm Hpm Hmem.
  assert (Hm2 : 2 <= length (clade_tip_list m)).
  { rewrite (same_elements_length _ ys); [done| |apply ys_NoDup|done].
    by apply (clade_NoDup trg pm). }
  destruct (first_ingroup_tip m pm Hm Hpm Hmem)
    as (k & i & a & tip & par & Hfind & Hpar & Hi & Htip).
  assert (Hint : is_tip par = false)
    by (unfold is_tip; by destruct (children par)).
  destruct pm as [|cm qm]; [done|].
  destruct (a ++ cm :: qm) as [|c q] eqn:Hp; [by destruct a|].
  destruct (unrooted_up_total q trg c par Hpar) as [r Hr].
  destruct (unrooted_up_total qm trg cm m Hm) as [u Hu].
  set (T := Node (Some "root") None (children par ++ [r])).
  assert (Hroot : root_at trg (c :: q) = Ok T) by by apply root_at_below.
  assert (Hone : length (children trg) <> 1) by lia.
  assert (HpermT : clade_tip_list T ≡ₚ clade_tip_list trg).
  { unfold T. rewrite clade_tip_list_snoc.
    rewrite <- (unrooted_up_tips q trg c par r Hpar Hr Hone).
    assert (Hcs : clade_tip_list par = mjoin (clade_tip_list <$> children par)).
    { destruct par as [nm l [|x xs']]; done. }
    rewrite Hcs. apply Permutation_app_comm. }
  destruct (unrooted_up_nested a trg c q cm qm r u) as (b & Hb & Hblen);
    [done|done|done|].
  pose proof (unrooted_up_tips qm trg cm m u Hm Hu Hone) as Hpermu.
  assert (Hu_xs : forall x, x ∈ clade_tip_list u <-> x ∈ xs)
    by by apply (complement xs ys _ (clade_tip_list m)).
  assert (Hndu : NoDup (clade_tip_list u)).
  { rewrite <- Hpermu in Hnd. by apply NoDup_app in Hnd as (? & _ & _). }
  assert (Hu2 : 2 <= length (clade_tip_list u)).
  { rewrite (same_elements_length _ xs); [done|done|apply xs_NoDup|done]. }
  destruct (lowest_fork u Hu2) as (b2 & n' & Hb2 & Hfork & Hsame).
  set (kp := length (children par)).
  assert (Hat : node_at T ((b2 ++ b) ++ [kp]) = Some n').
  { rewrite node_at_snoc. unfold T. cbn [children].
    rewrite lookup_app_r by (unfold kp; lia).
    unfold kp. rewrite Nat.sub_diag. cbn.
    by rewrite node_at_app, Hb. }
  assert (HndT : NoDup (clade_tip_list T)) by by rewrite HpermT.
  assert (Hn'_xs : forall x, x ∈ clade_tip_list n' <-> x ∈ xs)
    by (intros x; rewrite Hsame; apply Hu_xs).
  assert (Hlca : lca T (list_to_set xs) = Ok ((b2 ++ b) ++ [kp])).
  { replace (list_to_set xs) with (clade_tip_names n').
    - apply lca_clade; [done|done| |done].
      intros Hin. apply Hnamed, Hall. left. by apply Hn'_xs.
    - apply set_eq. intros x. unfold clade_tip_names.
      rewrite !elem_of_list_to_set. apply Hn'_xs. }
  exists T, ((b2 ++ b) ++ [kp]), n'. repeat split; try done.
  - unfold locate_outgroup.
    rewrite (lca_at_apex m (cm :: qm) Hm Hpm Hmem), bind_Ok.
    rewrite bool_decide_eq_true_2 by done.
    unfold swap_tree. rewrite Hfind. cbn [parent default from_option id].
    by rewrite Hroot, bind_Ok, Hlca, bind_Ok.
  - by destruct (b2 ++ b).
  - by apply Hn'_xs.
  - by apply Hn'_xs.
  - unfold T. cbn [children]. apply Forall_app. split.
    + apply (measured_inv par).
      apply (measured_below trg (c :: q)); done.
    + constructor; [|constructor]. by apply (unrooted_up_measured q trg c).
  - intros Hlen. rewrite length_app in Hlen. simpl in Hlen.
    assert (Hb0 : b = []) by (destruct b2, b; simpl in Hlen; done || lia).
    subst b. simpl in Hblen. destruct a; [|done]. cbn in Hp.
    injection Hp as -> ->. rewrite Hm in Hpar. injection Hpar as <-.
    unfold T. cbn [children]. rewrite length_app. simpl.
    destruct (children m) as [|x [|y zs]] eqn:Hcs; [done| |simpl; lia].
    exfalso. destruct i; [|done]. cbn in Hi. injection Hi as ->.
    destruct m as [nm lm cs]. cbn in Hcs. subst cs.
    destruct tip as [tn tl [|? ?]]; [|done]. simpl in Hm2. lia.
  - unfold T. cbn [children]. rewrite length_app. simpl.
    destruct (children par); [done|simpl; lia].
Qed.

(** What [restore_rooting] returns from a located outgroup. *)
Lemma rooted_at_located T a n :
  located trg xs T a n ->
  exists left right,
    root_above T a None = Ok (Node None None [left; right])
    /\ tip_names left = list_to_set xs
    /\ tip_names right = list_to_set ys.
Proof using All.
  intros (Hloc & Hn & Ha & Hperm & Hn_xs & HmT & Hbasal & Hone).
  destruct (reroot_split T a n Hn Ha HmT Hbasal Hone)
    as (l & r & Hl & Hroot & Hsplit).
  exists (set_length n (Some (rhalf l))), (set_length r (Some (rhalf l))).
  split; [done|].
  assert (HndT : NoDup (clade_tip_list T)) by by rewrite Hperm.
  rewrite <- Hsplit in HndT.
  apply NoDup_app in HndT as HndT'. destruct HndT' as (Hndr & _ & Hndn).
  assert (Hr_ys : forall x, x ∈ clade_tip_list r <-> x ∈ ys).
  { apply (complement ys xs _ (clade_tip_list n)).
    - by rewrite (Permutation_app_comm ys xs).
    - intros x. rewrite Hall. tauto.
    - by rewrite Hsplit.
    - done. }
  assert (Hsets : forall t (zs : list (option string)),
            NoDup (clade_tip_list t) -> NoDup zs -> 2 <= length zs ->
            (forall x, x ∈ clade_tip_list t <-> x ∈ zs) ->
            forall l', tip_names (set_length t l') = list_to_set zs).
  { intros t zs Hndt Hndz Hz2 Htz l'.
    assert (Ht2 : 2 <= length (clade_tip_list t))
      by by rewrite (same_elements_length _ zs).
    rewrite tip_names_clade.
    - apply set_eq. intros x. unfold clade_tip_names.
      by rewrite !elem_of_list_to_set, clade_tip_list_set_length.
    - apply not_a_tip. by rewrite clade_tip_list_set_length. }
  split.
  - apply Hsets; [done|apply xs_NoDup|done|done].
  - apply Hsets; [done|apply ys_NoDup|done|done].
Qed.

End located.

(** C6, as the code has it, from the inputs alone.  Let [src] be strictly
    rooted with distinct tip names, and let the target have the same tips,
    all named and distinct, an apex with three children or more, and a
    length on every node below the apex.  Let the outgroup, the basal clade
    of [src] with fewer tips (the first on a tie), have two tips or more.
    If some branch of the target separates the outgroup from the ingroup,
    that is, some node below the apex has exactly the tips of the outgroup
    or exactly the tips of the ingroup, then [restore_rooting] returns a
    strictly rooted tree whose first basal clade has exactly the tips of
    the outgroup and whose second has exactly the tips of the ingroup. *)
Theorem restore_rooting_bipartition {R} `{LengthOps R}
    (src trg c1 c2 n : tree R) (p : addr) :
  children src = [c1; c2] ->
  NoDup (tip_name_list src) ->
  NoDup (tip_name_list trg) -> None ∉ tip_name_list trg ->
  tip_names src = tip_names trg ->
  3 <= length (children trg) ->
  Forall (fun c => measured c = true) (children trg) ->
  let out := if (count_tips c2 <? count_tips c1)%nat then c2 else c1 in
  let ing := if (count_tips c2 <? count_tips c1)%nat then c1 else c2 in
  2 <= count_tips out ->
  node_at trg p = Some n -> p <> [] ->
  clade_tip_names n = tip_names out \/ clade_tip_names n = tip_names ing ->
  exists left right,
    restore_rooting src trg = Ok (Node None None [left; right])
    /\ tip_names left = tip_names out
    /\ tip_names right = tip_names ing.
Proof.
  intros Hcs Hnds Hndt Hnamed Htips Hthree Hmeas out ing Htwo Hn Hp Hside.
  assert (Htrg : is_tip trg = false).
  { destruct trg as [? ? [|? ?]]; [simpl in Hthree; lia|done]. }
  rewrite (tip_name_list_clade trg Htrg) in Hndt, Hnamed.
  assert (Hcount : forall t : tree R, is_tip t = false ->
            count_tips t = length (clade_tip_list t)).
  { intros t Ht. rewrite <- (tip_name_list_clade t Ht).
    unfold count_tips, tip_name_list. by rewrite length_fmap. }
  assert (Hle : count_tips out <= count_tips ing).
  { unfold out, ing. destruct (count_tips c2 <? count_tips c1)%nat eqn:Hlt.
    - apply Nat.ltb_lt in Hlt. lia.
    - apply Nat.ltb_ge in Hlt. lia. }
  assert (Hout : is_tip out = false).
  { destruct (is_tip out) eqn:Ht; [|done].
    rewrite (count_tips_tip _ Ht) in Htwo. lia. }
  assert (Hing : is_tip ing = false).
  { destruct (is_tip ing) eqn:Ht; [|done].
    rewrite (count_tips_tip _ Ht) in Hle. lia. }
  set (xs := clade_tip_list out). set (ys := clade_tip_list ing).
  assert (Hxs : tip_names out = list_to_set xs) by by apply tip_names_clade.
  assert (Hys : tip_names ing = list_to_set ys) by by apply tip_names_clade.
  assert (Hx2 : 2 <= length xs) by (unfold xs; by rewrite <- Hcount).
  assert (Hy2 : 2 <= length ys) by (unfold ys; rewrite <- Hcount by done; lia).
  rewrite (tip_name_list_pair src c1 c2 Hcs) in Hnds.
  assert (Hxy : NoDup (xs ++ ys)).
  { unfold xs, ys, out, ing. destruct (count_tips c2 <? count_tips c1)%nat;
      [by rewrite (Permutation_app_comm (clade_tip_list c2))|done]. }
  assert (Hall : forall x, x ∈ clade_tip_list trg <-> x ∈ xs \/ x ∈ ys).
  { intros x. rewrite <- (tip_name_list_clade trg Htrg), <- elem_of_tip_names.
    rewrite <- Htips, elem_of_tip_names, (tip_name_list_pair src c1 c2 Hcs).
    rewrite elem_of_app. unfold xs, ys, out, ing.
    destruct (count_tips c2 <? count_tips c1)%nat; tauto. }
  assert (Hloc : exists T a n', located trg xs T a n').
  { destruct Hside as [Hside|Hside].
    - apply (located_outgroup trg xs ys) with (n := n) (p := p); try done.
      intros x. rewrite <- elem_of_clade_tip_names, Hside, Hxs.
      by rewrite elem_of_list_to_set.
    - apply (located_ingroup trg xs ys) with (m := n) (pm := p); try done.
      intros x. rewrite <- elem_of_clade_tip_names, Hside, Hys.
      by rewrite elem_of_list_to_set. }
  destruct Hloc as (T & a & n' & Hloc).
  destruct (rooted_at_located trg xs ys Hndt Hnamed Hxy Hall Hx2 Hy2 Hthree
              Hmeas T a n' Hloc)
    as (left & right & Hroot & Hl & Hr).
  exists left, right. rewrite Hxs, Hys. split; [|done].
  destruct Hloc as (Hloc & _).
  rewrite (restore_rooting_located src trg out T a); try done.
  - by rewrite Hcs.
  - lia.
  - by apply outgroup_clade_pair.
  - by rewrite Hxs.
Qed.

Lemma restore_rooting_bipartition_witness :
  (exists left right,
     restore_rooting Ex.src Ex.trg_good = Ok (Node None None [left; right])
     /\ tip_names left = tip_names (Ex.clade "x" [Ex.tip "a"; Ex.tip "b"])
     /\ tip_names right
        = tip_names (Ex.clade "y" [Ex.tip "c"; Ex.tip "d"; Ex.tip "e"]))
  /\ (exists left right,
        restore_rooting Ex.src Ex.trg_split = Ok (Node None None [left; right])
        /\ tip_names left = tip_names (Ex.clade "x" [Ex.tip "a"; Ex.tip "b"])
        /\ tip_names right
           = tip_names (Ex.clade "y" [Ex.tip "c"; Ex.tip "d"; Ex.tip "e"])).
Proof.
  split.
  - apply (restore_rooting_bipartition Ex.src Ex.trg_good
             (Ex.clade "x" [Ex.tip "a"; Ex.tip "b"])
             (Ex.clade "y" [Ex.tip "c"; Ex.tip "d"; Ex.tip "e"])
             (Ex.join [Ex.tip "a"; Ex.tip "b"]) [0]);
      [reflexivity|compute_done|compute_done|compute_done|compute_done
      |cbn; lia|compute_done|compute_done|reflexivity|done|].
    left. compute_done.
  - apply (restore_rooting_bipartition Ex.src Ex.trg_split
             (Ex.clade "x" [Ex.tip "a"; Ex.tip "b"])
             (Ex.clade "y" [Ex.tip "c"; Ex.tip "d"; Ex.tip "e"])
             (Ex.join [Ex.tip "c"; Ex.join [Ex.tip "d"; Ex.tip "e"]]) [2]);
      [reflexivity|compute_done|compute_done|compute_done|compute_done
      |cbn; lia|compute_done|compute_done|reflexivity|done|].
    right. compute_done.
Defined.

(** An outgroup with one tip: scikit-bio's [lca] evaluates [tipnames[0]]
    on the set of its names, and no tree is returned.  Here [src] is
    [((a)x,(b,c)y)r;] and the target [(a,b,c);]. *)
Example restore_rooting_one_tip_outgroup :
  let src := Ex.apex (Some "r") [Ex.clade "x" [Ex.tip "a"];
                                 Ex.clade "y" [Ex.tip "b"; Ex.tip "c"]] in
  length (children src) = 2
  /\ length (children Ex.trg_three) <> 2
  /\ tip_names src = tip_names Ex.trg_three
  /\ restore_rooting src Ex.trg_three = Err TypeError.
Proof. repeat split; compute_done. Qed.

(** ** Order restoration: what is kept and what is dropped *)

Section dropping.
Context {R : Type} `{LengthOps R}.
Implicit Types (T n s t k r : tree R) (p q a : addr) (ss ks : list (tree R)).

Lemma elem_of_present_names t y :
  y ∈ present_names t <-> exists a n, node_at t a = Some n /\ name n = Some y.
Proof.
  rewrite (present_names_postorder t []), list_elem_of_omap. split.
  - intros ([a n] & Hin & Hn). cbn in Hn.
    apply postorder_node_at in Hin as (a' & -> & Ha'). eauto.
  - intros (a & n & Ha & Hn). exists (a ++ [], n).
    split; [by apply node_at_postorder|done].
Qed.

(** A name that is present once is the name of one node. *)
Lemma present_unique t a b na nb y :
  NoDup (present_names t) ->
  node_at t a = Some na -> node_at t b = Some nb ->
  name na = Some y -> name nb = Some y -> a = b.
Proof.
  intros Hnd Ha Hb Hna Hnb.
  pose proof (find_unique t y a na Hnd Ha Hna).
  pose proof (find_unique t y b nb Hnd Hb Hnb). congruence.
Qed.

Lemma node_names_sub T : forall p n,
  node_at T p = Some n -> node_names n ⊆+ node_names T.
Proof.
  intros p. revert T. induction p as [|i p IH] using rev_ind; intros T n Hn.
  - cbn in Hn. injection Hn as ->. reflexivity.
  - rewrite node_at_snoc in Hn.
    destruct (children T !! i) as [c|] eqn:Hc; [|done]. cbn in Hn.
    etrans; [by apply IH|]. clear IH Hn.
    destruct T as [nm l cs]. cbn [children node_names] in *.
    apply submseteq_inserts_r.
    rewrite (join_delete_perm node_names cs i c Hc).
    apply submseteq_inserts_l. done.
Qed.

Lemma present_names_sub T p n :
  node_at T p = Some n -> NoDup (present_names T) -> NoDup (present_names n).
Proof.
  intros Hn HT. eapply submseteq_NoDup; [|exact HT].
  by apply omap_submseteq, (node_names_sub T p).
Qed.

(** Outside the place of a change the names stay. *)
Lemma node_at_modify_at_other p : forall (f : tree R -> tree R) T e r,
  ~ p `suffix_of` e ->
  node_at (modify_at p f T) e = Some r ->
  exists n, node_at T e = Some n /\ name n = name r.
Proof.
  induction p as [|i q IH]; intros f T e r Hout He.
  - exfalso. apply Hout. apply suffix_nil.
  - cbn [modify_at] in He.
    destruct (decide (q `suffix_of` e)) as [[e' ->]|Hq].
    + rewrite node_at_app in He. rewrite node_at_app.
      destruct (node_at T q) as [nq|] eqn:Hnq.
      * rewrite (node_at_modify_at q _ T nq Hnq) in He. cbn in He |- *.
        destruct e' as [|j e' _] using rev_ind.
        -- cbn in He |- *. injection He as <-. eauto.
        -- rewrite node_at_snoc in He |- *. cbn [children] in He.
           rewrite list_lookup_alter_ne in He; [eauto|].
           intros <-. apply Hout. exists e'. by rewrite <- (assoc_L (++)).
      * exfalso. clear -Hnq He. revert He.
        generalize (fun n : tree R =>
          Node (name n) (branch_length n) (alter f i (children n))).
        intros g He.
        assert (Hnone : node_at (modify_at q g T) q = None).
        { clear He. revert g T Hnq. induction q as [|j q IHq]; intros g T Hnq;
            [done|].
          cbn [modify_at]. rewrite node_at_cons in Hnq |- *.
          destruct (node_at T q) as [m|] eqn:Hm.
          - rewrite (node_at_modify_at q _ T m Hm). cbn in Hnq |- *.
            rewrite list_lookup_alter_eq, Hnq. done.
          - by rewrite IHq. }
        by rewrite Hnone in He.
    + by eapply IH.
Qed.

Lemma align_inv label l c cs t t' :
  NoDup (node_names (Node (Some label) l (c :: cs))) ->
  align (Node (Some label) l (c :: cs)) t = Ok t' ->
  exists kids kids',
    Forall2 (fun s k => name2child (children t) !! name s = Some k)
            (c :: cs) kids
    /\ Forall3 (fun s k k' => align s k = Ok k') (c :: cs) kids kids'
    /\ t' = set_children kids' t.
Proof.
  intros Hnd Hal.
  destruct (decide (label = "")) as [->|Hl]; [done|].
  rewrite align_internal in Hal by done.
  destruct (reorder_children (c :: cs) (children t)) as [kids|] eqn:Hkids;
    [|done].
  rewrite bind_Ok in Hal.
  destruct (align_children align (c :: cs) kids) as [kids'|] eqn:Hkids';
    [|done].
  rewrite bind_Ok in Hal. injection Hal as <-.
  apply node_names_NoDup_inv in Hnd as [Hnames Hnds].
  apply reorder_children_distinct in Hkids; [|done].
  pose proof (reorder_children_names _ _ _ Hkids) as [Hkn Hkin].
  apply align_children_Forall3 in Hkids'.
  2:{ apply (f_equal length) in Hkn. by rewrite !length_fmap in Hkn. }
  eauto.
Qed.

(** After a run every internal node of the source has its counterpart at
    its own place, with the names of its children, in its order. *)
Lemma align_counterpart s : forall t t' q s',
  NoDup (node_names s) -> name t = name s -> align s t = Ok t' ->
  node_at s q = Some s' -> is_tip s' = false ->
  exists r, node_at t' q = Some r /\ name r = name s'
            /\ name <$> children r = name <$> children s'.
Proof.
  induction s as [nm l ss IH] using tree_ind. intros t t' q s' Hnd Hname Hal Hq Hs'.
  destruct ss as [|c cs].
  { destruct q as [|i q _] using rev_ind.
    - cbn in Hq. injection Hq as <-. done.
    - rewrite node_at_snoc in Hq. done. }
  destruct nm as [label|]; [|done].
  destruct (align_inv label l c cs t t' Hnd Hal) as (kids & kids' & Hk & Hk' & ->).
  pose proof (node_names_NoDup_inv _ _ _ Hnd) as [Hnames Hnds].
  destruct q as [|i q _] using rev_ind.
  - cbn in Hq. injection Hq as <-. exists (set_children kids' t).
    split; [done|]. split; [done|]. cbn [children set_children].
    clear -Hk Hk' Hnds IH. revert Hk.
    induction Hk' as [|s k k' ss ks ks' Hal Hall IHall]; intros Hk; [done|].
    apply Forall_cons in Hnds as [Hs Hnds].
    apply Forall_cons in IH as [_ IH].
    inversion Hk as [|? ? ? ? Hsk Hrest]; subst.
    rewrite !fmap_cons. f_equal; [|by apply IHall].
    destruct (align_sub s k k' Hs Hal) as (-> & _).
    by apply name2child_Some in Hsk as [_ ->].
  - rewrite node_at_snoc in Hq |- *. cbn [children set_children] in *.
    destruct ((c :: cs) !! i) as [si|] eqn:Hsi; [|done]. cbn in Hq.
    destruct (Forall3_lookup_l _ _ _ _ _ _ Hk' Hsi) as (ki & ki' & Hki & Hki' & Hali).
    rewrite Hki'. cbn.
    rewrite Forall_lookup in IH. rewrite Forall_lookup in Hnds.
    apply (IH i si Hsi ki ki' q s'); try done.
    + by apply (Hnds i).
    + pose proof (Forall2_lookup_lr _ _ _ _ _ _ Hk Hsi Hki) as Hn2c.
      by apply name2child_Some in Hn2c as [_ ?].
Qed.


Lemma present_in T p n y :
  node_at T p = Some n -> y ∈ present_names n -> y ∈ present_names T.
Proof.
  intros Hn Hy. eapply elem_of_submseteq; [exact Hy|].
  by apply omap_submseteq, (node_names_sub T p).
Qed.

(** A name of the result of [align] is the name of a node of the target. *)
Lemma align_named s t t' e r y :
  NoDup (node_names s) -> align s t = Ok t' ->
  node_at t' e = Some r -> name r = Some y ->
  exists e2 n2, node_at t e2 = Some n2 /\ name n2 = Some y.
Proof.
  intros Hnd Hal He Hr. apply elem_of_present_names.
  destruct (align_sub s t t' Hnd Hal) as (_ & _ & Hsub).
  eapply elem_of_submseteq; [|by apply omap_submseteq, Hsub].
  apply elem_of_present_names. eauto.
Qed.

Lemma labelled_child nm l ss i si :
  (forall q s', node_at (Node nm l ss) q = Some s' -> is_tip s' = false ->
                is_Some (label_of s')) ->
  ss !! i = Some si ->
  forall q s', node_at si q = Some s' -> is_tip s' = false ->
               is_Some (label_of s').
Proof.
  intros Hlab Hsi q s' Hq. apply (Hlab (q ++ [i])).
  rewrite node_at_snoc. cbn [children]. by rewrite Hsi.
Qed.

Lemma label_of_name s : is_Some (label_of s) -> is_Some (name s).
Proof. unfold label_of. destruct (name s); [eauto|by intros [? ?]]. Qed.

(** A child of a target node whose name no child of the like-named source
    node carries is gone after the run, with every name below it. *)
Lemma align_drops s : forall t t',
  NoDup (node_names s) -> NoDup (present_names t) ->
  (forall q s', node_at s q = Some s' -> is_tip s' = false ->
                is_Some (label_of s')) ->
  name t = name s -> align s t = Ok t' ->
  forall q s' a n k y,
    node_at s q = Some s' -> is_tip s' = false ->
    node_at t a = Some n -> name n = name s' ->
    k ∈ children n -> name k ∉ name <$> children s' ->
    y ∈ present_names k -> y ∉ present_names t'.
Proof.
  induction s as [nm l ss IH] using tree_ind.
  intros t t' Hnd HT Hlab Hname Hal q s' a n k y Hq Hs' Ha Hn Hk Hkn Hy Hin.
  destruct ss as [|c cs].
  { destruct q as [|i q _] using rev_ind.
    - cbn in Hq. by injection Hq as <-.
    - by rewrite node_at_snoc in Hq. }
  destruct nm as [label|]; [|done].
  destruct (align_inv label l c cs t t' Hnd Hal)
    as (kids & kids' & Hk2 & Hk3 & ->).
  pose proof (reorder_children_names _ _ _ Hk2) as [Hkn2 Hkin].
  pose proof (node_names_NoDup_inv _ _ _ Hnd) as [Hnames Hnds].
  pose proof Hy as Hy'.
  apply elem_of_present_names in Hy' as (ay & ny & Hay & Hny).
  apply list_elem_of_lookup in Hk as [jk Hjk].
  assert (Hyt : node_at t ((ay ++ [jk]) ++ a) = Some ny).
  { rewrite node_at_app, Ha. cbn. by rewrite node_at_snoc, Hjk. }
  apply elem_of_present_names in Hin as (e & r & He & Hr).
  destruct e as [|i2 e' _] using rev_ind.
  { cbn in He. injection He as <-. cbn in Hr.
    pose proof (present_unique t [] _ t ny y HT eq_refl Hyt Hr Hny) as Heq.
    apply (f_equal length) in Heq. rewrite !length_app in Heq.
    cbn in Heq. lia. }
  rewrite node_at_snoc in He. cbn [children set_children] in He.
  destruct (kids' !! i2) as [ki2'|] eqn:Hki2'; [|done]. cbn in He.
  destruct (Forall3_lookup_r _ _ _ _ _ _ Hk3 Hki2')
    as (si2 & ki2 & Hsi2 & Hki2 & Hal2).
  rewrite Forall_lookup in Hnds.
  destruct (align_named si2 ki2 ki2' e' r y (Hnds _ _ Hsi2) Hal2 He Hr)
    as (e2 & n2 & He2 & Hn2).
  pose proof (Forall2_lookup_lr _ _ _ _ _ _ Hk2 Hsi2 Hki2) as Hns2.
  apply name2child_Some in Hns2 as [Hin2 Hnm2].
  apply list_elem_of_lookup in Hin2 as [j2 Hj2].
  assert (Hyt2 : node_at t (e2 ++ [j2]) = Some n2).
  { by rewrite node_at_snoc, Hj2. }
  pose proof (present_unique t _ _ ny n2 y HT Hyt Hyt2 Hny Hn2) as Heq.
  destruct q as [|i q' _] using rev_ind.
  - cbn in Hq. injection Hq as <-. cbn [children name] in *.
    rewrite <- Hname in Hn.
    assert (a = []) as ->.
    { destruct (name t) as [lt|] eqn:Hlt; [|done].
      by apply (present_unique t a [] n t lt). }
    cbn in Ha. injection Ha as Ha. subst n.
    rewrite app_nil_r in Heq. apply app_inj_tail in Heq as [_ <-].
    rewrite Hjk in Hj2. injection Hj2 as ->.
    apply Hkn. rewrite Hnm2. apply list_elem_of_fmap_2.
    by apply list_elem_of_lookup_2 in Hsi2.
  - rewrite node_at_snoc in Hq. cbn [children] in Hq, Hkn.
    destruct ((c :: cs) !! i) as [si|] eqn:Hsi; [|done]. cbn in Hq.
    destruct (Forall3_lookup_l _ _ _ _ _ _ Hk3 Hsi)
      as (ki & ki' & Hki & Hki' & Hali).
    pose proof (Forall2_lookup_lr _ _ _ _ _ _ Hk2 Hsi Hki) as Hns.
    apply name2child_Some in Hns as [Hink Hnmk].
    apply list_elem_of_lookup in Hink as [j Hj].
    pose proof (labelled_child _ _ _ _ _ Hlab Hsi) as Hlabi.
    destruct (label_of_name s' (Hlabi q' s' Hq Hs')) as [L' HL'].
    destruct (align_counterpart si ki ki' q' s' (Hnds _ _ Hsi) Hnmk Hali Hq Hs')
      as (r0 & Hr0 & Hr0n & _).
    rewrite HL' in Hr0n.
    destruct (align_named si ki ki' q' r0 L' (Hnds _ _ Hsi) Hali Hr0 Hr0n)
      as (a2 & n0 & Ha2 & Hn0).
    assert (Ha2t : node_at t (a2 ++ [j]) = Some n0).
    { by rewrite node_at_snoc, Hj. }
    rewrite HL' in Hn.
    pose proof (present_unique t _ _ n n0 L' HT Ha Ha2t Hn Hn0) as ->.
    rewrite Ha in Ha2t. injection Ha2t as <-.
    rewrite (assoc_L (++)) in Heq. apply app_inj_tail in Heq as [_ <-].
    rewrite Hj in Hj2. injection Hj2 as <-.
    assert (i2 = i) as ->.
    { apply (NoDup_lookup (name <$> kids) i2 i (name ki)); [by rewrite Hkn2| |].
      - by rewrite list_lookup_fmap, Hki2.
      - by rewrite list_lookup_fmap, Hki. }
    rewrite Hki' in Hki2'. injection Hki2' as <-.
    rewrite Forall_lookup in IH.
    apply (IH i si Hsi ki ki' (Hnds _ _ Hsi)
              (present_names_sub t [j] ki ltac:(by cbn; rewrite Hj) HT)
              Hlabi Hnmk Hali q' s' a2 n k y); try done.
    + rewrite HL'. done.
    + apply list_elem_of_lookup. eauto.
    + apply elem_of_present_names. eauto.
Qed.

(** *** When a run succeeds and when it fails *)

Lemma align_children_total (f : tree R -> tree R -> result (tree R)) ss ks :
  Forall2 (fun s k => exists k', f s k = Ok k') ss ks ->
  exists ks', align_children f ss ks = Ok ks'.
Proof.
  induction 1 as [|s k ss ks [k' Hk] Hall [ks' IH]]; [by exists []|].
  exists (k' :: ks'). by rewrite align_children_cons, Hk, bind_Ok, IH.
Qed.

Lemma align_children_err (f : tree R -> tree R -> result (tree R)) ss :
  forall ks e,
    align_children f ss ks = Err e ->
    exists i s k, ss !! i = Some s /\ ks !! i = Some k /\ f s k = Err e.
Proof.
  induction ss as [|s ss IH]; intros [|k ks] e Hal; try done.
  rewrite align_children_cons in Hal.
  destruct (f s k) as [k'|e'] eqn:Hk.
  - rewrite bind_Ok in Hal.
    destruct (align_children f ss ks) as [r|e''] eqn:Hr; [done|].
    injection Hal as ->.
    destruct (IH ks e Hr) as (i & s' & k0 & Hs' & Hk0 & Herr).
    by exists (S i), s', k0.
  - injection Hal as ->. by exists 0, s, k.
Qed.

(** A run succeeds when every child of a source node has a namesake among
    the children of the like-named target nodes. *)
Lemma align_ok s : forall t,
  NoDup (node_names s) ->
  (forall q s', node_at s q = Some s' -> is_tip s' = false ->
                is_Some (label_of s')) ->
  name t = name s ->
  (forall q s' a n c,
     node_at s q = Some s' -> node_at t a = Some n -> name n = name s' ->
     c ∈ children s' -> exists k, k ∈ children n /\ name k = name c) ->
  exists t', align s t = Ok t'.
Proof.
  induction s as [nm l ss IH] using tree_ind. intros t Hnd Hlab Hname Hall.
  destruct ss as [|c cs]; [exists t; apply align_tip|].
  destruct (Hlab [] _ eq_refl eq_refl) as [label Hlabel].
  unfold label_of in Hlabel. cbn [name] in Hlabel.
  destruct nm as [label'|]; [|done].
  case_bool_decide as Hne; [|done]. injection Hlabel as ->.
  rewrite align_internal by done.
  destruct (reorder_children_ok (c :: cs) (children t)) as (kids & Hkids & _).
  { intros c' Hc'.
    by apply (Hall [] (Node (Some label) l (c :: cs)) [] t c'). }
  rewrite Hkids, bind_Ok.
  pose proof (node_names_NoDup_inv _ _ _ Hnd) as [Hnames Hnds].
  pose proof Hkids as Hk2. apply reorder_children_distinct in Hk2; [|done].
  destruct (align_children_total align (c :: cs) kids) as [kids' Hkids'].
  - apply Forall2_same_length_lookup_2; [by eapply Forall2_length|].
    intros i si ki Hsi Hki.
    pose proof (Forall2_lookup_lr _ _ _ _ _ _ Hk2 Hsi Hki) as Hns.
    apply name2child_Some in Hns as [Hink Hnmk].
    apply list_elem_of_lookup in Hink as [j Hj].
    rewrite Forall_lookup in IH. rewrite Forall_lookup in Hnds.
    apply (IH i si Hsi ki (Hnds _ _ Hsi) (labelled_child _ _ _ _ _ Hlab Hsi) Hnmk).
    intros q s' a n c' Hq Ha Hn Hc'.
    apply (Hall (q ++ [i]) s' (a ++ [j]) n c'); try done.
    + rewrite node_at_snoc. cbn [children]. by rewrite Hsi.
    + by rewrite node_at_snoc, Hj.
  - rewrite Hkids', bind_Ok. eauto.
Qed.

(** A run fails with [ChildMismatch] only, and then a child of a source
    node has no namesake among the children of a like-named target node. *)
Lemma align_err s : forall t e,
  NoDup (node_names s) ->
  (forall q s', node_at s q = Some s' -> is_tip s' = false ->
                is_Some (label_of s')) ->
  name t = name s -> align s t = Err e ->
  e = ChildMismatch
  /\ exists q s' a n c,
       node_at s q = Some s' /\ node_at t a = Some n /\ name n = name s'
       /\ c ∈ children s' /\ forall k, k ∈ children n -> name k <> name c.
Proof.
  induction s as [nm l ss IH] using tree_ind. intros t e Hnd Hlab Hname Hal.
  destruct ss as [|c cs]; [by rewrite align_tip in Hal|].
  destruct (Hlab [] _ eq_refl eq_refl) as [label Hlabel].
  unfold label_of in Hlabel. cbn [name] in Hlabel.
  destruct nm as [label'|]; [|done].
  case_bool_decide as Hne; [|done]. injection Hlabel as ->.
  rewrite align_internal in Hal by done.
  pose proof (node_names_NoDup_inv _ _ _ Hnd) as [Hnames Hnds].
  destruct (reorder_children (c :: cs) (children t)) as [kids|e'] eqn:Hkids.
  - rewrite bind_Ok in Hal.
    pose proof Hkids as Hk2. apply reorder_children_distinct in Hk2; [|done].
    destruct (align_children align (c :: cs) kids) as [kids'|e'] eqn:Hkids';
      [done|].
    injection Hal as ->.
    destruct (align_children_err _ _ _ _ Hkids') as (i & si & ki & Hsi & Hki & Herr).
    pose proof (Forall2_lookup_lr _ _ _ _ _ _ Hk2 Hsi Hki) as Hns.
    apply name2child_Some in Hns as [Hink Hnmk].
    apply list_elem_of_lookup in Hink as [j Hj].
    rewrite Forall_lookup in IH. rewrite Forall_lookup in Hnds.
    destruct (IH i si Hsi ki e (Hnds _ _ Hsi)
                 (labelled_child _ _ _ _ _ Hlab Hsi) Hnmk Herr)
      as (-> & q & s' & a & n & c' & Hq & Ha & Hn & Hc' & Hno).
    split; [done|]. exists (q ++ [i]), s', (a ++ [j]), n, c'.
    repeat split; try done.
    + rewrite node_at_snoc. cbn [children]. by rewrite Hsi.
    + by rewrite node_at_snoc, Hj.
  - injection Hal as ->.
    destruct (reorder_children_err _ _ _ Hkids) as (-> & c' & Hc' & Hno).
    split; [done|]. by exists [], (Node (Some label) l (c :: cs)), [], t, c'.
Qed.

End dropping.

Section dropped.
Context {R : Type} `{LengthOps R}.

Lemma labelled_intro (src : tree R) :
  Forall (fun x => is_Some (label_of x.2)) (non_tips src []) ->
  forall q s, node_at src q = Some s -> is_tip s = false ->
              is_Some (label_of s).
Proof.
  rewrite Forall_forall. intros Hall q s Hq Hs.
  apply (Hall (q ++ [], s)). apply list_elem_of_filter.
  split; [done|]. by apply node_at_postorder.
Qed.

Lemma namesakes_intro (src trg : tree R) :
  Forall (fun x => Forall (fun y =>
            name y.2 = name x.2 ->
            Forall (fun c => Exists (fun k => name k = name c) (children y.2))
                   (children x.2))
          (postorder trg [])) (postorder src []) ->
  forall q s a n c,
    node_at src q = Some s -> node_at trg a = Some n -> name n = name s ->
    c ∈ children s -> exists k, k ∈ children n /\ name k = name c.
Proof.
  rewrite Forall_forall. intros Hall q s a n c Hq Ha Hn Hc.
  pose proof (Hall (q ++ [], s) (node_at_postorder q src s [] Hq)) as Hs.
  rewrite Forall_forall in Hs.
  pose proof (Hs (a ++ [], n) (node_at_postorder a trg n [] Ha) Hn) as Hcs.
  rewrite Forall_forall in Hcs. by apply Exists_exists, Hcs.
Qed.

End dropped.

(** C10: take a source whose nodes have distinct names and whose internal
    nodes are labelled, and a target whose present names are distinct and
    which has a node of the name of the source's apex.  When every child of
    a source node has a namesake among the children of the like-named target
    node, which may have more children, [restore_node_order] succeeds.  The
    tree it returns has no node that the target has not; every internal
    source node has its counterpart at its own place below the node found
    for the apex, with exactly the names of the source node's children, in
    their order; and the name of every node at or below a child of a
    like-named target node whose name no child of the source node carries,
    tips included, is the name of no node of the returned tree.  When the
    run fails it fails with [ChildMismatch] ([KeyError]), and then a child
    of some source node has no namesake among the children of a like-named
    target node. *)
Theorem extra_children_dropped {R} `{LengthOps R} (src trg t : tree R)
    (p : addr) :
  NoDup (node_names src) -> NoDup (present_names trg) ->
  (forall q s, node_at src q = Some s -> is_tip s = false ->
               is_Some (label_of s)) ->
  node_at trg p = Some t -> name t = name src ->
  ((forall q s a n c,
      node_at src q = Some s -> node_at trg a = Some n -> name n = name s ->
      c ∈ children s -> exists k, k ∈ children n /\ name k = name c) ->
   exists res,
     restore_node_order src trg = Ok res
     /\ node_names res ⊆+ node_names trg
     /\ (forall q s, node_at src q = Some s -> is_tip s = false ->
           exists r, node_at res (q ++ p) = Some r /\ name r = name s
                     /\ name <$> children r = name <$> children s)
     /\ (forall q s a n k y,
           node_at src q = Some s -> is_tip s = false ->
           node_at trg a = Some n -> name n = name s ->
           k ∈ children n -> name k ∉ name <$> children s ->
           y ∈ present_names k -> y ∉ present_names res))
  /\ (forall e, restore_node_order src trg = Err e ->
        e = ChildMismatch
        /\ exists q s a n c,
             node_at src q = Some s /\ node_at trg a = Some n
             /\ name n = name s /\ c ∈ children s
             /\ forall k, k ∈ children n -> name k <> name c).
Proof.
  intros Hnd HT Hlab Ht Hname.
  assert (Hrun : restore_node_order src trg =
            (t' ← align src t; Ok (modify_at p (fun _ => t') trg)))
    by by apply fold_align.
  split.
  - intros Hall. destruct (align_ok src t Hnd Hlab Hname) as [t' Hal].
    { intros q s' a n c Hq Ha Hn Hc. apply (Hall q s' (a ++ p) n c); try done.
      by rewrite node_at_app, Ht. }
    exists (modify_at p (fun _ => t') trg). rewrite Hrun, Hal, bind_Ok.
    split; [done|]. split.
    { apply (node_names_modify_at p _ trg t Ht).
      by apply (align_sub src t t' Hnd Hal). }
    split.
    { intros q s Hq Hs.
      destruct (align_counterpart src t t' q s Hnd Hname Hal Hq Hs)
        as (r & Hr & Hrn & Hrc).
      exists r. by rewrite node_at_app, (node_at_modify_at p _ trg t Ht). }
    intros q s a n k y Hq Hs Ha Hn Hk Hkn Hy Hin.
    destruct (label_of_name s (Hlab q s Hq Hs)) as [L HL].
    destruct (align_counterpart src t t' q s Hnd Hname Hal Hq Hs)
      as (r & Hr & Hrn & _).
    rewrite HL in Hrn, Hn.
    destruct (align_named src t t' q r L Hnd Hal Hr Hrn)
      as (a2 & n2 & Ha2 & Hn2).
    assert (Ha2' : node_at trg (a2 ++ p) = Some n2)
      by by rewrite node_at_app, Ht.
    pose proof (present_unique trg _ _ n n2 L HT Ha Ha2' Hn Hn2) as ->.
    rewrite Ha in Ha2'. injection Ha2' as <-.
    pose proof (present_names_sub trg p t Ht HT) as HTt.
    assert (Hn' : name n = name s) by by rewrite HL.
    pose proof (align_drops src t t' Hnd HTt Hlab Hname Hal
                  q s a2 n k y Hq Hs Ha2 Hn' Hk Hkn Hy) as Hout.
    apply elem_of_present_names in Hin as (e & r' & He & Hr').
    destruct (decide (p `suffix_of` e)) as [[e' ->]|Hsuf].
    + rewrite node_at_app, (node_at_modify_at p _ trg t Ht) in He. cbn in He.
      apply Hout, elem_of_present_names. eauto.
    + destruct (node_at_modify_at_other p _ trg e r' Hsuf He)
        as (n3 & Hn3 & Hn3n).
      rewrite Hr' in Hn3n.
      apply elem_of_present_names in Hy as (ay & ny & Hay & Hny).
      apply list_elem_of_lookup in Hk as [jk Hjk].
      assert (Hyt : node_at trg (((ay ++ [jk]) ++ a2) ++ p) = Some ny).
      { rewrite node_at_app, Ht. cbn. rewrite node_at_app, Ha2. cbn.
        by rewrite node_at_snoc, Hjk. }
      pose proof (present_unique trg _ _ n3 ny y HT Hn3 Hyt Hn3n Hny) as ->.
      apply Hsuf. by eexists.
  - intros e He. rewrite Hrun in He.
    destruct (align src t) as [t'|e'] eqn:Hal; [done|].
    injection He as ->.
    destruct (align_err src t e Hnd Hlab Hname Hal)
      as (-> & q & s & a & n & c & Hq & Ha & Hn & Hc & Hno).
    split; [done|]. exists q, s, (a ++ p), n, c.
    repeat split; try done. by rewrite node_at_app, Ht.
Qed.

Lemma extra_children_dropped_witness :
  (exists res,
     restore_node_order Ex.src_few Ex.trg_more = Ok res
     /\ node_names res ⊆+ node_names Ex.trg_more
     /\ (forall q s, node_at Ex.src_few q = Some s -> is_tip s = false ->
           exists r, node_at res (q ++ []) = Some r /\ name r = name s
                     /\ name <$> children r = name <$> children s)
     /\ (forall q s a n k y,
           node_at Ex.src_few q = Some s -> is_tip s = false ->
           node_at Ex.trg_more a = Some n -> name n = name s ->
           k ∈ children n -> name k ∉ name <$> children s ->
           y ∈ present_names k -> y ∉ present_names res))
  /\ present_names Ex.trg_more
     = ["s"; "extra"; "q"; "u"; "v"; "junk"; "p"; "x"; "r"]
  /\ restore_node_order Ex.src_few Ex.trg_more = Ok Ex.src_few
  /\ restore_node_order Ex.trg_more Ex.src_few = Err ChildMismatch
  /\ exists q s a n c,
       node_at Ex.trg_more q = Some s /\ node_at Ex.src_few a = Some n
       /\ name n = name s /\ c ∈ children s
       /\ forall k, k ∈ children n -> name k <> name c.
Proof.
  split; [|split; [|split; [|split]]]; try (vm_compute; reflexivity).
  - apply (extra_children_dropped Ex.src_few Ex.trg_more Ex.trg_more []).
    + compute_done.
    + compute_done.
    + apply labelled_intro. compute_done.
    + reflexivity.
    + reflexivity.
    + apply namesakes_intro. compute_done.
  - destruct (extra_children_dropped Ex.trg_more Ex.src_few Ex.src_few [])
      as [_ Herr]; [compute_done|compute_done
                   |apply labelled_intro; compute_done
                   |reflexivity|reflexivity|].
    apply (Herr ChildMismatch). vm_compute. reflexivity.
Defined.
